(** * ObjectPool: a shallow embedding of [src/index.ts] (package @rbxts/allocator)

    The pool is a TypeScript class compiled by roblox-ts to Luau.  Its state
    is embedded as a record threaded through a state-and-error monad; the
    instance objects, which the lists and the registry share by reference,
    live in an explicit object store.

    The four abstract methods of the class ([Create], [Start], [Dispose],
    [Destroy]) are supplied by the subclass: every call the pool makes to one
    of them is recorded, in order, in the [trace] of the pool, and they are
    taken not to call back into the pool while they run.

    The BindableEvent [dispose_event_] is embedded by the number of listeners
    connected to it.  [Fire] runs the connected listeners at once; a signal
    that the event delivers late, or twice, is a separate step of a run
    ([OpSignal]), with any arguments.

    Numbers: the two identifiers count up from 0 and are natural numbers.
    The initial size is whatever number the constructor was given: the class
    never rounds it and [Init] only compares it with 0, so it is embedded as
    a rational (a finite Luau number), integer or not, of either sign; an
    integer is read as a size through [inject_Z].  NaN and the two
    infinities are not embedded. *)

From stdpp Require Import base option list gmap strings.
From Stdlib Require Import ZArith QArith Qround Lia Lqa.

#[local] Set Warnings "-clear-no-such-hyp".

#[local] Close Scope Q_scope.

#[local] Coercion inject_Z : Z >-> Q.

(** ** Data model *)

Inductive EObjectPoolType : Type :=
| Unbounded
| Elastic
| Fixed
| FailSilent.

#[global] Instance EObjectPoolType_eq_dec : EqDecision EObjectPoolType.
Proof. solve_decision. Defined.

(** The outcome of a call: normal return, or an error.  [AssertFailed] is the
    Luau error raised by [assert].  The other two belong to the model only:
    [InvalidReference] is the access to an object that was never allocated,
    [OutOfFuel] a loop cut short; neither comes out of a pool built by its own
    methods (see [reachable_no_model_error] below). *)
Inductive error : Type :=
| AssertFailed (msg : string)
| InvalidReference
| OutOfFuel.

Inductive result (A : Type) : Type :=
| Ok (a : A)
| Err (e : error).
Arguments Ok {A} a.
Arguments Err {A} e.

(** Comparisons of Luau numbers, on the finite ones. *)
Module Number.

Definition gt (x y : Q) : bool := negb (Qle_bool x y).

Definition ge (x y : Q) : bool := Qle_bool y x.

End Number.

(** roblox-ts arrays of object references. [indexOf] answers -1 when the
    element is absent; [remove] compiles to [table.remove (t, i + 1)], which
    does nothing when the position is outside [1 .. #t]. *)
Module Array.

Fixpoint find (l : list nat) (x : nat) : option nat :=
  match l with
  | [] => None
  | y :: l' => if decide (y = x) then Some 0 else S <$> find l' x
  end.

Definition indexOf (l : list nat) (x : nat) : Z :=
  match find l x with
  | Some i => Z.of_nat i
  | None => (-1)%Z
  end.

Definition remove (l : list nat) (i : Z) : list nat :=
  if ((0 <=? i)%Z && (i <? Z.of_nat (length l))%Z)%bool
  then delete (Z.to_nat i) l
  else l.

Definition push (l : list nat) (x : nat) : list nat := l ++ [x].

Definition pop (l : list nat) : option nat * list nat :=
  match last l with
  | Some x => (Some x, removelast l)
  | None => (None, l)
  end.

Definition shift (l : list nat) : option nat * list nat :=
  match l with
  | [] => (None, [])
  | x :: l' => (Some x, l')
  end.

Definition size (l : list nat) : Z := Z.of_nat (length l).

End Array.

Section ObjectPool.

Context {TObjectData TObjectStartData : Type}.

Record IObjectPoolInstance : Type := mkInstance {
  Value : TObjectData;
  IsActive : bool;
  CreationId : nat;
  UseId : nat;
}.

Definition set_IsActive (b : bool) (i : IObjectPoolInstance) : IObjectPoolInstance :=
  mkInstance (Value i) b (CreationId i) (UseId i).

Definition incr_UseId (i : IObjectPoolInstance) : IObjectPoolInstance :=
  mkInstance (Value i) (IsActive i) (CreationId i) (UseId i + 1).

(** Calls to the subclass hooks and to [warn], as the pool makes them.  The
    closure handed to [Start] is recorded by what it captures: the instance
    (a reference into the store) and the [use_id] read at allocation. *)
Inductive Event : Type :=
| EvCreate (value : TObjectData)
| EvStart (value : TObjectData) (start_data : TObjectStartData) (instance : nat) (use_id : nat)
| EvDispose (value : TObjectData)
| EvDestroy (value : TObjectData)
| EvWarn (msg : string).

(** The subclass's [Create]: the value it returns may depend on everything
    the hooks have seen so far. *)
Variable Create : list Event -> TObjectData.

(** [store] holds the instance objects; a reference is an index into it and
    objects are never moved.  [dispose_event_] is the number of listeners
    connected to the BindableEvent. *)
Record ObjectPool : Type := mkPool {
  initial_pool_size_ : Q;
  object_pool_type_ : EObjectPoolType;
  store : list IObjectPoolInstance;
  dispose_event_ : nat;
  used_instances_list_ : list nat;
  instances_list_ : list nat;
  creation_id_ : nat;
  instances_map_ : gmap nat nat;
  is_destroyed_ : bool;
  is_started_ : bool;
  trace : list Event;
}.

Definition new_pool (initial_pool_size : Q) (object_pool_type : EObjectPoolType) : ObjectPool :=
  mkPool initial_pool_size object_pool_type [] 0 [] [] 0 ∅ false false [].

Definition set_store (f : list IObjectPoolInstance → list IObjectPoolInstance) (p : ObjectPool) : ObjectPool :=
  mkPool (initial_pool_size_ p) (object_pool_type_ p) (f (store p)) (dispose_event_ p)
    (used_instances_list_ p) (instances_list_ p) (creation_id_ p) (instances_map_ p)
    (is_destroyed_ p) (is_started_ p) (trace p).

Definition set_dispose_event (f : nat → nat) (p : ObjectPool) : ObjectPool :=
  mkPool (initial_pool_size_ p) (object_pool_type_ p) (store p) (f (dispose_event_ p))
    (used_instances_list_ p) (instances_list_ p) (creation_id_ p) (instances_map_ p)
    (is_destroyed_ p) (is_started_ p) (trace p).

Definition set_used_instances_list (f : list nat → list nat) (p : ObjectPool) : ObjectPool :=
  mkPool (initial_pool_size_ p) (object_pool_type_ p) (store p) (dispose_event_ p)
    (f (used_instances_list_ p)) (instances_list_ p) (creation_id_ p) (instances_map_ p)
    (is_destroyed_ p) (is_started_ p) (trace p).

Definition set_instances_list (f : list nat → list nat) (p : ObjectPool) : ObjectPool :=
  mkPool (initial_pool_size_ p) (object_pool_type_ p) (store p) (dispose_event_ p)
    (used_instances_list_ p) (f (instances_list_ p)) (creation_id_ p) (instances_map_ p)
    (is_destroyed_ p) (is_started_ p) (trace p).

Definition set_creation_id (f : nat → nat) (p : ObjectPool) : ObjectPool :=
  mkPool (initial_pool_size_ p) (object_pool_type_ p) (store p) (dispose_event_ p)
    (used_instances_list_ p) (instances_list_ p) (f (creation_id_ p)) (instances_map_ p)
    (is_destroyed_ p) (is_started_ p) (trace p).

Definition set_instances_map (f : gmap nat nat → gmap nat nat) (p : ObjectPool) : ObjectPool :=
  mkPool (initial_pool_size_ p) (object_pool_type_ p) (store p) (dispose_event_ p)
    (used_instances_list_ p) (instances_list_ p) (creation_id_ p) (f (instances_map_ p))
    (is_destroyed_ p) (is_started_ p) (trace p).

Definition set_is_destroyed (b : bool) (p : ObjectPool) : ObjectPool :=
  mkPool (initial_pool_size_ p) (object_pool_type_ p) (store p) (dispose_event_ p)
    (used_instances_list_ p) (instances_list_ p) (creation_id_ p) (instances_map_ p)
    b (is_started_ p) (trace p).

Definition set_is_started (b : bool) (p : ObjectPool) : ObjectPool :=
  mkPool (initial_pool_size_ p) (object_pool_type_ p) (store p) (dispose_event_ p)
    (used_instances_list_ p) (instances_list_ p) (creation_id_ p) (instances_map_ p)
    (is_destroyed_ p) b (trace p).

Definition set_trace (f : list Event → list Event) (p : ObjectPool) : ObjectPool :=
  mkPool (initial_pool_size_ p) (object_pool_type_ p) (store p) (dispose_event_ p)
    (used_instances_list_ p) (instances_list_ p) (creation_id_ p) (instances_map_ p)
    (is_destroyed_ p) (is_started_ p) (f (trace p)).

(** ** The monad of pool methods

    A method maps the pool to an outcome and the pool it leaves behind; an
    error keeps the mutations made before it, as a Luau error does. *)
Definition M (A : Type) : Type := ObjectPool → result A * ObjectPool.

Definition ret {A : Type} (a : A) : M A := λ p, (Ok a, p).

Definition bind {A B : Type} (m : M A) (f : A → M B) : M B :=
  λ p, match m p with
       | (Ok a, p') => f a p'
       | (Err e, p') => (Err e, p')
       end.

Definition gets {A : Type} (f : ObjectPool → A) : M A := λ p, (Ok (f p), p).

Definition modify (f : ObjectPool → ObjectPool) : M unit := λ p, (Ok tt, f p).

Definition throw {A : Type} (e : error) : M A := λ p, (Err e, p).

Definition assert (b : bool) (msg : string) : M unit :=
  if b then ret tt else throw (AssertFailed msg).

Definition when (b : bool) (m : M unit) : M unit :=
  if b then m else ret tt.

Fixpoint repeat_M (n : nat) (m : M unit) : M unit :=
  match n with
  | O => ret tt
  | S n' => bind m (λ _, repeat_M n' m)
  end.

#[local] Notation "x <- m ;; k" := (bind m (λ x, k))
  (at level 100, m at next level, k at level 200, right associativity, only parsing).
#[local] Notation "m ;; k" := (bind m (λ _, k))
  (at level 100, k at level 200, right associativity, only parsing).

(** Field access through a reference. *)
Definition deref (instance : nat) : M IObjectPoolInstance :=
  λ p, match store p !! instance with
       | Some i => (Ok i, p)
       | None => (Err InvalidReference, p)
       end.

Definition update (instance : nat) (f : IObjectPoolInstance → IObjectPoolInstance) : M unit :=
  modify (set_store (alter f instance)).

Definition alloc (i : IObjectPoolInstance) : M nat :=
  λ p, (Ok (length (store p)), set_store (λ s, s ++ [i]) p).

(** Calls of the abstract methods and of [warn]. *)
Definition log (e : Event) : M unit := modify (set_trace (λ t, t ++ [e])).

Definition call_Create : M TObjectData :=
  λ p, let value := Create (trace p) in
       (Ok value, set_trace (λ t, t ++ [EvCreate value]) p).

Definition call_Start (value : TObjectData) (start_data : TObjectStartData)
    (instance use_id : nat) : M unit :=
  log (EvStart value start_data instance use_id).

Definition call_Dispose (value : TObjectData) : M unit := log (EvDispose value).

Definition call_Destroy (value : TObjectData) : M unit := log (EvDestroy value).

Definition warn (msg : string) : M unit := log (EvWarn msg).

(** ** The private methods *)

Definition CreateInstance : M nat :=
  instance_creation_id <- gets creation_id_ ;;
  modify (set_creation_id S) ;;
  value <- call_Create ;;
  instance <- alloc (mkInstance value false instance_creation_id 0) ;;
  modify (set_instances_map (insert instance_creation_id instance)) ;;
  ret instance.

Definition DisposeOfInstance (instance : nat) : M unit :=
  update instance incr_UseId ;;
  update instance (set_IsActive false) ;;
  i <- deref instance ;;
  call_Dispose (Value i).

Definition DestroyInstance (instance : nat) : M unit :=
  i <- deref instance ;;
  modify (set_instances_map (delete (CreationId i))) ;;
  call_Destroy (Value i) ;;
  modify (set_instances_list (λ l, Array.remove l (Array.indexOf l instance))).

Definition FreeInstance (instance : nat) : M unit :=
  modify (set_used_instances_list (λ l, Array.remove l (Array.indexOf l instance))) ;;
  DisposeOfInstance instance ;;
  object_pool_type <- gets object_pool_type_ ;;
  size <- gets (λ p, Array.size (instances_list_ p)) ;;
  initial_pool_size <- gets initial_pool_size_ ;;
  if bool_decide (object_pool_type = Elastic) then
    if Number.ge size initial_pool_size then DestroyInstance instance
    else modify (set_instances_list (λ l, Array.push l instance))
  else modify (set_instances_list (λ l, Array.push l instance)).

Definition AllocateInstance : M (option nat) :=
  free <- gets instances_list_ ;;
  match Array.pop free with
  | (Some instance, free') =>
      modify (set_instances_list (λ _, free')) ;;
      modify (set_used_instances_list (λ l, Array.push l instance)) ;;
      update instance (set_IsActive true) ;;
      ret (Some instance)
  | (None, _) =>
      object_pool_type <- gets object_pool_type_ ;;
      if bool_decide (object_pool_type = FailSilent) then ret None
      else if bool_decide (object_pool_type = Fixed) then
        used <- gets used_instances_list_ ;;
        match Array.shift used with
        | (None, _) => warn "Something went wrong" ;; ret None
        | (Some used_instance, used') =>
            modify (set_used_instances_list (λ _, used')) ;;
            modify (set_used_instances_list (λ l, Array.push l used_instance)) ;;
            DisposeOfInstance used_instance ;;
            update used_instance (set_IsActive true) ;;
            ret (Some used_instance)
        end
      else
        new_instance <- CreateInstance ;;
        modify (set_used_instances_list (λ l, Array.push l new_instance)) ;;
        ret (Some new_instance)
  end.

(** ** The disposal channel *)

(** The listener that [Init] connects to [dispose_event_]. *)
Definition dispose_listener (creation_id use_id : nat) : M unit :=
  m <- gets instances_map_ ;;
  match m !! creation_id with
  | None => ret tt
  | Some instance =>
      i <- deref instance ;;
      if bool_decide (UseId i ≠ use_id) then ret tt
      else FreeInstance instance
  end.

(** [dispose_event_.Fire]: every connected listener receives the arguments. *)
Definition dispose_event_Fire (creation_id use_id : nat) : M unit :=
  listeners <- gets dispose_event_ ;;
  repeat_M listeners (dispose_listener creation_id use_id).

(** The closure that [Use] passes to [Start], applied. *)
Definition dispose_capability (instance use_id : nat) : M unit :=
  i <- deref instance ;;
  if bool_decide (UseId i ≠ use_id)
  then warn "Attemt of disposal when the instance was already disposed"
  else dispose_event_Fire (CreationId i) (UseId i).

(** ** The protected and public methods *)

(** [for (const _ of $range(first, last))] compiles to the numeric loop
    [for _ = first, last do]: the body runs for [first], [first + 1], ...
    as long as the counter is at most [last], that is
    [floor (last - first) + 1] times, and not at all when [last < first]. *)
Definition for_range (first last : Q) (body : M unit) : M unit :=
  repeat_M (Z.to_nat (Qfloor (last - first) + 1)) body.

Definition Init : M unit :=
  is_started <- gets is_started_ ;;
  if is_started then ret tt
  else
    is_destroyed <- gets is_destroyed_ ;;
    assert (negb is_destroyed) "Object pool is destroyed" ;;
    initial_pool_size <- gets initial_pool_size_ ;;
    assert (Number.gt initial_pool_size 0) "Initial pool size should be greater than 0" ;;
    modify (set_is_started true) ;;
    for_range 0 (initial_pool_size - 1)
      (object_pool_instance <- CreateInstance ;;
       modify (set_instances_list (λ l, Array.push l object_pool_instance))) ;;
    modify (set_dispose_event S).

Definition Use (start_data : TObjectStartData) : M unit :=
  is_started <- gets is_started_ ;;
  when (negb is_started) Init ;;
  is_destroyed <- gets is_destroyed_ ;;
  assert (negb is_destroyed) "Object pool is destroyed" ;;
  allocated <- AllocateInstance ;;
  match allocated with
  | None => ret tt
  | Some instance =>
      i <- deref instance ;;
      let use_id := UseId i in
      call_Start (Value i) start_data instance use_id
  end.

(** [for (const x of array)]: the loop reads the array afresh at every index,
    so an element removed by the body shifts the ones behind it under the
    cursor.  [fuel] bounds the number of rounds. *)
Fixpoint for_of (array : ObjectPool → list nat) (body : nat → M unit) (fuel index : nat) : M unit :=
  λ p, match array p !! index with
       | None => (Ok tt, p)
       | Some x =>
           match fuel with
           | O => (Err OutOfFuel, p)
           | S fuel' => bind (body x) (λ _, for_of array body fuel' (S index)) p
           end
       end.

Definition DestroyPool : M unit :=
  is_destroyed <- gets is_destroyed_ ;;
  if is_destroyed then ret tt
  else
    rounds <- gets (λ p, length (used_instances_list_ p)) ;;
    for_of used_instances_list_
      (λ used_instance, DisposeOfInstance used_instance ;; DestroyInstance used_instance)
      rounds 0 ;;
    rounds <- gets (λ p, length (instances_list_ p)) ;;
    for_of instances_list_ DestroyInstance rounds 0 ;;
    modify (set_dispose_event (λ _, 0)) ;;
    modify (set_used_instances_list (λ _, [])) ;;
    modify (set_instances_list (λ _, [])) ;;
    modify (set_is_destroyed true).

(** ** Runs of a pool

    What the outside can do with a pool: call its methods, apply a closure it
    received through [Start], and (the BindableEvent may deliver late or more
    than once) have a signal handed to the connected listeners.  An error
    ends the call that raised it; the pool stays as the call left it. *)
Inductive Op : Type :=
| OpInit
| OpUse (start_data : TObjectStartData)
| OpDestroyPool
| OpDispose (instance use_id : nat)
| OpSignal (creation_id use_id : nat).

(** A closure can be applied only after [Use] passed it to [Start]. *)
Definition is_closure (instance use_id : nat) (e : Event) : bool :=
  match e with
  | EvStart _ _ instance' use_id' =>
      bool_decide (instance' = instance) && bool_decide (use_id' = use_id)
  | _ => false
  end.

Definition handed_out (instance use_id : nat) (p : ObjectPool) : bool :=
  existsb (is_closure instance use_id) (trace p).

Definition step (o : Op) : M unit :=
  match o with
  | OpInit => Init
  | OpUse start_data => Use start_data
  | OpDestroyPool => DestroyPool
  | OpDispose instance use_id =>
      λ p, if handed_out instance use_id p
           then dispose_capability instance use_id p
           else (Ok tt, p)
  | OpSignal creation_id use_id => dispose_event_Fire creation_id use_id
  end.

Definition exec {A : Type} (m : M A) (p : ObjectPool) : ObjectPool := snd (m p).

Definition outcome {A : Type} (m : M A) (p : ObjectPool) : result A := fst (m p).

Fixpoint run (ops : list Op) (p : ObjectPool) : ObjectPool :=
  match ops with
  | [] => p
  | o :: ops' => run ops' (exec (step o) p)
  end.

Definition reachable (p : ObjectPool) : Prop :=
  ∃ initial_pool_size object_pool_type ops,
    p = run ops (new_pool initial_pool_size object_pool_type).

(** ** Notions used to state the properties *)

(** The pool is initialized and not destroyed. *)
Definition started_and_alive (p : ObjectPool) : Prop :=
  is_started_ p = true ∧ is_destroyed_ p = false.

(** The instance as [DisposeOfInstance] leaves it, and as the Fixed branch of
    [AllocateInstance] hands it out again. *)
Definition disposed (i : IObjectPoolInstance) : IObjectPoolInstance :=
  mkInstance (Value i) false (CreationId i) (UseId i + 1).

Definition recycled (i : IObjectPoolInstance) : IObjectPoolInstance :=
  mkInstance (Value i) true (CreationId i) (UseId i + 1).

(** The pool once [FreeInstance] has taken the instance off the used list
    and disposed of it, before the shrink rule is applied. *)
Definition released (instance : nat) (i : IObjectPoolInstance) (p : ObjectPool) : ObjectPool :=
  set_trace (λ t, t ++ [EvDispose (Value i)])
    (set_store (λ s, <[instance := disposed i]> s)
       (set_used_instances_list (λ l, Array.remove l (Array.indexOf l instance)) p)).

(** The test of the shrink rule, as [FreeInstance] evaluates it. *)
Definition shrinks (p : ObjectPool) : bool :=
  bool_decide (object_pool_type_ p = Elastic)
  && Number.ge (Array.size (instances_list_ p)) (initial_pool_size_ p).

(** A signal is current when the registry knows its creation id and the
    instance found there is at the generation the signal names. *)
Definition current_signal (p : ObjectPool) (creation_id use_id : nat) : Prop :=
  ∃ instance i,
    instances_map_ p !! creation_id = Some instance ∧
    store p !! instance = Some i ∧
    UseId i = use_id.

(** The registry that maps each of the first [n] creation ids to the object
    allocated with it. *)
Fixpoint id_map (n : nat) : gmap nat nat :=
  match n with
  | O => ∅
  | S k => <[k := k]> (id_map k)
  end.

(** A pool that has so far only been initialized and used:
    [free] instances are still on the free list, [used] have been handed
    out, latest-created first, and no instance was ever disposed of. *)
Record fresh_shape (object_pool_type : EObjectPoolType) (free used : nat) (p : ObjectPool) : Prop := {
  fresh_size : initial_pool_size_ p = Z.of_nat (free + used);
  fresh_type : object_pool_type_ p = object_pool_type;
  fresh_alive : started_and_alive p;
  fresh_creation_id : creation_id_ p = free + used;
  fresh_map : instances_map_ p = id_map (free + used);
  fresh_free : instances_list_ p = seq 0 free;
  fresh_used : used_instances_list_ p = reverse (seq free used);
  fresh_store_length : length (store p) = free + used;
  fresh_store : ∀ r, r < free + used →
    ∃ i, store p !! r = Some i ∧ CreationId i = r ∧ UseId i = 0
         ∧ IsActive i = bool_decide (free ≤ r);
}.

(** One round of the loop of [Init]. *)
Definition Init_round : M unit :=
  bind CreateInstance
    (λ object_pool_instance,
       modify (set_instances_list (λ l, Array.push l object_pool_instance))).

(** The state of the loop of [Init] after [n] rounds on a new pool. *)
Record Init_loop_shape (n : nat) (p : ObjectPool) : Prop := {
  loop_creation_id : creation_id_ p = n;
  loop_map : instances_map_ p = id_map n;
  loop_free : instances_list_ p = seq 0 n;
  loop_used : used_instances_list_ p = [];
  loop_store_length : length (store p) = n;
  loop_store : ∀ r, r < n →
    ∃ i, store p !! r = Some i ∧ CreationId i = r ∧ UseId i = 0 ∧ IsActive i = false;
  loop_trace : trace p = (λ i, EvCreate (Value i)) <$> store p;
}.

(** The fields that neither [CreateInstance] nor a push touches. *)
Definition same_settings (p p' : ObjectPool) : Prop :=
  initial_pool_size_ p' = initial_pool_size_ p ∧
  object_pool_type_ p' = object_pool_type_ p ∧
  dispose_event_ p' = dispose_event_ p ∧
  is_destroyed_ p' = is_destroyed_ p ∧
  is_started_ p' = is_started_ p.

(** A store only grows, and an object in it keeps its value and creation id
    while its generation never goes down. *)
Definition store_le (s s' : list IObjectPoolInstance) : Prop :=
  ∀ r i, s !! r = Some i →
    ∃ i', s' !! r = Some i' ∧ UseId i ≤ UseId i'
          ∧ CreationId i' = CreationId i ∧ Value i' = Value i.

(** Every reference the pool holds, or has given away inside a closure,
    points into the store; the registry files each object under its own
    creation id, and below the creation counter. *)
Record pool_wf (p : ObjectPool) : Prop := {
  wf_used : ∀ r, r ∈ used_instances_list_ p → r < length (store p);
  wf_free : ∀ r, r ∈ instances_list_ p → r < length (store p);
  wf_map : ∀ cid r, instances_map_ p !! cid = Some r →
    cid < creation_id_ p ∧ ∃ i, store p !! r = Some i ∧ CreationId i = cid;
  wf_closures : ∀ v d r u, EvStart v d r u ∈ trace p → r < length (store p);
}.

(** [p'] is a later state of [p]: the creation counter and the store have
    only grown, and no creation id that [p] had already given out has been
    registered since. *)
Record pool_ext (p p' : ObjectPool) : Prop := {
  ext_creation_id : creation_id_ p ≤ creation_id_ p';
  ext_store : store_le (store p) (store p');
  ext_map : ∀ cid r, cid < creation_id_ p →
    instances_map_ p' !! cid = Some r → instances_map_ p !! cid = Some r;
}.

(** A reference is valid when it points into the store. *)
Definition valid (r : nat) (p : ObjectPool) : Prop := r < length (store p).

(** The outcome is a return, or one of the errors [E]. *)
Definition allowed (E : error → Prop) {A : Type} (res : result A) : Prop :=
  match res with
  | Ok _ => True
  | Err e => E e
  end.

(** [hoare_triple E P m Q]: from a well-formed pool that satisfies [P], the
    method [m] leaves a well-formed pool that is a later state of the first,
    ends with no other error than one of [E], and when it returns [a] the
    pool satisfies [Q a]. *)
Definition hoare_triple (E : error → Prop) {A : Type}
    (P : ObjectPool → Prop) (m : M A) (Q : A → ObjectPool → Prop) : Prop :=
  ∀ p, pool_wf p → P p →
    pool_wf (exec m p) ∧ pool_ext p (exec m p) ∧ allowed E (outcome m p)
    ∧ ∀ a, outcome m p = Ok a → Q a (exec m p).

(** A property that every later state keeps. *)
Definition stable (F : ObjectPool → Prop) : Prop :=
  ∀ p p', pool_ext p p' → F p → F p'.

(** The errors of the source: a failed [assert]. *)
Definition assert_failure (e : error) : Prop := ∃ msg, e = AssertFailed msg.

(** No error at all. *)
Definition no_error (e : error) : Prop := False.

(** The shrink rule in the words of the specification: the instance is
    destroyed when the free list would reach or exceed the initial size
    once this instance is added back. *)
Definition spec_shrink_test (p : ObjectPool) : Prop :=
  object_pool_type_ p = Elastic
  ∧ (initial_pool_size_ p <= (Array.size (instances_list_ p) + 1)%Z)%Q.

(** The shrink rule of [FreeInstance]: the free list has already reached the
    initial size before this instance is added back. *)
Definition code_shrink_test (p : ObjectPool) : Prop :=
  object_pool_type_ p = Elastic
  ∧ (initial_pool_size_ p <= Array.size (instances_list_ p))%Q.


(** A pool that has been initialized with [N] instances, has handed all of
    them out and has then grown by [k] more: nothing was disposed of yet. *)
Record grown_shape (object_pool_type : EObjectPoolType) (N k : nat) (p : ObjectPool) : Prop := {
  grown_type : object_pool_type_ p = object_pool_type;
  grown_alive : started_and_alive p;
  grown_creation_id : creation_id_ p = N + k;
  grown_map : instances_map_ p = id_map (N + k);
  grown_free : instances_list_ p = [];
  grown_used : used_instances_list_ p = reverse (seq 0 N) ++ seq N k;
  grown_store_length : length (store p) = N + k;
}.

(** The elements at the even positions 0, 2, 4, ... of a list. *)
Fixpoint evens (l : list nat) : list nat :=
  match l with
  | [] => []
  | x :: l' => x :: match l' with
                    | [] => []
                    | _ :: l'' => evens l''
                    end
  end.

(** The elements at the odd positions 1, 3, 5, ... of a list. *)
Fixpoint odds (l : list nat) : list nat :=
  match l with
  | [] => []
  | _ :: l' => match l' with
               | [] => []
               | y :: l'' => y :: odds l''
               end
  end.

(** The values and the creation ids of the instances behind a list of
    references. *)
Definition hook_values (p : ObjectPool) (rs : list nat) : list TObjectData :=
  omap (λ r, Value <$> store p !! r) rs.

Definition creation_ids (p : ObjectPool) (rs : list nat) : list nat :=
  omap (λ r, CreationId <$> store p !! r) rs.

(** The pool after the first loop of [DestroyPool] has gone through the
    used instances [rs]. *)
Definition after_used_loop (p : ObjectPool) (rs : list nat) : ObjectPool :=
  mkPool (initial_pool_size_ p) (object_pool_type_ p)
    (foldl (λ s r, alter disposed r s) (store p) rs)
    (dispose_event_ p) (used_instances_list_ p) (instances_list_ p) (creation_id_ p)
    (foldl (λ m c, delete c m) (instances_map_ p) (creation_ids p rs))
    (is_destroyed_ p) (is_started_ p)
    (trace p ++ flat_map (λ v, [EvDispose v; EvDestroy v]) (hook_values p rs)).

(** The pool after the second loop of [DestroyPool], started with the cursor
    behind [pre], has gone through the rest [suf] of the free list. *)
Definition after_free_loop (p : ObjectPool) (pre suf : list nat) : ObjectPool :=
  mkPool (initial_pool_size_ p) (object_pool_type_ p) (store p)
    (dispose_event_ p) (used_instances_list_ p) (pre ++ odds suf) (creation_id_ p)
    (foldl (λ m c, delete c m) (instances_map_ p) (creation_ids p (evens suf)))
    (is_destroyed_ p) (is_started_ p)
    (trace p ++ (EvDestroy <$> hook_values p (evens suf))).

(** The pool that [DestroyPool] leaves. *)
Definition destroyed_pool (p : ObjectPool) : ObjectPool :=
  let used := used_instances_list_ p in
  let free := instances_list_ p in
  mkPool (initial_pool_size_ p) (object_pool_type_ p)
    (foldl (λ s r, alter disposed r s) (store p) used)
    0 [] [] (creation_id_ p)
    (foldl (λ m c, delete c m) (instances_map_ p) (creation_ids p (used ++ evens free)))
    true (is_started_ p)
    (trace p ++ flat_map (λ v, [EvDispose v; EvDestroy v]) (hook_values p used)
             ++ (EvDestroy <$> hook_values p (evens free))).

(** The pool after [Use] has taken the instance [r] off the back of the
    free list [l ++ [r]]. *)
Definition popped (start_data : TObjectStartData) (l : list nat) (r : nat)
    (i : IObjectPoolInstance) (p : ObjectPool) : ObjectPool :=
  set_trace (λ t, t ++ [EvStart (Value i) start_data r (UseId i)])
    (set_store (alter (set_IsActive true) r)
       (set_used_instances_list (λ u, u ++ [r])
          (set_instances_list (λ _, l) p))).

(** The pool after [Use] under Fixed has recycled the front [r] of the used
    list [r :: rest]. *)
Definition recycled_pool (start_data : TObjectStartData) (r : nat) (rest : list nat)
    (i : IObjectPoolInstance) (p : ObjectPool) : ObjectPool :=
  set_trace (λ t, t ++ [EvDispose (Value i);
                        EvStart (Value i) start_data r (UseId i + 1)])
    (set_store (λ s, <[r := recycled i]> s)
       (set_used_instances_list (λ _, rest ++ [r]) p)).

(** The pool after [Use] under Unbounded or Elastic has constructed a new
    instance. *)
Definition grown_pool (start_data : TObjectStartData) (p : ObjectPool) : ObjectPool :=
  mkPool (initial_pool_size_ p) (object_pool_type_ p)
    (store p ++ [mkInstance (Create (trace p)) false (creation_id_ p) 0])
    (dispose_event_ p)
    (used_instances_list_ p ++ [length (store p)])
    []
    (S (creation_id_ p))
    (<[creation_id_ p := length (store p)]> (instances_map_ p))
    (is_destroyed_ p) (is_started_ p)
    (trace p ++ [EvCreate (Create (trace p));
                 EvStart (Create (trace p)) start_data (length (store p)) 0]).

(** The signals that the event can carry: the one that a closure given out
    by [Use] sends when it is applied. *)
Definition fired (p : ObjectPool) (creation_id use_id : nat) : Prop :=
  ∃ v d r i, EvStart v d r use_id ∈ trace p ∧ store p !! r = Some i
             ∧ CreationId i = creation_id.

(** A step that the outside can really take: a signal is delivered only if
    some closure can have sent it. *)
Definition admissible (o : Op) (p : ObjectPool) : Prop :=
  match o with
  | OpSignal creation_id use_id => fired p creation_id use_id
  | _ => True
  end.

Fixpoint proper (ops : list Op) (p : ObjectPool) : Prop :=
  match ops with
  | [] => True
  | o :: ops' => admissible o p ∧ proper ops' (exec (step o) p)
  end.

Definition properly_reachable (p : ObjectPool) : Prop :=
  ∃ initial_pool_size object_pool_type ops,
    proper ops (new_pool initial_pool_size object_pool_type)
    ∧ p = run ops (new_pool initial_pool_size object_pool_type).

(** The methods that assert. *)
Definition asserts (o : Op) : Prop :=
  match o with
  | OpInit | OpUse _ => True
  | _ => False
  end.

(** The changes that the calls make to a pool, one at a time.  With
    [strict], a signal is taken to come from a closure. *)
Inductive transition (strict : bool) (p : ObjectPool) : ObjectPool → Prop :=
| tr_init p' :
    is_started_ p = false → is_destroyed_ p = false → (0 < initial_pool_size_ p)%Q →
    Init p = (Ok tt, p') →
    transition strict p p'
| tr_pop start_data l r i :
    started_and_alive p → instances_list_ p = l ++ [r] → store p !! r = Some i →
    transition strict p (popped start_data l r i p)
| tr_recycle start_data r rest i :
    started_and_alive p → instances_list_ p = [] → object_pool_type_ p = Fixed →
    used_instances_list_ p = r :: rest → store p !! r = Some i →
    transition strict p (recycled_pool start_data r rest i p)
| tr_nothing :
    started_and_alive p → instances_list_ p = [] → object_pool_type_ p = Fixed →
    used_instances_list_ p = [] →
    transition strict p (set_trace (λ t, t ++ [EvWarn "Something went wrong"]) p)
| tr_grow start_data :
    started_and_alive p → instances_list_ p = [] →
    object_pool_type_ p = Unbounded ∨ object_pool_type_ p = Elastic →
    transition strict p (grown_pool start_data p)
| tr_warn v d r u i :
    EvStart v d r u ∈ trace p → store p !! r = Some i → UseId i ≠ u →
    transition strict p
      (set_trace
         (λ t, t ++ [EvWarn "Attemt of disposal when the instance was already disposed"]) p)
| tr_free creation_id r i :
    dispose_event_ p = 1 →
    instances_map_ p !! creation_id = Some r → store p !! r = Some i →
    (strict = true → fired p creation_id (UseId i)) →
    transition strict p (exec (FreeInstance r) p)
| tr_destroy :
    is_destroyed_ p = false →
    transition strict p (exec DestroyPool p).

(** The number of calls of [Create] in a log. *)
Fixpoint Create_calls (t : list Event) : nat :=
  match t with
  | [] => 0
  | EvCreate _ :: t' => S (Create_calls t')
  | _ :: t' => Create_calls t'
  end.

(** What every pool built by its own methods satisfies, whatever signals it
    was sent. *)
Record pool_inv (p : ObjectPool) : Prop := {
  inv_unstarted : is_started_ p = false →
    p = set_is_destroyed (is_destroyed_ p)
          (new_pool (initial_pool_size_ p) (object_pool_type_ p));
  inv_started_size : is_started_ p = true → (0 < initial_pool_size_ p)%Q;
  inv_event : dispose_event_ p = if is_started_ p && negb (is_destroyed_ p) then 1 else 0;
  inv_store_ids : ∀ r i, store p !! r = Some i → CreationId i = r;
  inv_counter : length (store p) = creation_id_ p;
  inv_creates : Create_calls (trace p) = creation_id_ p;
  inv_bounded : object_pool_type_ p = Fixed ∨ object_pool_type_ p = FailSilent →
    creation_id_ p = if is_started_ p then Z.to_nat (Qfloor (initial_pool_size_ p)) else 0;
  inv_elastic : object_pool_type_ p = Elastic →
    length (instances_list_ p) ≤ Z.to_nat (Qceiling (initial_pool_size_ p));
  inv_nonempty : object_pool_type_ p = Fixed → started_and_alive p →
    (1 <= initial_pool_size_ p)%Q →
    used_instances_list_ p ++ instances_list_ p ≠ [];
  inv_no_warn : (1 <= initial_pool_size_ p)%Q ∨ object_pool_type_ p ≠ Fixed →
    EvWarn "Something went wrong" ∉ trace p;
  inv_destroyed : is_destroyed_ p = true →
    used_instances_list_ p = [] ∧ instances_list_ p = [];
}.

(** What a pool satisfies in addition when every signal it was sent came from
    a closure. *)
Record pool_partition (p : ObjectPool) : Prop := {
  part_nodup : NoDup (used_instances_list_ p ++ instances_list_ p);
  part_registered : ∀ r, r ∈ used_instances_list_ p ++ instances_list_ p →
    instances_map_ p !! r = Some r;
  part_listed : is_destroyed_ p = false →
    ∀ creation_id r, instances_map_ p !! creation_id = Some r →
      r ∈ used_instances_list_ p ++ instances_list_ p;
  part_closure_le : ∀ v d r u, EvStart v d r u ∈ trace p →
    ∃ i, store p !! r = Some i ∧ u ≤ UseId i;
  part_closure_current : ∀ v d r u i, EvStart v d r u ∈ trace p →
    store p !! r = Some i → UseId i = u → r ∈ used_instances_list_ p;
  part_free_inactive : ∀ r i, r ∈ instances_list_ p → store p !! r = Some i →
    IsActive i = false;
}.

(** What the loops of [DestroyPool] leave alone. *)
Record loop_frame (p p' : ObjectPool) : Prop := {
  frame_size : initial_pool_size_ p' = initial_pool_size_ p;
  frame_type : object_pool_type_ p' = object_pool_type_ p;
  frame_creation_id : creation_id_ p' = creation_id_ p;
  frame_started : is_started_ p' = is_started_ p;
  frame_store_length : length (store p') = length (store p);
  frame_store_ids : ∀ r i', store p' !! r = Some i' →
    ∃ i, store p !! r = Some i ∧ CreationId i' = CreationId i;
  frame_trace : ∃ t, trace p' = trace p ++ t
    ∧ Forall (λ e, ∃ v, e = EvDispose v ∨ e = EvDestroy v) t;
}.

(** Every state that the method [m] can leave is related to the one it
    started from. *)
Definition keeps (R : ObjectPool → ObjectPool → Prop) {A : Type} (m : M A) : Prop :=
  ∀ p, R p (exec m p).

(** ** Symbolic execution of the methods *)

Ltac pool_unfold :=
  unfold Use, Init, DestroyPool, AllocateInstance, FreeInstance, DestroyInstance,
    DisposeOfInstance, CreateInstance, dispose_listener, dispose_event_Fire,
    dispose_capability, for_range, call_Create, call_Start, call_Dispose,
    call_Destroy, warn, log, update, alloc, deref, when, assert, throw, modify,
    gets, bind, ret, exec, outcome.

Ltac pool_norm :=
  unfold set_store, set_dispose_event, set_used_instances_list, set_instances_list,
    set_creation_id, set_instances_map, set_is_destroyed, set_is_started, set_trace in *;
  cbn [set_store set_dispose_event set_used_instances_list set_instances_list
       set_creation_id set_instances_map set_is_destroyed set_is_started set_trace
       initial_pool_size_ object_pool_type_ store dispose_event_ used_instances_list_
       instances_list_ creation_id_ instances_map_ is_destroyed_ is_started_ trace
       Value IsActive CreationId UseId set_IsActive incr_UseId
       Array.pop Array.shift Array.push last fmap option_fmap option_map
       fst snd negb repeat_M bind ret] in *.

Ltac pool_cbn :=
  cbn [set_store set_dispose_event set_used_instances_list set_instances_list
       set_creation_id set_instances_map set_is_destroyed set_is_started set_trace
       initial_pool_size_ object_pool_type_ store dispose_event_ used_instances_list_
       instances_list_ creation_id_ instances_map_ is_destroyed_ is_started_ trace
       Value IsActive CreationId UseId set_IsActive incr_UseId
       Array.pop Array.shift Array.push last fmap option_fmap option_map
       fst snd negb repeat_M bind ret] in *.

Ltac pool_run := pool_unfold; pool_norm.

Ltac pool_destruct p := destruct p; pool_norm; subst.

(** Facts about the numbers. *)
Lemma Number_gt_true (x y : Q) : Number.gt x y = true ↔ (y < x)%Q.
Proof.
  unfold Number.gt. rewrite negb_true_iff. split.
  - intros H. apply Qnot_le_lt. intros Hle. apply Qle_bool_iff in Hle. congruence.
  - intros H. destruct (Qle_bool x y) eqn:E; [|done].
    apply Qle_bool_iff in E. by apply Qlt_not_le in H.
Qed.

Lemma Number_gt_false (x y : Q) : Number.gt x y = false ↔ (x <= y)%Q.
Proof. unfold Number.gt. rewrite negb_false_iff. apply Qle_bool_iff. Qed.

Lemma Number_ge_true (x y : Q) : Number.ge x y = true ↔ (y <= x)%Q.
Proof. apply Qle_bool_iff. Qed.

Lemma Number_ge_false (x y : Q) : Number.ge x y = false ↔ (x < y)%Q.
Proof.
  unfold Number.ge. split.
  - intros H. apply Qnot_le_lt. intros Hle. apply Qle_bool_iff in Hle. congruence.
  - intros H. destruct (Qle_bool y x) eqn:E; [|done].
    apply Qle_bool_iff in E. by apply Qlt_not_le in H.
Qed.

Lemma Qfloor_unique (q : Q) (z : Z) :
  (z <= q)%Q → (q < (z + 1)%Z)%Q → Qfloor q = z.
Proof.
  intros Hle Hlt. apply Z.le_antisymm.
  - apply Z.lt_succ_r. rewrite Zlt_Qlt.
    eapply Qle_lt_trans; [apply Qfloor_le | exact Hlt].
  - apply Qfloor_resp_le in Hle. by rewrite Qfloor_Z in Hle.
Qed.

(** The loop of [Init] runs [floor initial_pool_size_] times. *)
Lemma for_range_rounds (q : Q) : (Qfloor (q - 1 - 0) + 1)%Z = Qfloor q.
Proof.
  pose proof (Qfloor_le q) as Hle. pose proof (Qlt_floor q) as Hlt.
  rewrite inject_Z_plus in Hlt. change (inject_Z 1) with 1%Q in Hlt.
  set (z := Qfloor q) in *. clearbody z.
  rewrite (Qfloor_unique (q - 1 - 0) (z - 1)); [lia | |].
  - replace (z - 1)%Z with (z + -1)%Z by lia.
    rewrite inject_Z_plus. change (inject_Z (-1)) with (-1)%Q. lra.
  - replace (z - 1 + 1)%Z with z by lia. lra.
Qed.

Lemma floor_of_nat (N : nat) : Z.to_nat (Qfloor (Z.of_nat N)) = N.
Proof. by rewrite Qfloor_Z, Nat2Z.id. Qed.

Lemma size_of_nat_pos (N : nat) : 0 < N → (0 < Z.of_nat N)%Q.
Proof. intros HN. unfold Qlt. cbn. lia. Qed.

(** Facts about the arrays. *)
Lemma Array_pop_snoc (l : list nat) (x : nat) : Array.pop (l ++ [x]) = (Some x, l).
Proof. unfold Array.pop. by rewrite last_snoc, removelast_last. Qed.

Lemma Array_pop_Some (l l' : list nat) (x : nat) :
  Array.pop l = (Some x, l') → l = l' ++ [x].
Proof.
  unfold Array.pop. destruct (last l) as [y|] eqn:E; [|done].
  intros [= -> <-]. apply last_Some in E as [l'' ->]. by rewrite removelast_last.
Qed.

Lemma Array_pop_None (l l' : list nat) : Array.pop l = (None, l') → l = [].
Proof.
  unfold Array.pop. destruct (last l) as [y|] eqn:E; [done|]. intros _. by apply last_None.
Qed.

Lemma Array_find_None (l : list nat) (x : nat) : Array.find l x = None ↔ x ∉ l.
Proof.
  induction l as [|y l IH]; simpl.
  - split; [intros _; apply not_elem_of_nil | done].
  - rewrite not_elem_of_cons. destruct (decide (y = x)) as [->|Hne].
    + split; [done | intros [? _]; done].
    + destruct (Array.find l x); simpl.
      * split; [done|]. intros [_ Hx]. by apply IH in Hx.
      * split; [|done]. intros _. split; [congruence | by apply IH].
Qed.

Lemma Array_remove_indexOf_absent (l : list nat) (x : nat) :
  x ∉ l → Array.remove l (Array.indexOf l x) = l.
Proof. intros Hx. apply Array_find_None in Hx. unfold Array.indexOf. by rewrite Hx. Qed.

Lemma Array_find_app_absent (l k : list nat) (x : nat) :
  x ∉ l → Array.find (l ++ k) x = (λ n, length l + n) <$> Array.find k x.
Proof.
  induction l as [|y l IH]; intros Hx; cbn [app Array.find length].
  - by destruct (Array.find k x).
  - apply not_elem_of_cons in Hx as [Hne Hx]. rewrite decide_False by done.
    rewrite (IH Hx). by destruct (Array.find k x).
Qed.

Lemma Array_indexOf_snoc (l : list nat) (x : nat) :
  x ∉ l → Array.indexOf (l ++ [x]) x = Z.of_nat (length l).
Proof.
  intros Hx. unfold Array.indexOf. rewrite (Array_find_app_absent l [x] x Hx).
  cbn. rewrite decide_True by done. cbn. by rewrite Nat.add_0_r.
Qed.

Lemma Array_remove_sublist (l : list nat) (i : Z) : Array.remove l i ⊆ l.
Proof.
  unfold Array.remove. destruct (_ && _); [|done].
  intros x Hx. by eapply list_elem_of_delete_inv.
Qed.

Lemma Array_remove_length (l : list nat) (i : Z) : length (Array.remove l i) ≤ length l.
Proof.
  unfold Array.remove. destruct (_ && _); [|done].
  apply sublist_length, sublist_delete.
Qed.

(** [Use] on a started pool whose free list ends in [instance]. *)
Lemma Use_pop (start_data : TObjectStartData) (p : ObjectPool) (l : list nat) (instance : nat)
    (i : IObjectPoolInstance) :
  started_and_alive p →
  instances_list_ p = l ++ [instance] →
  store p !! instance = Some i →
  Use start_data p =
    (Ok tt,
     set_trace (λ t, t ++ [EvStart (Value i) start_data instance (UseId i)])
       (set_store (alter (set_IsActive true) instance)
          (set_used_instances_list (λ u, u ++ [instance])
             (set_instances_list (λ _, l) p)))).
Proof.
  intros [Hs Hd] Hl Hi. pool_destruct p. pool_run.
  rewrite Array_pop_snoc. pool_cbn.
  rewrite list_lookup_alter_eq, Hi. reflexivity.
Qed.

Lemma alter_lookup_insert (f : IObjectPoolInstance → IObjectPoolInstance)
    (s : list IObjectPoolInstance) (r : nat) (i : IObjectPoolInstance) :
  s !! r = Some i → alter f r s = <[r := f i]> s.
Proof.
  intros Hi. apply list_eq. intros j.
  destruct (decide (r = j)) as [<-|Hne].
  - rewrite list_lookup_alter_eq, Hi.
    rewrite list_lookup_insert_eq; [done | by eapply lookup_lt_Some].
  - by rewrite list_lookup_alter_ne, list_lookup_insert_ne.
Qed.

(** [Use] under FailSilent with nothing free. *)
Lemma Use_FailSilent_exhausted (start_data : TObjectStartData) (p : ObjectPool) :
  started_and_alive p →
  instances_list_ p = [] →
  object_pool_type_ p = FailSilent →
  Use start_data p = (Ok tt, p).
Proof.
  intros [Hs Hd] Hl Ht. pool_destruct p. reflexivity.
Qed.

Lemma DisposeOfInstance_eq (p : ObjectPool) (instance : nat) (i : IObjectPoolInstance) :
  store p !! instance = Some i →
  DisposeOfInstance instance p =
    (Ok tt, set_trace (λ t, t ++ [EvDispose (Value i)])
              (set_store (λ s, <[instance := disposed i]> s) p)).
Proof.
  intros Hi. pool_destruct p. pool_run.
  rewrite !list_lookup_alter_eq, Hi. pool_cbn.
  rewrite (alter_lookup_insert incr_UseId _ _ _ Hi).
  rewrite (alter_lookup_insert (set_IsActive false) _ instance (incr_UseId i)).
  - by rewrite list_insert_insert_eq.
  - rewrite list_lookup_insert_eq; [done | by eapply lookup_lt_Some].
Qed.

(** [Use] under Fixed with nothing free: the front of the used list is
    disposed of and handed out again. *)
Lemma Use_Fixed_recycle (start_data : TObjectStartData) (p : ObjectPool)
    (used_instance : nat) (used' : list nat) (i : IObjectPoolInstance) :
  started_and_alive p →
  instances_list_ p = [] →
  object_pool_type_ p = Fixed →
  used_instances_list_ p = used_instance :: used' →
  store p !! used_instance = Some i →
  Use start_data p =
    (Ok tt,
     set_trace (λ t, t ++ [EvDispose (Value i);
                           EvStart (Value i) start_data used_instance (UseId i + 1)])
       (set_store (λ s, <[used_instance := recycled i]> s)
          (set_used_instances_list (λ _, used' ++ [used_instance]) p))).
Proof.
  intros [Hs Hd] Hl Ht Hu Hi. pool_destruct p.
  pool_run. cbn [Array.pop last Array.shift Array.push].
  rewrite bool_decide_false, bool_decide_true by done. pool_cbn.
  rewrite !list_lookup_alter_eq, Hi. pool_cbn.
  rewrite (alter_lookup_insert incr_UseId _ _ _ Hi).
  assert (Hlt : used_instance < length store0) by by eapply lookup_lt_Some.
  rewrite (alter_lookup_insert (set_IsActive false) _ used_instance (incr_UseId i))
    by by rewrite list_lookup_insert_eq.
  rewrite list_insert_insert_eq.
  rewrite (alter_lookup_insert (set_IsActive true) _ used_instance
             (set_IsActive false (incr_UseId i)))
    by by rewrite list_lookup_insert_eq.
  rewrite list_insert_insert_eq, list_lookup_insert_eq by done.
  cbn. by rewrite <- app_assoc.
Qed.

Lemma DestroyInstance_eq (p : ObjectPool) (instance : nat) (i : IObjectPoolInstance) :
  store p !! instance = Some i →
  DestroyInstance instance p =
    (Ok tt, set_instances_list (λ l, Array.remove l (Array.indexOf l instance))
              (set_trace (λ t, t ++ [EvDestroy (Value i)])
                 (set_instances_map (delete (CreationId i)) p))).
Proof.
  intros Hi. pool_destruct p. pool_run. by rewrite Hi.
Qed.

Lemma FreeInstance_eq (p : ObjectPool) (instance : nat) (i : IObjectPoolInstance) :
  store p !! instance = Some i →
  FreeInstance instance p =
    (Ok tt,
     if shrinks p
     then set_instances_list (λ l, Array.remove l (Array.indexOf l instance))
            (set_trace (λ t, t ++ [EvDestroy (Value i)])
               (set_instances_map (delete (CreationId i)) (released instance i p)))
     else set_instances_list (λ l, l ++ [instance]) (released instance i p)).
Proof.
  intros Hi. unfold FreeInstance, bind at 1, modify at 1.
  set (p1 := set_used_instances_list _ p).
  assert (Hi1 : store p1 !! instance = Some i) by done.
  unfold bind at 1. rewrite (DisposeOfInstance_eq _ _ _ Hi1).
  set (p2 := set_trace _ _).
  assert (Hi2 : store p2 !! instance = Some (disposed i)).
  { subst p2 p1. pool_cbn. rewrite list_lookup_insert_eq; [done | by eapply lookup_lt_Some]. }
  unfold bind, gets, shrinks.
  replace (object_pool_type_ p2) with (object_pool_type_ p) by done.
  replace (instances_list_ p2) with (instances_list_ p) by done.
  replace (initial_pool_size_ p2) with (initial_pool_size_ p) by done.
  destruct (bool_decide (object_pool_type_ p = Elastic)); cbn [andb]; [|done].
  destruct (Number.ge (Array.size (instances_list_ p)) (initial_pool_size_ p)); [|done].
  by rewrite (DestroyInstance_eq _ _ _ Hi2).
Qed.

Lemma dispose_listener_current (p : ObjectPool) (creation_id use_id instance : nat)
    (i : IObjectPoolInstance) :
  instances_map_ p !! creation_id = Some instance →
  store p !! instance = Some i →
  UseId i = use_id →
  dispose_listener creation_id use_id p = FreeInstance instance p.
Proof.
  intros Hm Hi Hu. unfold dispose_listener, bind, gets, deref.
  rewrite Hm, Hi. by rewrite bool_decide_false by (intros ?; done).
Qed.

Lemma dispose_listener_stale (p : ObjectPool) (creation_id use_id : nat) :
  ¬ current_signal p creation_id use_id →
  exec (dispose_listener creation_id use_id) p = p.
Proof.
  intros Hn. unfold dispose_listener, exec, bind, gets, deref, ret.
  destruct (instances_map_ p !! creation_id) as [instance|] eqn:Hm; [|done].
  destruct (store p !! instance) as [i|] eqn:Hi; [|done].
  case_bool_decide as Hu; [done|].
  destruct Hn. exists instance, i. split_and!; [done..|].
  destruct (decide (UseId i = use_id)); [done|]. by destruct Hu.
Qed.

Lemma repeat_M_fixed (m : M unit) (p : ObjectPool) (n : nat) :
  exec m p = p → exec (repeat_M n m) p = p.
Proof.
  intros Hm. induction n as [|n IH]; [done|].
  unfold exec in *. cbn [repeat_M]. unfold bind.
  destruct (m p) as [[[]|e] p'] eqn:E; cbn [snd] in Hm; subst p'; [apply IH | done].
Qed.

Lemma dispose_event_Fire_stale (p : ObjectPool) (creation_id use_id : nat) :
  ¬ current_signal p creation_id use_id →
  exec (dispose_event_Fire creation_id use_id) p = p.
Proof.
  intros Hn. unfold dispose_event_Fire, exec, bind, gets.
  apply (repeat_M_fixed _ p (dispose_event_ p)), dispose_listener_stale, Hn.
Qed.

Lemma dispose_event_Fire_one (p : ObjectPool) (creation_id use_id : nat) :
  dispose_event_ p = 1 →
  exec (dispose_event_Fire creation_id use_id) p
  = exec (dispose_listener creation_id use_id) p.
Proof.
  intros H1. unfold dispose_event_Fire, exec, bind, gets. rewrite H1.
  cbn [repeat_M]. unfold bind, ret.
  by destruct (dispose_listener creation_id use_id p) as [[[]|e] p'].
Qed.

(** ** Initialization and the first uses of a fresh pool *)

Lemma lookup_id_map (n k : nat) :
  id_map n !! k = if decide (k < n) then Some k else None.
Proof.
  induction n as [|n IH]; cbn [id_map].
  - rewrite lookup_empty. by rewrite decide_False by lia.
  - destruct (decide (n = k)) as [->|Hne].
    + rewrite lookup_insert_eq. by rewrite decide_True by lia.
    + rewrite lookup_insert_ne by done. rewrite IH.
      destruct (decide (k < n)), (decide (k < S n)); (done || lia).
Qed.

Lemma size_id_map (n : nat) : size (id_map n) = n.
Proof.
  induction n as [|n IH]; cbn [id_map]; [apply map_size_empty|].
  rewrite map_size_insert_None; [by rewrite IH|].
  rewrite lookup_id_map. by rewrite decide_False by lia.
Qed.

Lemma Init_round_eq (p : ObjectPool) :
  Init_round p =
    (Ok tt,
     mkPool (initial_pool_size_ p) (object_pool_type_ p)
       (store p ++ [mkInstance (Create (trace p)) false (creation_id_ p) 0])
       (dispose_event_ p) (used_instances_list_ p)
       (instances_list_ p ++ [length (store p)])
       (S (creation_id_ p))
       (<[creation_id_ p := length (store p)]> (instances_map_ p))
       (is_destroyed_ p) (is_started_ p)
       (trace p ++ [EvCreate (Create (trace p))])).
Proof. by destruct p. Qed.

Lemma Init_round_shape (n : nat) (p : ObjectPool) :
  Init_loop_shape n p → Init_loop_shape (S n) (exec Init_round p).
Proof.
  intros [Hc Hm Hf Hu Hl Hs Ht]. unfold exec. rewrite Init_round_eq. cbn [snd].
  split; cbn [creation_id_ instances_map_ instances_list_ used_instances_list_ store trace].
  - by rewrite Hc.
  - by rewrite Hc, Hl, Hm.
  - by rewrite Hf, Hl, seq_S.
  - done.
  - rewrite length_app, Hl. cbn. lia.
  - intros r Hr. destruct (decide (r = n)) as [->|Hne].
    + eexists. rewrite lookup_app_r by lia. rewrite Hl, Nat.sub_diag. cbn.
      split_and!; try done.
    + destruct (Hs r) as (i & Hi & ?); [lia|]. exists i.
      by rewrite lookup_app_l by lia.
  - by rewrite fmap_app, Ht.
Qed.

Lemma Init_loop_eq (k n : nat) (p : ObjectPool) :
  Init_loop_shape n p →
  ∃ p', repeat_M k Init_round p = (Ok tt, p')
        ∧ Init_loop_shape (n + k) p' ∧ same_settings p p'.
Proof.
  revert n p. induction k as [|k IH]; intros n p Hp.
  - exists p. rewrite Nat.add_0_r. by split_and!.
  - cbn [repeat_M]. unfold bind at 1.
    pose proof (Init_round_shape n p Hp) as Hp1.
    unfold exec in Hp1. rewrite Init_round_eq in Hp1 |- *. cbn [snd] in Hp1.
    destruct (IH _ _ Hp1) as (p' & Hrun & Hshape & Hsame).
    exists p'. split_and!; [done | by rewrite <- Nat.add_succ_comm |].
    by destruct p.
Qed.

Lemma Init_loop_same_settings (k : nat) (p : ObjectPool) :
  ∃ res p', repeat_M k Init_round p = (res, p') ∧ same_settings p' p.
Proof.
  revert p. induction k as [|k IH]; intros p.
  - exists (Ok tt), p. by split.
  - cbn [repeat_M]. unfold bind at 1. rewrite Init_round_eq.
    destruct (IH (exec Init_round p)) as (res & p' & Heq & Hsame).
    unfold exec in Heq, Hsame. rewrite Init_round_eq in Heq, Hsame. cbn [snd] in Heq, Hsame.
    exists res, p'. split; [done|]. by destruct p.
Qed.

Lemma Init_unfold (p : ObjectPool) :
  is_started_ p = false →
  is_destroyed_ p = false →
  (0 < initial_pool_size_ p)%Q →
  Init p =
    match repeat_M (Z.to_nat (Qfloor (initial_pool_size_ p))) Init_round
            (set_is_started true p) with
    | (Ok _, p') => (Ok tt, set_dispose_event S p')
    | (Err e, p') => (Err e, p')
    end.
Proof.
  intros Hs Hd Hsz. destruct p. cbn in Hs, Hd, Hsz. subst.
  unfold Init, Init_round, for_range, bind, gets, modify, assert, ret, throw.
  cbn [is_started_ is_destroyed_ initial_pool_size_ negb].
  destruct (Number.gt initial_pool_size_0 0) eqn:E.
  2: { apply Number_gt_false in E. by apply Qle_not_lt in E. }
  rewrite for_range_rounds.
  unfold set_is_started at 1.
  cbn [initial_pool_size_ object_pool_type_ store dispose_event_ used_instances_list_
       instances_list_ creation_id_ instances_map_ is_destroyed_ is_started_ trace].
  by destruct (repeat_M _ _ _) as [[[]|e] p'].
Qed.

Lemma Init_loop_ok (k : nat) (p : ObjectPool) :
  ∃ p', repeat_M k Init_round p = (Ok tt, p') ∧ same_settings p' p.
Proof.
  revert p. induction k as [|k IH]; intros p.
  - exists p. by split.
  - cbn [repeat_M]. unfold bind at 1. rewrite Init_round_eq.
    match goal with |- context [repeat_M k Init_round ?q] =>
      destruct (IH q) as (p' & Heq & Hsame) end.
    exists p'. split; [done|]. by destruct p.
Qed.

Lemma Init_ok (p : ObjectPool) :
  is_started_ p = false → is_destroyed_ p = false → (0 < initial_pool_size_ p)%Q →
  ∃ p', Init p = (Ok tt, p') ∧ is_started_ p' = true ∧ is_destroyed_ p' = false.
Proof.
  intros Hs Hd Hsz. rewrite (Init_unfold p Hs Hd Hsz).
  destruct (Init_loop_ok (Z.to_nat (Qfloor (initial_pool_size_ p))) (set_is_started true p))
    as (p' & -> & (_ & _ & _ & Hd' & Hs')).
  exists (set_dispose_event S p').
  split_and!; [done | pool_cbn; by rewrite <- Hs' | pool_cbn; by rewrite <- Hd'].
Qed.

Lemma Init_new_pool (N : nat) (object_pool_type : EObjectPoolType) :
  0 < N →
  ∃ p', Init (new_pool (Z.of_nat N) object_pool_type) = (Ok tt, p')
        ∧ fresh_shape object_pool_type N 0 p'
        ∧ dispose_event_ p' = 1
        ∧ trace p' = (λ i, EvCreate (Value i)) <$> store p'.
Proof.
  intros HN.
  set (p0 := set_is_started true (new_pool (Z.of_nat N) object_pool_type)).
  destruct (Init_loop_eq N 0 p0) as (p1 & Hrun & [Hc Hm Hf Hu Hl Hs Ht] & Hsame).
  { split; try done. intros r Hr. lia. }
  destruct Hsame as (Hsz & Hty & Hev & Hd & Hst).
  exists (set_dispose_event S p1). split_and!.
  - rewrite Init_unfold; [|done|done|by apply size_of_nat_pos].
    cbn [new_pool initial_pool_size_]. rewrite floor_of_nat. fold p0. by rewrite Hrun.
  - cbn [Nat.add] in *. split; pool_cbn; rewrite ?Nat.add_0_r; try done.
    intros r Hr. destruct (Hs r Hr) as (i & ? & ? & ? & ?). exists i.
    split_and!; try done. by rewrite bool_decide_false by lia.
  - pool_cbn. by rewrite Hev.
  - done.
Qed.

Lemma Use_unstarted (start_data : TObjectStartData) (p p' : ObjectPool) :
  is_started_ p = false →
  Init p = (Ok tt, p') →
  Use start_data p = bind (gets is_destroyed_) (λ is_destroyed,
    bind (assert (negb is_destroyed) "Object pool is destroyed") (λ _,
    bind AllocateInstance (λ allocated,
      match allocated with
      | None => ret tt
      | Some instance =>
          bind (deref instance) (λ i,
            call_Start (Value i) start_data instance (UseId i))
      end))) p'.
Proof.
  intros Hs HI. unfold Use. unfold bind at 1, gets at 1. rewrite Hs. cbn [negb when].
  unfold bind at 1. by rewrite HI.
Qed.

Lemma Use_started (start_data : TObjectStartData) (p : ObjectPool) :
  is_started_ p = true →
  Use start_data p = bind (gets is_destroyed_) (λ is_destroyed,
    bind (assert (negb is_destroyed) "Object pool is destroyed") (λ _,
    bind AllocateInstance (λ allocated,
      match allocated with
      | None => ret tt
      | Some instance =>
          bind (deref instance) (λ i,
            call_Start (Value i) start_data instance (UseId i))
      end))) p.
Proof.
  intros Hs. unfold Use. unfold bind at 1, gets at 1. rewrite Hs. cbn [negb when].
  by unfold bind at 1, ret at 1.
Qed.

(** The first [Use] of a pool initializes it and then proceeds as on the
    initialized pool. *)
Lemma Use_new_pool (start_data : TObjectStartData) (N : nat) (object_pool_type : EObjectPoolType)
    (p' : ObjectPool) :
  Init (new_pool (Z.of_nat N) object_pool_type) = (Ok tt, p') →
  is_started_ p' = true →
  Use start_data (new_pool (Z.of_nat N) object_pool_type) = Use start_data p'.
Proof.
  intros HI Hs.
  rewrite (Use_unstarted start_data (new_pool (Z.of_nat N) object_pool_type) p' eq_refl HI).
  by rewrite (Use_started _ p' Hs).
Qed.

(** [Use] on a fresh pool that still has a free instance. *)
Lemma Use_fresh (start_data : TObjectStartData) (object_pool_type : EObjectPoolType)
    (free used : nat) (p : ObjectPool) :
  fresh_shape object_pool_type (S free) used p →
  ∃ i, store p !! free = Some i ∧ CreationId i = free ∧ UseId i = 0 ∧
    Use start_data p =
      (Ok tt,
       set_trace (λ t, t ++ [EvStart (Value i) start_data free 0])
         (set_store (alter (set_IsActive true) free)
            (set_used_instances_list (λ u, u ++ [free])
               (set_instances_list (λ _, seq 0 free) p)))) ∧
    fresh_shape object_pool_type free (S used) (exec (Use start_data) p).
Proof.
  intros [Hsz Hty Hal Hc Hm Hf Hu Hl Hs].
  destruct (Hs free) as (i & Hi & Hci & Hui & Hai); [lia|].
  exists i. split_and!; try done.
  - rewrite (Use_pop start_data p (seq 0 free) free i); [by rewrite Hui | done | | done].
    by rewrite Hf, seq_S.
  - unfold exec. rewrite (Use_pop start_data p (seq 0 free) free i); [| done | | done].
    2: by rewrite Hf, seq_S.
    cbn [snd].
    split; pool_cbn; rewrite <- ?Nat.add_succ_comm; try done.
    + by rewrite Hu, <- reverse_cons.
    + by rewrite length_alter.
    + intros r Hr. destruct (decide (r = free)) as [->|Hne].
      * exists (set_IsActive true i). rewrite list_lookup_alter_eq, Hi.
        split_and!; try done. by rewrite bool_decide_true by lia.
      * destruct (Hs r Hr) as (j & Hj & ? & ? & Haj). exists j.
        rewrite list_lookup_alter_ne by done. split_and!; try done.
        rewrite Haj. apply bool_decide_ext. lia.
Qed.

(** ** Well-formed pools and how a pool evolves *)

Lemma store_le_refl (s : list IObjectPoolInstance) : store_le s s.
Proof. intros r i Hi. exists i. by split_and!. Qed.

Lemma store_le_trans (s1 s2 s3 : list IObjectPoolInstance) :
  store_le s1 s2 → store_le s2 s3 → store_le s1 s3.
Proof.
  intros H12 H23 r i Hi.
  destruct (H12 r i Hi) as (i2 & Hi2 & Hu2 & Hc2 & Hv2).
  destruct (H23 r i2 Hi2) as (i3 & Hi3 & Hu3 & Hc3 & Hv3).
  exists i3. split_and!; [done | lia | congruence | congruence].
Qed.

Lemma store_le_length (s s' : list IObjectPoolInstance) (r : nat) :
  store_le s s' → r < length s → r < length s'.
Proof.
  intros Hle Hr. destruct (lookup_lt_is_Some_2 s r Hr) as [i Hi].
  destruct (Hle r i Hi) as (i' & Hi' & _). by eapply lookup_lt_Some.
Qed.

Lemma store_le_app (s : list IObjectPoolInstance) (i : IObjectPoolInstance) :
  store_le s (s ++ [i]).
Proof.
  intros r j Hj. exists j. split_and!; try done.
  by apply lookup_app_l_Some.
Qed.

Lemma store_le_insert (s : list IObjectPoolInstance) (r : nat) (i i' : IObjectPoolInstance) :
  s !! r = Some i →
  UseId i ≤ UseId i' → CreationId i' = CreationId i → Value i' = Value i →
  store_le s (<[r := i']> s).
Proof.
  intros Hi Hu Hc Hv r' j Hj. destruct (decide (r = r')) as [<-|Hne].
  - exists i'. rewrite list_lookup_insert_eq by by eapply lookup_lt_Some.
    assert (j = i) as -> by congruence. by split_and!.
  - exists j. rewrite list_lookup_insert_ne by done. by split_and!.
Qed.

Lemma store_le_alter (s : list IObjectPoolInstance) (r : nat)
    (f : IObjectPoolInstance → IObjectPoolInstance) :
  (∀ i, UseId i ≤ UseId (f i) ∧ CreationId (f i) = CreationId i ∧ Value (f i) = Value i) →
  store_le s (alter f r s).
Proof.
  intros Hf r' j Hj. destruct (decide (r = r')) as [<-|Hne].
  - exists (f j). rewrite list_lookup_alter_eq, Hj. destruct (Hf j) as (? & ? & ?).
    by split_and!.
  - exists j. rewrite list_lookup_alter_ne by done. by split_and!.
Qed.

Lemma pool_ext_refl (p : ObjectPool) : pool_ext p p.
Proof. split; [done | apply store_le_refl | done]. Qed.

Lemma pool_ext_trans (p1 p2 p3 : ObjectPool) :
  pool_ext p1 p2 → pool_ext p2 p3 → pool_ext p1 p3.
Proof.
  intros [Hc12 Hs12 Hm12] [Hc23 Hs23 Hm23]. split.
  - lia.
  - by eapply store_le_trans.
  - intros cid r Hcid Hm. apply Hm12; [done|]. apply Hm23; [lia | done].
Qed.

Lemma valid_ext (r : nat) (p p' : ObjectPool) : pool_ext p p' → valid r p → valid r p'.
Proof. intros [_ Hs _]. by apply store_le_length. Qed.

(** Changes that leave a pool well formed. *)
Lemma wf_change (p p' : ObjectPool) :
  pool_wf p →
  creation_id_ p ≤ creation_id_ p' →
  store_le (store p) (store p') →
  (∀ r, r ∈ used_instances_list_ p' → r ∈ used_instances_list_ p ∨ valid r p) →
  (∀ r, r ∈ instances_list_ p' → r ∈ instances_list_ p ∨ valid r p) →
  (∀ cid r, instances_map_ p' !! cid = Some r → instances_map_ p !! cid = Some r) →
  (∀ v d r u, EvStart v d r u ∈ trace p' → EvStart v d r u ∈ trace p ∨ valid r p) →
  pool_wf p' ∧ pool_ext p p'.
Proof.
  intros [Hu Hf Hm Hc] Hid Hs Hu' Hf' Hm' Hc'. split; split.
  - intros r Hr. eapply store_le_length; [done|]. destruct (Hu' r Hr); auto.
  - intros r Hr. eapply store_le_length; [done|]. destruct (Hf' r Hr); auto.
  - intros cid r Hr. destruct (Hm cid r (Hm' cid r Hr)) as (Hlt & i & Hi & Hci).
    split; [lia|]. destruct (Hs r i Hi) as (i' & Hi' & _ & Hci' & _).
    exists i'. split; [done | congruence].
  - intros v d r u Hr. eapply store_le_length; [done|]. destruct (Hc' v d r u Hr); eauto.
  - done.
  - done.
  - intros cid r _. apply Hm'.
Qed.

(** ** A small program logic for the methods *)
Section Logic.

(** The errors a method is allowed to end with. *)
Variable E : error → Prop.

#[local] Abbreviation hoare := (hoare_triple E).

Lemma hoare_ret {A : Type} (P : ObjectPool → Prop) (a : A) :
  hoare P (ret a) (λ a' p, a' = a ∧ P p).
Proof.
  intros p Hwf HP. unfold exec, outcome, ret. cbn.
  split_and!; [done | apply pool_ext_refl | done |]. by intros a' [= <-].
Qed.

Lemma hoare_bind {A B : Type} (P : ObjectPool → Prop) (Q : A → ObjectPool → Prop)
    (R : B → ObjectPool → Prop) (m : M A) (f : A → M B) :
  hoare P m Q → (∀ a, hoare (Q a) (f a) R) → hoare P (bind m f) R.
Proof.
  intros Hm Hf p Hwf HP. destruct (Hm p Hwf HP) as (Hwf1 & Hext1 & Hne1 & HQ).
  unfold exec, outcome, bind in *. destruct (m p) as [[a|e] p1]; cbn [fst snd] in *.
  - destruct (Hf a p1 Hwf1 (HQ a eq_refl)) as (Hwf2 & Hext2 & Hne2 & HR).
    split_and!; [done | by eapply pool_ext_trans | done | done].
  - split_and!; [done | done | done | by intros b [=]].
Qed.

Lemma hoare_conseq {A : Type} (P P' : ObjectPool → Prop) (Q Q' : A → ObjectPool → Prop)
    (m : M A) :
  hoare P m Q → (∀ p, pool_wf p → P' p → P p) → (∀ a p, pool_wf p → Q a p → Q' a p) →
  hoare P' m Q'.
Proof.
  intros Hm HP HQ p Hwf HP'. destruct (Hm p Hwf (HP p Hwf HP')) as (? & ? & ? & HQ0).
  split_and!; [done..|]. intros a Ha. by apply HQ, HQ0.
Qed.

Lemma hoare_frame {A : Type} (F P : ObjectPool → Prop) (Q : A → ObjectPool → Prop) (m : M A) :
  stable F → hoare P m Q → hoare (λ p, P p ∧ F p) m (λ a p, Q a p ∧ F p).
Proof.
  intros HF Hm p Hwf [HP HFp]. destruct (Hm p Hwf HP) as (? & Hext & ? & HQ0).
  split_and!; [done..|]. intros a Ha. split; [by apply HQ0 | by eapply HF].
Qed.

Lemma hoare_gets {A : Type} (P : ObjectPool → Prop) (f : ObjectPool → A) :
  hoare P (gets f) (λ a p, a = f p ∧ P p).
Proof.
  intros p Hwf HP. unfold exec, outcome, gets. cbn.
  split_and!; [done | apply pool_ext_refl | done |]. by intros a' [= <-].
Qed.

Lemma hoare_assert (P : ObjectPool → Prop) (b : bool) (msg : string) :
  E (AssertFailed msg) →
  hoare P (assert b msg) (λ _ p, b = true ∧ P p).
Proof.
  intros HE p Hwf HP. unfold exec, outcome, assert, ret, throw. destruct b; cbn.
  - split_and!; [done | apply pool_ext_refl | done | done].
  - split_and!; [done | apply pool_ext_refl | done | by intros a [=]].
Qed.

Lemma hoare_deref (P : ObjectPool → Prop) (r : nat) :
  hoare (λ p, P p ∧ valid r p) (deref r) (λ i p, store p !! r = Some i ∧ P p).
Proof.
  intros p Hwf [HP Hr]. unfold exec, outcome, deref.
  destruct (lookup_lt_is_Some_2 _ _ Hr) as [i Hi]. rewrite Hi. cbn.
  split_and!; [done | apply pool_ext_refl | done |]. by intros a' [= <-].
Qed.

(** A state change [f] that keeps the pool well formed, under [P]. *)
Lemma hoare_modify (P : ObjectPool → Prop) (Q : ObjectPool → Prop) (f : ObjectPool → ObjectPool) :
  (∀ p, pool_wf p → P p → (pool_wf (f p) ∧ pool_ext p (f p)) ∧ Q (f p)) →
  hoare P (modify f) (λ _, Q).
Proof.
  intros Hf p Hwf HP. destruct (Hf p Hwf HP) as [[? ?] ?].
  unfold exec, outcome, modify. cbn. by split_and!.
Qed.

Lemma hoare_repeat (P : ObjectPool → Prop) (m : M unit) (n : nat) :
  hoare P m (λ _, P) → hoare P (repeat_M n m) (λ _, P).
Proof.
  intros Hm. induction n as [|n IH]; cbn [repeat_M].
  - eapply hoare_conseq; [apply (hoare_ret P tt) | done | by intros ? ? ? [_ ?]].
  - eapply hoare_bind; [exact Hm | intros []; exact IH].
Qed.

Lemma hoare_strengthen {A : Type} (P : ObjectPool → Prop) (Q Q' : A → ObjectPool → Prop)
    (m : M A) :
  hoare P m Q →
  (∀ p a, pool_wf p → P p → outcome m p = Ok a → Q' a (exec m p)) →
  hoare P m (λ a p, Q a p ∧ Q' a p).
Proof.
  intros Hm HQ' p Hwf HP. destruct (Hm p Hwf HP) as (? & ? & ? & HQ).
  split_and!; [done..|]. intros a Ha. split; [by apply HQ | by apply HQ'].
Qed.

Lemma hoare_post {A : Type} (P : ObjectPool → Prop) (Q Q' : A → ObjectPool → Prop)
    (m : M A) :
  hoare P m Q →
  (∀ p a, pool_wf p → P p → outcome m p = Ok a → Q' a (exec m p)) →
  hoare P m Q'.
Proof.
  intros Hm HQ'. eapply hoare_conseq; [apply (hoare_strengthen P Q Q' m Hm HQ') | done |].
  by intros a p _ [_ ?].
Qed.

Lemma hoare_skip (P : ObjectPool → Prop) : hoare P (ret tt) (λ _, P).
Proof.
  eapply hoare_conseq; [apply (hoare_ret P tt) | done | by intros ? ? ? [_ ?]].
Qed.

Lemma stable_valid (r : nat) : stable (valid r).
Proof. intros p p'. apply valid_ext. Qed.

Lemma stable_True : stable (λ _, True).
Proof. done. Qed.

(** *** The private methods keep the pool well formed *)

Lemma CreateInstance_eq (p : ObjectPool) :
  CreateInstance p =
    (Ok (length (store p)),
     mkPool (initial_pool_size_ p) (object_pool_type_ p)
       (store p ++ [mkInstance (Create (trace p)) false (creation_id_ p) 0])
       (dispose_event_ p) (used_instances_list_ p) (instances_list_ p)
       (S (creation_id_ p))
       (<[creation_id_ p := length (store p)]> (instances_map_ p))
       (is_destroyed_ p) (is_started_ p)
       (trace p ++ [EvCreate (Create (trace p))])).
Proof. by destruct p. Qed.

Lemma hoare_CreateInstance (F : ObjectPool → Prop) :
  stable F → hoare F CreateInstance (λ r p, valid r p ∧ F p).
Proof.
  intros HF p Hwf HFp. unfold exec, outcome. rewrite CreateInstance_eq. cbn [fst snd].
  destruct Hwf as [Hu Hf Hm Hc].
  assert (Hext : pool_ext p
    (mkPool (initial_pool_size_ p) (object_pool_type_ p)
       (store p ++ [mkInstance (Create (trace p)) false (creation_id_ p) 0])
       (dispose_event_ p) (used_instances_list_ p) (instances_list_ p)
       (S (creation_id_ p))
       (<[creation_id_ p := length (store p)]> (instances_map_ p))
       (is_destroyed_ p) (is_started_ p)
       (trace p ++ [EvCreate (Create (trace p))]))).
  { split; cbn.
    - lia.
    - apply store_le_app.
    - intros cid r Hcid. rewrite lookup_insert_ne by lia. done. }
  split_and!.
  - split; cbn.
    + intros r Hr. rewrite length_app. specialize (Hu r Hr). lia.
    + intros r Hr. rewrite length_app. specialize (Hf r Hr). lia.
    + intros cid r. destruct (decide (creation_id_ p = cid)) as [<-|Hne].
      * rewrite lookup_insert_eq. intros [= <-]. split; [lia|].
        eexists. split; [by apply list_lookup_middle | done].
      * rewrite lookup_insert_ne by done. intros Hr.
        destruct (Hm cid r Hr) as (Hlt & i & Hi & Hci). split; [lia|].
        exists i. split; [by apply lookup_app_l_Some | done].
    + intros v d r u Hr. rewrite length_app.
      apply elem_of_app in Hr as [Hr | Hr].
      * specialize (Hc v d r u Hr). lia.
      * by apply list_elem_of_singleton in Hr.
  - done.
  - done.
  - intros a [= <-]. split; [|by eapply HF].
    unfold valid. cbn. rewrite length_app. cbn. lia.
Qed.

Lemma hoare_atomic {A : Type} (P : ObjectPool → Prop) (m : M A) (Q : A → ObjectPool → Prop) :
  (∀ p, pool_wf p → P p →
     ∃ a p', m p = (Ok a, p') ∧ (pool_wf p' ∧ pool_ext p p') ∧ Q a p') →
  hoare P m Q.
Proof.
  intros Hm p Hwf HP. destruct (Hm p Hwf HP) as (a & p' & Heq & [? ?] & ?).
  unfold exec, outcome. rewrite Heq. cbn. split_and!; [done..|]. by intros a' [= <-].
Qed.

Ltac solve_trace_change :=
  let Hin := fresh "Hin" in
  intros ? ? ? ? Hin;
  rewrite ?elem_of_app, ?elem_of_cons, ?elem_of_nil in Hin;
  repeat match type of Hin with _ ∨ _ => destruct Hin as [Hin|Hin] end;
  try done; auto.

Lemma hoare_DisposeOfInstance (r : nat) :
  hoare (valid r) (DisposeOfInstance r) (λ _ _, True).
Proof.
  apply hoare_atomic. intros p Hwf Hr. destruct (lookup_lt_is_Some_2 _ _ Hr) as [i Hi].
  eexists _, _. split; [by apply DisposeOfInstance_eq|]. split; [|done].
  apply wf_change; try done; pool_cbn; try tauto.
  - apply (store_le_insert _ _ i); cbn; [done | lia | done | done].
  - solve_trace_change.
Qed.

Lemma hoare_DestroyInstance (r : nat) :
  hoare (valid r) (DestroyInstance r) (λ _ _, True).
Proof.
  apply hoare_atomic. intros p Hwf Hr. destruct (lookup_lt_is_Some_2 _ _ Hr) as [i Hi].
  eexists _, _. split; [by apply DestroyInstance_eq|]. split; [|done].
  apply wf_change; try done; pool_cbn; try tauto.
  - apply store_le_refl.
  - intros r' Hin. left. by eapply Array_remove_sublist.
  - intros cid r'. rewrite lookup_delete_Some. tauto.
  - solve_trace_change.
Qed.

Lemma hoare_FreeInstance (r : nat) :
  hoare (valid r) (FreeInstance r) (λ _ _, True).
Proof.
  apply hoare_atomic. intros p Hwf Hr. destruct (lookup_lt_is_Some_2 _ _ Hr) as [i Hi].
  eexists _, _. split; [by apply FreeInstance_eq|]. split; [|done].
  unfold released. destruct (shrinks p).
  - apply wf_change; try done; pool_cbn; try tauto.
    + apply (store_le_insert _ _ i); cbn; [done | lia | done | done].
    + intros r' Hin. left. by eapply Array_remove_sublist.
    + intros r' Hin. left. by eapply Array_remove_sublist.
    + intros cid r'. rewrite lookup_delete_Some. tauto.
    + solve_trace_change.
  - apply wf_change; try done; pool_cbn; try tauto.
    + apply (store_le_insert _ _ i); cbn; [done | lia | done | done].
    + intros r' Hin. left. by eapply Array_remove_sublist.
    + intros r' Hin. apply elem_of_app in Hin as [?|Hin]; [tauto|].
      apply list_elem_of_singleton in Hin as ->. by right.
    + solve_trace_change.
Qed.

(** A change of the lists, the flags or the log only. *)
Lemma hoare_modify_lists (P Q : ObjectPool → Prop) (f : ObjectPool → ObjectPool) :
  (∀ p, pool_wf p → P p →
     creation_id_ (f p) = creation_id_ p ∧ store (f p) = store p ∧
     instances_map_ (f p) = instances_map_ p ∧
     (∀ r, r ∈ used_instances_list_ (f p) → r ∈ used_instances_list_ p ∨ valid r p) ∧
     (∀ r, r ∈ instances_list_ (f p) → r ∈ instances_list_ p ∨ valid r p) ∧
     (∀ v d r u, EvStart v d r u ∈ trace (f p) → EvStart v d r u ∈ trace p ∨ valid r p) ∧
     Q (f p)) →
  hoare P (modify f) (λ _, Q).
Proof.
  intros Hf. apply hoare_modify. intros p Hwf HP.
  destruct (Hf p Hwf HP) as (Hc & Hs & Hm & Hu & Hfr & Ht & HQ). split; [|done].
  apply wf_change; try done.
  - lia.
  - rewrite Hs. apply store_le_refl.
  - intros cid r. by rewrite Hm.
Qed.

Lemma hoare_update (F : ObjectPool → Prop) (r : nat)
    (f : IObjectPoolInstance → IObjectPoolInstance) :
  stable F →
  (∀ i, UseId i ≤ UseId (f i) ∧ CreationId (f i) = CreationId i ∧ Value (f i) = Value i) →
  hoare F (update r f) (λ _, F).
Proof.
  intros HF Hf. apply hoare_modify. intros p Hwf HFp.
  assert (pool_wf (set_store (alter f r) p) ∧ pool_ext p (set_store (alter f r) p)) as [? ?].
  { apply wf_change; try done; pool_cbn; try tauto. by apply store_le_alter. }
  split_and!; [done..|]. by eapply HF.
Qed.

Lemma hoare_log (F : ObjectPool → Prop) (e : Event) :
  stable F →
  (∀ v d r u, e = EvStart v d r u → ∀ p, pool_wf p → F p → valid r p) →
  hoare F (log e) (λ _, F).
Proof.
  intros HF He. apply hoare_modify. intros p Hwf HFp.
  assert (pool_wf (set_trace (λ t, t ++ [e]) p)
          ∧ pool_ext p (set_trace (λ t, t ++ [e]) p)) as [? ?].
  { apply wf_change; try done; pool_cbn; try tauto.
    - apply store_le_refl.
    - intros v d r u Hin. apply elem_of_app in Hin as [?|Hin]; [tauto|].
      apply list_elem_of_singleton in Hin. right. by eapply He. }
  split_and!; [done..|]. by eapply HF.
Qed.

Lemma hoare_return {A : Type} (P : ObjectPool → Prop) (Q : A → ObjectPool → Prop) (a : A) :
  (∀ p, pool_wf p → P p → Q a p) → hoare P (ret a) Q.
Proof.
  intros HQ. eapply hoare_conseq; [apply (hoare_ret P a) | done |].
  intros a' p Hwf [-> HP]. by apply HQ.
Qed.

Lemma hoare_weaken {A : Type} (P : ObjectPool → Prop) (Q : A → ObjectPool → Prop) (m : M A) :
  hoare P m Q → hoare P m (λ _ _, True).
Proof. intros Hm. by eapply hoare_conseq. Qed.

Lemma hoare_pre {A : Type} (P P' : ObjectPool → Prop) (Q : A → ObjectPool → Prop) (m : M A) :
  hoare P m Q → (∀ p, pool_wf p → P' p → P p) → hoare P' m Q.
Proof. intros Hm HP. by eapply hoare_conseq. Qed.

Lemma hoare_AllocateInstance :
  hoare (λ _, True) AllocateInstance (λ allocated p, ∀ r, allocated = Some r → valid r p).
Proof.
  unfold AllocateInstance.
  eapply hoare_bind; [apply hoare_gets|]. intros free. cbn beta.
  destruct (Array.pop free) as [[instance|] free'] eqn:Hpop.
  - apply Array_pop_Some in Hpop.
    eapply hoare_bind.
    { apply (hoare_modify_lists _ (valid instance)). intros p Hwf [-> _].
      assert (valid instance p).
      { apply (wf_free p Hwf). rewrite Hpop, elem_of_app, list_elem_of_singleton. auto. }
      split_and!; try done; pool_cbn; try tauto.
      intros r Hr. left. rewrite Hpop, elem_of_app. auto. }
    intros []. eapply hoare_bind.
    { apply (hoare_modify_lists _ (valid instance)). intros p Hwf Hv.
      split_and!; try done; pool_cbn; try tauto.
      intros r Hr. apply elem_of_app in Hr as [?|Hr]; [tauto|].
      apply list_elem_of_singleton in Hr as ->. by right. }
    intros []. eapply hoare_bind.
    { apply (hoare_update (valid instance)); [apply stable_valid | done]. }
    intros []. eapply hoare_conseq; [apply hoare_ret | done |].
    by intros a p _ [-> Hv] r [= <-].
  - eapply hoare_bind; [apply hoare_gets|]. intros object_pool_type. cbn beta.
    case_bool_decide.
    { eapply hoare_conseq; [apply hoare_ret | done |]. by intros a p _ [-> _] r. }
    case_bool_decide.
    + eapply hoare_bind; [apply hoare_gets|]. intros used. cbn beta.
      destruct used as [|used_instance used']; cbn [Array.shift].
      * eapply hoare_bind.
        { eapply hoare_pre;
            [apply (hoare_log (λ _, True)); [apply stable_True | done] | done]. }
        intros []. eapply hoare_conseq; [apply hoare_ret | done |].
        by intros a p _ [-> _] r.
      * eapply hoare_bind.
        { apply (hoare_modify_lists _ (valid used_instance)).
          intros p Hwf [Hu _].
          assert (Hall : ∀ r, r ∈ used_instance :: used' → valid r p).
          { intros r Hr. apply (wf_used p Hwf). by rewrite <- Hu. }
          split_and!; try done; pool_cbn; try tauto.
          - intros r Hr. right. apply Hall. by right.
          - apply Hall. by left. }
        intros []. eapply hoare_bind.
        { apply (hoare_modify_lists _ (valid used_instance)). intros p Hwf Hv.
          split_and!; try done; pool_cbn; try tauto.
          intros r Hr. apply elem_of_app in Hr as [?|Hr]; [tauto|].
          apply list_elem_of_singleton in Hr as ->. by right. }
        intros []. eapply hoare_bind.
        { eapply hoare_pre.
          - apply (hoare_frame (valid used_instance) _ _ _ (stable_valid _)
                     (hoare_DisposeOfInstance used_instance)).
          - by intros p _ Hv. }
        intros []. eapply hoare_bind.
        { eapply hoare_pre.
          - apply (hoare_update (valid used_instance)); [apply stable_valid | done].
          - by intros p _ [_ Hv]. }
        intros []. eapply hoare_conseq; [apply hoare_ret | done |].
        by intros a p _ [-> Hv] r [= <-].
    + eapply hoare_bind.
      { eapply hoare_pre;
          [apply (hoare_CreateInstance (λ _, True)), stable_True | done]. }
      intros new_instance. eapply hoare_bind.
      { apply (hoare_modify_lists _ (valid new_instance)). intros p Hwf [Hv _].
        split_and!; try done; pool_cbn; try tauto.
        intros r Hr. apply elem_of_app in Hr as [?|Hr]; [tauto|].
        apply list_elem_of_singleton in Hr as ->. by right. }
      intros []. eapply hoare_conseq; [apply hoare_ret | done |].
      by intros a p _ [-> Hv] r [= <-].
Qed.

(** A change that touches neither the lists, the store, the registry nor
    the log. *)
Lemma hoare_modify_flags (P : ObjectPool → Prop) (f : ObjectPool → ObjectPool) :
  (∀ p, creation_id_ (f p) = creation_id_ p ∧ store (f p) = store p ∧
        instances_map_ (f p) = instances_map_ p ∧
        used_instances_list_ (f p) = used_instances_list_ p ∧
        instances_list_ (f p) = instances_list_ p ∧ trace (f p) = trace p) →
  hoare P (modify f) (λ _ _, True).
Proof.
  intros Hf. apply (hoare_modify_lists _ (λ _, True)). intros p _ _.
  destruct (Hf p) as (-> & -> & -> & -> & -> & ->). split_and!; auto.
Qed.

Hypothesis asserts_allowed : ∀ msg, E (AssertFailed msg).

Lemma hoare_Init : hoare (λ _, True) Init (λ _ _, True).
Proof.
  unfold Init.
  eapply hoare_bind; [apply hoare_gets|]. intros is_started. cbn beta.
  destruct is_started; [eapply hoare_weaken, hoare_skip|].
  eapply hoare_bind; [apply hoare_gets|]. intros is_destroyed. cbn beta.
  eapply hoare_bind; [apply hoare_assert, asserts_allowed|]. intros [].
  eapply hoare_bind; [apply hoare_gets|]. intros initial_pool_size. cbn beta.
  eapply hoare_bind; [apply hoare_assert, asserts_allowed|]. intros [].
  eapply hoare_bind; [by apply hoare_modify_flags|]. intros [].
  eapply hoare_bind.
  - unfold for_range. apply (hoare_repeat (λ _, True)).
    eapply hoare_bind; [apply (hoare_CreateInstance (λ _, True)), stable_True|].
    intros object_pool_instance.
    apply (hoare_modify_lists _ (λ _, True)). intros p Hwf [Hv _].
    split_and!; try done; pool_cbn; try tauto.
    intros r Hr. apply elem_of_app in Hr as [?|Hr]; [tauto|].
    apply list_elem_of_singleton in Hr as ->. by right.
  - intros []. by apply hoare_modify_flags.
Qed.

Lemma hoare_Use (start_data : TObjectStartData) :
  hoare (λ _, True) (Use start_data) (λ _ _, True).
Proof.
  unfold Use.
  eapply hoare_bind; [apply hoare_gets|]. intros is_started. cbn beta.
  eapply hoare_bind.
  { unfold when. destruct (negb is_started).
    - eapply hoare_pre; [apply hoare_Init | done].
    - eapply hoare_weaken, hoare_skip. }
  intros []. eapply hoare_bind; [apply hoare_gets|]. intros is_destroyed. cbn beta.
  eapply hoare_bind; [apply hoare_assert, asserts_allowed|]. intros [].
  eapply hoare_bind; [eapply hoare_pre; [apply hoare_AllocateInstance | done]|].
  intros [instance|]; [|eapply hoare_weaken, hoare_skip].
  eapply hoare_bind.
  { eapply hoare_pre; [apply (hoare_deref (valid instance))|].
    intros p _ Hv. split; by apply Hv. }
  intros i. cbn zeta. eapply hoare_weaken, hoare_pre.
  - apply (hoare_log (valid instance)); [apply stable_valid|].
    by intros v d r u [= _ _ <- _] p _ Hv.
  - by intros p _ [_ Hv].
Qed.

Lemma hoare_dispose_listener (creation_id use_id : nat) :
  hoare (λ _, True) (dispose_listener creation_id use_id) (λ _ _, True).
Proof.
  unfold dispose_listener.
  eapply hoare_bind; [apply hoare_gets|]. intros m. cbn beta.
  destruct (m !! creation_id) as [instance|] eqn:Hm; [|eapply hoare_weaken, hoare_skip].
  eapply hoare_bind.
  { eapply hoare_pre; [apply (hoare_deref (valid instance))|].
    intros p Hwf [-> _]. destruct (wf_map p Hwf _ _ Hm) as (_ & i & Hi & _).
    split; by eapply lookup_lt_Some. }
  intros i. case_bool_decide; [eapply hoare_weaken, hoare_skip|].
  eapply hoare_pre; [apply hoare_FreeInstance | by intros p _ [_ Hv]].
Qed.

Lemma hoare_dispose_event_Fire (creation_id use_id : nat) :
  hoare (λ _, True) (dispose_event_Fire creation_id use_id) (λ _ _, True).
Proof.
  unfold dispose_event_Fire.
  eapply hoare_bind; [apply hoare_gets|]. intros listeners. cbn beta.
  eapply hoare_pre; [apply (hoare_repeat (λ _, True)), hoare_dispose_listener | done].
Qed.

Lemma hoare_dispose_capability (instance use_id : nat) :
  hoare (valid instance) (dispose_capability instance use_id) (λ _ _, True).
Proof.
  unfold dispose_capability.
  eapply hoare_bind.
  { eapply hoare_pre; [apply (hoare_deref (λ _, True))|]. by intros p _ Hv. }
  intros i. case_bool_decide.
  - eapply hoare_weaken, hoare_pre;
      [apply (hoare_log (λ _, True)); [apply stable_True | done] | done].
  - eapply hoare_pre; [apply hoare_dispose_event_Fire | done].
Qed.

(** The loop over an array that its body does not make longer: [fuel]
    rounds are enough when [fuel] is the length left at the start. *)
Lemma hoare_for_of (array : ObjectPool → list nat) (body : nat → M unit) :
  (∀ x n, hoare (λ p, x ∈ array p ∧ length (array p) ≤ n) (body x)
            (λ _ p, length (array p) ≤ n)) →
  ∀ fuel index n, n ≤ index + fuel →
    hoare (λ p, length (array p) ≤ n) (for_of array body fuel index)
      (λ _ p, length (array p) ≤ n).
Proof.
  intros Hbody fuel. induction fuel as [|fuel IH]; intros index n Hn p Hwf HP.
  - unfold exec, outcome. cbn [for_of].
    destruct (array p !! index) as [x|] eqn:Hx.
    + apply lookup_lt_Some in Hx. lia.
    + cbn. split_and!; [done | apply pool_ext_refl | done | by intros ? _].
  - unfold exec, outcome. cbn [for_of].
    destruct (array p !! index) as [x|] eqn:Hx.
    + assert (Hin : x ∈ array p) by (apply list_elem_of_lookup; eauto).
      assert (Hb : hoare (λ p, x ∈ array p ∧ length (array p) ≤ n)
                (bind (body x) (λ _, for_of array body fuel (S index)))
                (λ _ p, length (array p) ≤ n)).
      { eapply hoare_bind; [apply Hbody|]. intros []. apply IH. lia. }
      apply (Hb p Hwf). by split.
    + cbn. split_and!; [done | apply pool_ext_refl | done | by intros ? _].
Qed.

Lemma hoare_DestroyPool : hoare (λ _, True) DestroyPool (λ _ p, is_destroyed_ p = true).
Proof.
  unfold DestroyPool.
  eapply hoare_bind; [apply hoare_gets|]. intros is_destroyed. cbn beta.
  destruct is_destroyed.
  { apply hoare_return. by intros p _ [? _]. }
  eapply hoare_bind; [apply hoare_gets|]. intros rounds. cbn beta.
  eapply hoare_bind.
  { eapply hoare_pre.
    - apply (hoare_for_of used_instances_list_ _) with (n := rounds) (index := 0); [|lia].
      intros x n. eapply hoare_post.
      + eapply hoare_bind.
        * eapply hoare_pre.
          -- apply (hoare_frame (valid x) _ _ _ (stable_valid x) (hoare_DisposeOfInstance x)).
          -- intros p Hwf [Hx _]. split; by apply (wf_used p Hwf).
        * intros []. eapply hoare_pre; [apply hoare_DestroyInstance | by intros p _ [_ Hv]].
      + intros p [] Hwf [Hx Hlen]. unfold exec, outcome, bind.
        destruct (lookup_lt_is_Some_2 _ _ (wf_used p Hwf x Hx)) as [i Hi].
        rewrite (DisposeOfInstance_eq _ _ _ Hi).
        erewrite DestroyInstance_eq; [by intros _|].
        pool_cbn. rewrite list_lookup_insert_eq; [done | by eapply lookup_lt_Some].
    - intros p _ [-> _]. done. }
  intros []. eapply hoare_bind; [apply hoare_gets|]. intros rounds'. cbn beta.
  eapply hoare_bind.
  { eapply hoare_pre.
    - apply (hoare_for_of instances_list_ _) with (n := rounds') (index := 0); [|lia].
      intros x n. eapply hoare_post.
      + eapply hoare_pre; [apply hoare_DestroyInstance|].
        intros p Hwf [Hx _]. by apply (wf_free p Hwf).
      + intros p [] Hwf [Hx Hlen]. unfold exec, outcome.
        destruct (lookup_lt_is_Some_2 _ _ (wf_free p Hwf x Hx)) as [i Hi].
        rewrite (DestroyInstance_eq _ _ _ Hi). intros _. pool_cbn.
        etrans; [apply Array_remove_length | done].
    - intros p _ [-> _]. done. }
  intros []. eapply hoare_bind; [by apply hoare_modify_flags|]. intros [].
  eapply hoare_bind.
  { apply (hoare_modify_lists _ (λ _, True)). intros p Hwf _.
    split_and!; try done; pool_cbn; try tauto. intros r Hr. by apply elem_of_nil in Hr. }
  intros []. eapply hoare_bind.
  { apply (hoare_modify_lists _ (λ _, True)). intros p Hwf _.
    split_and!; try done; pool_cbn; try tauto. intros r Hr. by apply elem_of_nil in Hr. }
  intros []. apply (hoare_modify_lists _ (λ p, is_destroyed_ p = true)). intros p Hwf _.
  split_and!; try done; pool_cbn; tauto.
Qed.

End Logic.

(** *** Runs keep the pool well formed *)

Lemma handed_out_elem_of (instance use_id : nat) (p : ObjectPool) :
  handed_out instance use_id p = true →
  ∃ v d, EvStart v d instance use_id ∈ trace p.
Proof.
  unfold handed_out. rewrite existsb_exists. intros (e & Hin & He).
  destruct e as [|v d r u| | |]; try done. cbn in He.
  apply andb_prop in He as [Hr Hu].
  apply bool_decide_eq_true in Hr as ->. apply bool_decide_eq_true in Hu as ->.
  exists v, d. by apply list_elem_of_In.
Qed.

Lemma step_sound (o : Op) :
  hoare_triple assert_failure (λ _, True) (step o) (λ _ _, True).
Proof.
  assert (HE : ∀ msg, assert_failure (AssertFailed msg)) by (intros msg; by exists msg).
  destruct o as [|start_data| |instance use_id|creation_id use_id]; cbn [step].
  - by apply hoare_Init.
  - by apply hoare_Use.
  - eapply hoare_weaken, hoare_DestroyPool.
  - intros p Hwf _. unfold exec, outcome.
    destruct (handed_out instance use_id p) eqn:Hh.
    + apply handed_out_elem_of in Hh as (v & d & Hin).
      apply (hoare_dispose_capability assert_failure instance use_id p Hwf).
      by apply (wf_closures p Hwf v d instance use_id).
    + cbn. split_and!; [done | apply pool_ext_refl | done | done].
  - apply hoare_dispose_event_Fire.
Qed.

Lemma new_pool_wf (initial_pool_size : Q) (object_pool_type : EObjectPoolType) :
  pool_wf (new_pool initial_pool_size object_pool_type).
Proof.
  split; cbn.
  - intros r Hr. by apply elem_of_nil in Hr.
  - intros r Hr. by apply elem_of_nil in Hr.
  - intros cid r. by rewrite lookup_empty.
  - intros v d r u Hr. by apply elem_of_nil in Hr.
Qed.

Lemma run_app (ops ops' : list Op) (p : ObjectPool) :
  run (ops ++ ops') p = run ops' (run ops p).
Proof. revert p. induction ops as [|o ops IH]; intros p; cbn; [done | apply IH]. Qed.

Lemma run_sound (ops : list Op) (p : ObjectPool) :
  pool_wf p → pool_wf (run ops p) ∧ pool_ext p (run ops p).
Proof.
  revert p. induction ops as [|o ops IH]; intros p Hwf; cbn [run].
  - split; [done | apply pool_ext_refl].
  - destruct (step_sound o p Hwf I) as (Hwf1 & Hext1 & _).
    destruct (IH _ Hwf1) as [Hwf2 Hext2]. split; [done | by eapply pool_ext_trans].
Qed.

Lemma reachable_wf (p : ObjectPool) : reachable p → pool_wf p.
Proof. intros (sz & ty & ops & ->). apply run_sound, new_pool_wf. Qed.

(** On a pool built by its own methods the two errors of the model never
    come up: every call returns or fails one of its assertions. *)
Lemma reachable_no_model_error (p : ObjectPool) (o : Op) :
  reachable p →
  outcome (step o) p = Ok tt ∨ ∃ msg, outcome (step o) p = Err (AssertFailed msg).
Proof.
  intros Hp. destruct (step_sound o p (reachable_wf p Hp) I) as (_ & _ & Hal & _).
  destruct (outcome (step o) p) as [[]|e]; [by left|].
  destruct Hal as [msg ->]. right. by exists msg.
Qed.

(** [DestroyPool] always returns, with the pool marked destroyed. *)
Lemma DestroyPool_returns (p : ObjectPool) :
  pool_wf p →
  outcome DestroyPool p = Ok tt ∧ is_destroyed_ (exec DestroyPool p) = true.
Proof.
  intros Hwf. destruct (hoare_DestroyPool no_error p Hwf I) as (_ & _ & Hal & Hd).
  destruct (outcome DestroyPool p) as [[]|e] eqn:Ho; [|done].
  split; [done | by apply (Hd tt)].
Qed.

(** ** Overlapping uses of a new pool *)

Lemma uses_fresh (object_pool_type : EObjectPoolType) (ds : list TObjectStartData) :
  ∀ free used p,
    fresh_shape object_pool_type (free + length ds) used p →
    fresh_shape object_pool_type free (used + length ds) (run (OpUse <$> ds) p).
Proof.
  induction ds as [|d ds IH]; intros free used p Hp; cbn [length fmap list_fmap run] in *.
  - by rewrite !Nat.add_0_r in *.
  - rewrite Nat.add_succ_r in Hp.
    destruct (Use_fresh d _ _ _ _ Hp) as (i & _ & _ & _ & _ & Hshape).
    rewrite Nat.add_succ_r. apply (IH free (S used)). exact Hshape.
Qed.

Lemma first_use_fresh (object_pool_type : EObjectPoolType) (N : nat) (d : TObjectStartData) :
  ∃ p1, Init (new_pool (Z.of_nat (S N)) object_pool_type) = (Ok tt, p1)
        ∧ fresh_shape object_pool_type (S N) 0 p1
        ∧ Use d (new_pool (Z.of_nat (S N)) object_pool_type) = Use d p1
        ∧ fresh_shape object_pool_type N 1
            (exec (Use d) (new_pool (Z.of_nat (S N)) object_pool_type)).
Proof.
  destruct (Init_new_pool (S N) object_pool_type) as (p1 & HI & Hshape & _); [lia|].
  exists p1.
  assert (HU : Use d (new_pool (Z.of_nat (S N)) object_pool_type) = Use d p1).
  { apply Use_new_pool; [done|]. by destruct (fresh_alive _ _ _ _ Hshape). }
  split_and!; try done.
  unfold exec. rewrite HU.
  by destruct (Use_fresh d _ _ _ _ Hshape) as (i & _ & _ & _ & _ & ?).
Qed.

Lemma uses_new_pool (object_pool_type : EObjectPoolType) (free : nat) (d : TObjectStartData)
    (ds : list TObjectStartData) :
  fresh_shape object_pool_type free (S (length ds))
    (run (OpUse <$> d :: ds)
       (new_pool (Z.of_nat (free + S (length ds))) object_pool_type)).
Proof.
  cbn [fmap list_fmap run step]. rewrite Nat.add_succ_r.
  destruct (first_use_fresh object_pool_type (free + length ds) d) as (p1 & _ & _ & _ & H1).
  by apply (uses_fresh object_pool_type ds free 1).
Qed.

Lemma fresh_registry_size (object_pool_type : EObjectPoolType) (free used : nat) (p : ObjectPool) :
  fresh_shape object_pool_type free used p → size (instances_map_ p) = free + used.
Proof. intros Hp. rewrite (fresh_map _ _ _ _ Hp). apply size_id_map. Qed.

(** C8. For every strategy and every positive initial size [N]: the registry
    of a new pool is empty; [Init] returns and leaves exactly [N] registered
    instances, each built by one call of [Create] (the log of hook calls is
    one [Create] per stored instance, in order), all of them on the free
    list and none on the used list; the first [Use] of a new pool proceeds
    as [Use] on the initialized pool and leaves [N] registered instances. *)
Theorem live_instances_after_Init (N : nat) (object_pool_type : EObjectPoolType)
    (start_data : TObjectStartData) :
  0 < N →
  let p0 := new_pool (Z.of_nat N) object_pool_type in
  let p1 := exec Init p0 in
  size (instances_map_ p0) = 0
  ∧ outcome Init p0 = Ok tt
  ∧ size (instances_map_ p1) = N
  ∧ instances_list_ p1 = seq 0 N
  ∧ used_instances_list_ p1 = []
  ∧ length (store p1) = N
  ∧ trace p1 = (λ i, EvCreate (Value i)) <$> store p1
  ∧ (∀ cid r, instances_map_ p1 !! cid = Some r →
       r ∈ instances_list_ p1 ∧ ∃ i, store p1 !! r = Some i ∧ CreationId i = cid)
  ∧ Use start_data p0 = Use start_data p1
  ∧ size (instances_map_ (exec (Use start_data) p0)) = N.
Proof.
  intros HN p0 p1.
  destruct (Init_new_pool N object_pool_type HN) as (p' & HI & Hshape & Hev & Htr).
  assert (p1 = p') as -> by (unfold p1, exec, p0; by rewrite HI).
  pose proof Hshape as [Hsz Hty Hal Hc Hm Hf Hu Hl Hs]. rewrite Nat.add_0_r in *.
  split_and!; try done.
  - unfold outcome, p0. by rewrite HI.
  - rewrite Hm. apply size_id_map.
  - intros cid r. rewrite Hm, lookup_id_map. case_decide; [|done]. intros [= <-].
    split; [rewrite Hf, elem_of_seq; lia|].
    destruct (Hs cid) as (i & ? & ? & _); [done|]. by exists i.
  - apply Use_new_pool; [done | by destruct Hal].
  - clear HI. subst p0. destruct N as [|N]; [lia|].
    destruct (first_use_fresh object_pool_type N start_data) as (_ & _ & _ & _ & H1).
    rewrite (fresh_registry_size _ _ _ _ H1). lia.
Qed.

(** After [k] overlapping uses of a new pool of size [free + k], with [k]
    positive. *)
Lemma overlapping_uses (object_pool_type : EObjectPoolType) (N free : nat)
    (ds : list TObjectStartData) :
  ds ≠ [] →
  N = free + length ds →
  fresh_shape object_pool_type free (length ds)
    (run (OpUse <$> ds) (new_pool (Z.of_nat N) object_pool_type)).
Proof.
  intros Hds ->. destruct ds as [|d ds]; [done|]. apply uses_new_pool.
Qed.

(** C6. Under FailSilent with initial size [N], after [N] overlapping uses
    the free list is empty and the registry holds [N] instances; one more
    [Use] returns normally and leaves the pool exactly as it was: no hook is
    called (the log is the same), nothing is constructed (store, registry
    and creation counter are the same). *)
Theorem failsilent_exhausted_use (N : nat) (ds : list TObjectStartData)
    (start_data : TObjectStartData) :
  0 < N →
  length ds = N →
  let pN := run (OpUse <$> ds) (new_pool (Z.of_nat N) FailSilent) in
  instances_list_ pN = []
  ∧ size (instances_map_ pN) = N
  ∧ creation_id_ pN = N
  ∧ Use start_data pN = (Ok tt, pN).
Proof.
  intros HN Hlen pN.
  assert (Hshape : fresh_shape FailSilent 0 N pN).
  { rewrite <- Hlen at 1. apply overlapping_uses; [|lia]. intros ->. cbn in Hlen. lia. }
  pose proof Hshape as [Hsz Hty Hal Hc Hm Hf Hu Hl Hs].
  split_and!; [done | by rewrite (fresh_registry_size _ _ _ _ Hshape) | done |].
  by apply Use_FailSilent_exhausted.
Qed.

(** C5. Under Fixed with initial size [N], at every point of [N + 1]
    overlapping uses the registry holds at most [N] instances.  After the
    first [N] of them the free list is empty and the front of the used list
    is the instance the first [Use] took; the last [Use] returns, calls
    [Dispose] and then [Start] on that instance, hands it out at generation 1
    (one more than its generation 0 before) at the back of the used list, and
    constructs nothing. *)
Theorem fixed_overlapping_uses (N : nat) (ds : list TObjectStartData)
    (start_data : TObjectStartData) :
  0 < N →
  length ds = N →
  let p0 := new_pool (Z.of_nat N) Fixed in
  let pN := run (OpUse <$> ds) p0 in
  (∀ ds1 ds2, ds ++ [start_data] = ds1 ++ ds2 →
     size (instances_map_ (run (OpUse <$> ds1) p0)) ≤ N)
  ∧ instances_list_ pN = []
  ∧ ∃ first rest i,
      used_instances_list_ (run (OpUse <$> take 1 ds) p0) = [first]
      ∧ used_instances_list_ pN = first :: rest
      ∧ store pN !! first = Some i
      ∧ UseId i = 0
      ∧ Use start_data pN =
          (Ok tt,
           set_trace (λ t, t ++ [EvDispose (Value i); EvStart (Value i) start_data first 1])
             (set_store (λ s, <[first := recycled i]> s)
                (set_used_instances_list (λ _, rest ++ [first]) pN))).
Proof.
  intros HN Hlen p0 pN. subst p0.
  assert (Hshape : fresh_shape Fixed 0 N pN).
  { rewrite <- Hlen at 1. apply overlapping_uses; [|lia]. intros ->. cbn in Hlen. lia. }
  pose proof Hshape as [Hsz Hty Hal Hc Hm Hf Hu Hl Hs].
  destruct N as [|n]; [lia|]. cbn [Nat.add] in *.
  destruct (Hs n) as (i & Hi & Hci & Hui & Hai); [lia|].
  assert (Hused : used_instances_list_ pN = n :: reverse (seq 0 n)).
  { by rewrite Hu, seq_S, reverse_snoc. }
  assert (HUse : Use start_data pN =
          (Ok tt,
           set_trace (λ t, t ++ [EvDispose (Value i); EvStart (Value i) start_data n 1])
             (set_store (λ s, <[n := recycled i]> s)
                (set_used_instances_list (λ _, reverse (seq 0 n) ++ [n]) pN)))).
  { rewrite (Use_Fixed_recycle start_data pN n (reverse (seq 0 n)) i); try done.
    by rewrite Hui. }
  split_and!.
  - intros ds1 ds2 Hsplit.
    destruct ds1 as [|d1 ds1]; [cbn; rewrite map_size_empty; lia|].
    destruct ds2 as [|d2 ds2].
    + rewrite app_nil_r in Hsplit. rewrite <- Hsplit, fmap_app, run_app.
      fold pN. cbn [fmap list_fmap run step]. unfold exec. rewrite HUse.
      cbn [snd]. pool_cbn. by rewrite Hm, size_id_map.
    + assert (Hl1 : length (d1 :: ds1) + length (d2 :: ds2) = S (S n)).
      { rewrite <- length_app, <- Hsplit, length_app, Hlen. cbn. lia. }
      cbn [length] in Hl1.
      pose proof (overlapping_uses Fixed (S n) (S n - length (d1 :: ds1)) (d1 :: ds1)) as H1.
      rewrite (fresh_registry_size _ _ _ _ (H1 ltac:(done) ltac:(cbn [length]; lia))).
      cbn [length]. lia.
  - done.
  - exists n, (reverse (seq 0 n)), i. split_and!; try done.
    destruct ds as [|d1 ds']; [done|]. change (take 1 (d1 :: ds')) with [d1].
    pose proof (overlapping_uses Fixed (S n) n [d1] ltac:(done) ltac:(cbn; lia)) as H1.
    by rewrite (fresh_used _ _ _ _ H1).
Qed.

(** C10. Allocation from a non-empty free list takes its last element, which
    is where every push puts an instance: on a started pool whose free list
    is [l ++ [r]], [Use] returns, hands out [r] and leaves [l]; an instance
    that [FreeInstance] returns to the free list is put behind all others and
    is the one the next [Use] hands out; and the first [Use] of a new pool of
    size [N] hands out the last instance constructed, with creation id
    [N - 1]. *)
Theorem free_list_is_LIFO (p : ObjectPool) (start_data : TObjectStartData)
    (l : list nat) (r : nat) (i : IObjectPoolInstance)
    (N : nat) (object_pool_type : EObjectPoolType) :
  started_and_alive p →
  instances_list_ p = l ++ [r] →
  store p !! r = Some i →
  0 < N →
  (let p' := exec (Use start_data) p in
   outcome (Use start_data) p = Ok tt
   ∧ instances_list_ p' = l
   ∧ used_instances_list_ p' = used_instances_list_ p ++ [r]
   ∧ trace p' = trace p ++ [EvStart (Value i) start_data r (UseId i)])
  ∧ (∀ freed j, store p !! freed = Some j → shrinks p = false →
       let pf := exec (FreeInstance freed) p in
       let pu := exec (Use start_data) pf in
       instances_list_ pf = instances_list_ p ++ [freed]
       ∧ instances_list_ pu = instances_list_ p
       ∧ used_instances_list_ pu = used_instances_list_ pf ++ [freed]
       ∧ trace pu = trace pf ++ [EvStart (Value j) start_data freed (UseId j + 1)])
  ∧ (let q := exec (Use start_data) (new_pool (Z.of_nat N) object_pool_type) in
     used_instances_list_ q = [N - 1]
     ∧ instances_list_ q = seq 0 (N - 1)
     ∧ ∃ j, store q !! (N - 1) = Some j ∧ CreationId j = N - 1
            ∧ last (trace q) = Some (EvStart (Value j) start_data (N - 1) 0)).
Proof.
  intros Hal Hl Hi HN. split_and!.
  - unfold exec, outcome. rewrite (Use_pop start_data p l r i Hal Hl Hi). by cbn.
  - intros freed j Hj Hsh pf pu.
    assert (Hpf : pf = set_instances_list (λ l, l ++ [freed]) (released freed j p)).
    { unfold pf, exec. rewrite (FreeInstance_eq p freed j Hj), Hsh. done. }
    unfold released in Hpf.
    assert (Hjf : store pf !! freed = Some (disposed j)).
    { rewrite Hpf. pool_cbn. rewrite list_lookup_insert_eq; [done | by eapply lookup_lt_Some]. }
    assert (Half : started_and_alive pf) by (by rewrite Hpf).
    assert (Hlf : instances_list_ pf = instances_list_ p ++ [freed]) by (by rewrite Hpf).
    unfold pu, exec.
    rewrite (Use_pop start_data pf (instances_list_ p) freed (disposed j) Half Hlf Hjf).
    by cbn.
  - destruct N as [|n]; [lia|]. cbn zeta. replace (S n - 1) with n by lia.
    destruct (first_use_fresh object_pool_type n start_data) as (p1 & _ & H1 & HU & _).
    destruct (Use_fresh start_data _ _ _ _ H1) as (j & Hj & Hcj & Huj & HU1 & _).
    unfold exec. rewrite HU, HU1. cbn [snd]. pool_cbn.
    rewrite (fresh_used _ _ _ _ H1). split_and!; [done..|].
    exists (set_IsActive true j). rewrite list_lookup_alter_eq, Hj. cbn.
    split_and!; [done..|]. by rewrite last_snoc.
Qed.

Lemma Init_destroyed (p : ObjectPool) :
  is_started_ p = false →
  is_destroyed_ p = true →
  Init p = (Err (AssertFailed "Object pool is destroyed"), p).
Proof. intros Hs Hd. destruct p. cbn in Hs, Hd. by subst. Qed.

Lemma Init_bad_size (p : ObjectPool) :
  is_started_ p = false →
  is_destroyed_ p = false →
  (initial_pool_size_ p <= 0)%Q →
  Init p = (Err (AssertFailed "Initial pool size should be greater than 0"), p).
Proof.
  intros Hs Hd Hsz. destruct p. cbn in Hs, Hd, Hsz. subst. pool_run.
  destruct (Number.gt initial_pool_size_0 0) eqn:E; [|done].
  apply Number_gt_true in E. by apply Qlt_not_le in E.
Qed.

Lemma Init_started (p : ObjectPool) : is_started_ p = true → Init p = (Ok tt, p).
Proof. intros Hs. destruct p. cbn in Hs. by subst. Qed.

Lemma Use_destroyed (start_data : TObjectStartData) (p : ObjectPool) :
  is_destroyed_ p = true →
  Use start_data p = (Err (AssertFailed "Object pool is destroyed"), p).
Proof. intros Hd. destruct p. cbn in Hd. subst. by destruct is_started_0. Qed.

Lemma Use_Init_fails (start_data : TObjectStartData) (p : ObjectPool) (e : error) :
  is_started_ p = false →
  Init p = (Err e, p) →
  Use start_data p = (Err e, p).
Proof.
  intros Hs HI. unfold Use. unfold bind at 1, gets at 1. rewrite Hs. cbn [negb when].
  unfold bind at 1. by rewrite HI.
Qed.


(** C9. On a pool built by its own methods [DestroyPool] returns and marks
    the pool destroyed, and a second [DestroyPool] returns and leaves the
    pool, the log of hook calls included, exactly as the first one left it. *)
Theorem DestroyPool_idempotent (p : ObjectPool) :
  reachable p →
  let p1 := exec DestroyPool p in
  outcome DestroyPool p = Ok tt
  ∧ is_destroyed_ p1 = true
  ∧ DestroyPool p1 = (Ok tt, p1).
Proof.
  intros Hp p1. destruct (DestroyPool_returns p (reachable_wf p Hp)) as [Ho Hd].
  split_and!; [done..|]. fold p1 in Hd. destruct p1. cbn in Hd. by subst.
Qed.

#[local] Instance current_signal_dec (p : ObjectPool) (creation_id use_id : nat) :
  Decision (current_signal p creation_id use_id).
Proof.
  unfold current_signal.
  destruct (instances_map_ p !! creation_id) as [instance|] eqn:Hm.
  - destruct (store p !! instance) as [i|] eqn:Hi.
    + destruct (decide (UseId i = use_id)) as [Hu|Hu].
      * left. by exists instance, i.
      * right. intros (r' & i' & [= <-] & Hi' & Hu'). congruence.
    + right. intros (r' & i' & [= <-] & Hi' & Hu'). congruence.
  - right. by intros (r' & i' & ? & _).
Defined.

(** A signal for a generation that the instance has left is not current, in
    any later state of the pool. *)
Lemma past_generation_not_current (p : ObjectPool) (ops1 ops2 : list Op)
    (creation_id instance : nat) (i i1 : IObjectPoolInstance) :
  reachable p →
  instances_map_ p !! creation_id = Some instance →
  store p !! instance = Some i →
  store (run ops1 p) !! instance = Some i1 →
  UseId i < UseId i1 →
  ¬ current_signal (run ops2 (run ops1 p)) creation_id (UseId i).
Proof.
  intros Hp Hm Hi Hi1 Hlt (r' & i' & Hm' & Hi' & Hu').
  pose proof (reachable_wf p Hp) as Hwf.
  destruct (run_sound ops1 p Hwf) as [Hwf1 Hext1].
  destruct (run_sound ops2 _ Hwf1) as [Hwf2 Hext2].
  destruct (wf_map p Hwf _ _ Hm) as [Hcid _].
  pose proof (pool_ext_trans _ _ _ Hext1 Hext2) as Hext.
  assert (r' = instance) as ->.
  { pose proof (ext_map _ _ Hext _ _ Hcid Hm'). congruence. }
  destruct (ext_store _ _ Hext2 _ _ Hi1) as (i2 & Hi2 & Hu2 & _).
  assert (i2 = i') as -> by congruence. lia.
Qed.

(** The closure of a use that has ended only warns. *)
Lemma dispose_capability_stale (p : ObjectPool) (instance use_id : nat)
    (i : IObjectPoolInstance) :
  store p !! instance = Some i →
  UseId i ≠ use_id →
  dispose_capability instance use_id p =
    (Ok tt,
     set_trace (λ t, t ++ [EvWarn "Attemt of disposal when the instance was already disposed"]) p).
Proof.
  intros Hi Hu. unfold dispose_capability, bind, deref. rewrite Hi.
  by rewrite bool_decide_true by done.
Qed.

(** C1. On every pool built by its own methods, a disposal signal that is
    not current (its creation id is not in the registry, or the instance
    found there is not at the generation the signal names) changes nothing:
    no hook is called and the lists, the registry and the instances stay as
    they are; so whenever the log of hook calls grows the signal was current.
    In particular, once an instance has moved past generation [use_id]
    (it was disposed of), a signal for [use_id] is ignored in every later
    state of the pool, whatever happened in between (such as the instance
    being handed out again).  The closure that [Use] gave out for a
    generation the instance has left sends no signal at all: it warns and
    returns. *)
Theorem stale_disposal_signal_ignored (p : ObjectPool) (creation_id use_id : nat) :
  reachable p →
  let p' := exec (dispose_event_Fire creation_id use_id) p in
  (¬ current_signal p creation_id use_id → p' = p)
  ∧ (trace p' ≠ trace p → current_signal p creation_id use_id)
  ∧ (∀ instance i i1 ops1 ops2,
       instances_map_ p !! creation_id = Some instance →
       store p !! instance = Some i →
       UseId i = use_id →
       store (run ops1 p) !! instance = Some i1 →
       UseId i < UseId i1 →
       let p2 := run ops2 (run ops1 p) in
       exec (dispose_event_Fire creation_id use_id) p2 = p2)
  ∧ (∀ instance i,
       store p !! instance = Some i →
       UseId i ≠ use_id →
       dispose_capability instance use_id p =
         (Ok tt,
          set_trace
            (λ t, t ++ [EvWarn "Attemt of disposal when the instance was already disposed"])
            p)).
Proof.
  intros Hp p'. split_and!.
  - apply dispose_event_Fire_stale.
  - intros Htr. destruct (decide (current_signal p creation_id use_id)) as [|Hn]; [done|].
    destruct Htr. unfold p'. by rewrite (dispose_event_Fire_stale p _ _ Hn).
  - intros instance i i1 ops1 ops2 Hm Hi <- Hi1 Hlt p2.
    apply dispose_event_Fire_stale.
    by apply (past_generation_not_current p ops1 ops2 creation_id instance i i1).
  - intros instance i. apply dispose_capability_stale.
Qed.

Lemma shrinks_spec (p : ObjectPool) : shrinks p = true ↔ code_shrink_test p.
Proof.
  unfold shrinks, code_shrink_test.
  rewrite andb_true_iff, bool_decide_eq_true, Number_ge_true. done.
Qed.

(** C3 (amended). When the listener, the only one connected, receives a
    current signal for the instance [r], the instance leaves the used list
    and is disposed of ([Dispose] is called, its generation goes up by one).
    Then, if the strategy is Elastic and the free list already holds at least
    [initial_pool_size] instances before this one is added back, the instance
    is destroyed: its entry is deleted from the registry, [Destroy] is called
    and it is not pushed onto the free list.  In every other case (any other
    strategy, or a shorter free list) it is pushed onto the back of the free
    list, stays in the registry and [Destroy] is not called. *)
Theorem elastic_shrink_rule (p : ObjectPool) (creation_id use_id r : nat)
    (i : IObjectPoolInstance) :
  dispose_event_ p = 1 →
  instances_map_ p !! creation_id = Some r →
  store p !! r = Some i →
  UseId i = use_id →
  CreationId i = creation_id →
  let p' := exec (dispose_event_Fire creation_id use_id) p in
  used_instances_list_ p' =
    Array.remove (used_instances_list_ p) (Array.indexOf (used_instances_list_ p) r)
  ∧ store p' = <[r := disposed i]> (store p)
  ∧ (code_shrink_test p →
       instances_map_ p' = delete creation_id (instances_map_ p)
       ∧ trace p' = trace p ++ [EvDispose (Value i); EvDestroy (Value i)]
       ∧ instances_list_ p' =
           Array.remove (instances_list_ p) (Array.indexOf (instances_list_ p) r)
       ∧ (r ∉ instances_list_ p → instances_list_ p' = instances_list_ p))
  ∧ (¬ code_shrink_test p →
       instances_map_ p' = instances_map_ p
       ∧ trace p' = trace p ++ [EvDispose (Value i)]
       ∧ instances_list_ p' = instances_list_ p ++ [r]).
Proof.
  intros H1 Hm Hi Hu Hc p'.
  assert (Hp' : p' = exec (FreeInstance r) p).
  { unfold p'. rewrite (dispose_event_Fire_one p _ _ H1). unfold exec.
    by rewrite (dispose_listener_current p creation_id use_id r i Hm Hi Hu). }
  unfold exec in Hp'. rewrite (FreeInstance_eq p r i Hi) in Hp'. cbn [snd] in Hp'.
  unfold released in Hp'.
  destruct (shrinks p) eqn:Hsh.
  - apply shrinks_spec in Hsh. rewrite Hp'. pool_cbn. split_and!; try done.
    intros _. rewrite Hc, <- app_assoc. split_and!; try done.
    apply Array_remove_indexOf_absent.
  - assert (Hn : ¬ code_shrink_test p).
    { intros Hcs. apply shrinks_spec in Hcs. congruence. }
    rewrite Hp'. pool_cbn. split_and!; try done.
Qed.

(** C2 (amended). A pool of size 2 under Fixed, from new: the first [Use]
    hands out the instance with creation id 1 at generation 0 (the last of
    the two that [Init] constructed); the second hands out the instance with
    creation id 0; the third disposes of the instance with creation id 1
    ([Dispose] is called on its value, its generation becomes 1), hands it
    out again at generation 1 and moves it to the back of the used list,
    while the instance with creation id 0 stays as it was. *)
Theorem fixed_scenario_size_two (a b c : TObjectStartData) :
  let p1 := exec (Use a) (new_pool 2 Fixed) in
  let p2 := exec (Use b) p1 in
  let p3 := exec (Use c) p2 in
  ∃ v0 v1,
    store p1 = [mkInstance v0 false 0 0; mkInstance v1 true 1 0]
    ∧ used_instances_list_ p1 = [1] ∧ instances_list_ p1 = [0]
    ∧ trace p1 = [EvCreate v0; EvCreate v1; EvStart v1 a 1 0]
    ∧ store p2 = [mkInstance v0 true 0 0; mkInstance v1 true 1 0]
    ∧ used_instances_list_ p2 = [1; 0] ∧ instances_list_ p2 = []
    ∧ trace p2 = trace p1 ++ [EvStart v0 b 0 0]
    ∧ outcome (Use c) p2 = Ok tt
    ∧ store p3 = [mkInstance v0 true 0 0; mkInstance v1 true 1 1]
    ∧ used_instances_list_ p3 = [0; 1] ∧ instances_list_ p3 = []
    ∧ trace p3 = trace p2 ++ [EvDispose v1; EvStart v1 c 1 1]
    ∧ instances_map_ p3 = instances_map_ p1.
Proof.
  eexists _, _. by vm_compute.
Qed.

(** C4 (the code at the failing input). A pool of size 3 after one [Use]
    has one used instance and the free list [[0; 1]].  [DestroyPool] returns,
    disposes of and destroys the used instance, destroys the free instance 0
    and stops: instance 1 is never passed to [Destroy] and is still in the
    registry afterwards. *)
Theorem DestroyPool_skips_free_instance (start_data : TObjectStartData) :
  let p := exec (Use start_data) (new_pool 3 Fixed) in
  let p' := exec DestroyPool p in
  ∃ v0 v1 v2,
    store p = [mkInstance v0 false 0 0; mkInstance v1 false 1 0; mkInstance v2 true 2 0]
    ∧ used_instances_list_ p = [2]
    ∧ instances_list_ p = [0; 1]
    ∧ outcome DestroyPool p = Ok tt
    ∧ trace p' = trace p ++ [EvDispose v2; EvDestroy v2; EvDestroy v0]
    ∧ instances_map_ p' !! 1 = Some 1
    ∧ size (instances_map_ p') = 1
    ∧ is_destroyed_ p' = true.
Proof.
  eexists _, _, _. by vm_compute.
Qed.

(** ** Further properties of the methods *)

(** X1. Along any run of a pool built by its own methods, an instance object
    keeps its value and its creation id, its generation never goes down, and
    the creation counter never goes down. *)
Theorem instance_fields_over_runs (p : ObjectPool) (ops : list Op) (r : nat)
    (i : IObjectPoolInstance) :
  reachable p →
  store p !! r = Some i →
  creation_id_ p ≤ creation_id_ (run ops p)
  ∧ ∃ i', store (run ops p) !! r = Some i'
          ∧ Value i' = Value i ∧ CreationId i' = CreationId i ∧ UseId i ≤ UseId i'.
Proof.
  intros Hp Hi. destruct (run_sound ops p (reachable_wf p Hp)) as [_ [Hc Hs _]].
  split; [done|]. destruct (Hs r i Hi) as (i' & ? & ? & ? & ?). exists i'. by split_and!.
Qed.

(** [Use] under Unbounded or Elastic with nothing free. *)
Lemma Use_grow (start_data : TObjectStartData) (p : ObjectPool) :
  started_and_alive p →
  instances_list_ p = [] →
  object_pool_type_ p = Unbounded ∨ object_pool_type_ p = Elastic →
  Use start_data p =
    (Ok tt,
     mkPool (initial_pool_size_ p) (object_pool_type_ p)
       (store p ++ [mkInstance (Create (trace p)) false (creation_id_ p) 0])
       (dispose_event_ p)
       (used_instances_list_ p ++ [length (store p)])
       []
       (S (creation_id_ p))
       (<[creation_id_ p := length (store p)]> (instances_map_ p))
       (is_destroyed_ p) (is_started_ p)
       (trace p ++ [EvCreate (Create (trace p));
                    EvStart (Create (trace p)) start_data (length (store p)) 0])).
Proof.
  intros [Hs Hd] Hl Ht. pool_destruct p. pool_run.
  assert (Hlk : ∀ x : IObjectPoolInstance, (store0 ++ [x]) !! length store0 = Some x).
  { intros x. by apply list_lookup_middle. }
  destruct Ht as [-> | ->]; rewrite !bool_decide_false by done; pool_cbn;
    rewrite Hlk; pool_cbn; by rewrite <- app_assoc.
Qed.

(** X2. Under Unbounded or Elastic, [Use] on a started pool with an empty
    free list returns after constructing one instance: [Create] is called,
    then [Start] with generation 0; the new instance gets the next creation
    id, is registered under it and is appended to the used list; the free
    list stays empty.  Its [IsActive] flag is left [false] although the
    instance is in use. *)
Theorem use_grows_when_exhausted (start_data : TObjectStartData) (p : ObjectPool) :
  started_and_alive p →
  instances_list_ p = [] →
  object_pool_type_ p = Unbounded ∨ object_pool_type_ p = Elastic →
  let p' := exec (Use start_data) p in
  let new_instance := length (store p) in
  let value := Create (trace p) in
  outcome (Use start_data) p = Ok tt
  ∧ store p' = store p ++ [mkInstance value false (creation_id_ p) 0]
  ∧ creation_id_ p' = S (creation_id_ p)
  ∧ instances_map_ p' = <[creation_id_ p := new_instance]> (instances_map_ p)
  ∧ used_instances_list_ p' = used_instances_list_ p ++ [new_instance]
  ∧ instances_list_ p' = []
  ∧ trace p' = trace p ++ [EvCreate value; EvStart value start_data new_instance 0].
Proof.
  intros Ha Hl Ht. unfold exec, outcome. rewrite (Use_grow start_data p Ha Hl Ht). by cbn.
Qed.

Lemma fresh_grown (object_pool_type : EObjectPoolType) (N : nat) (p : ObjectPool) :
  fresh_shape object_pool_type 0 N p → grown_shape object_pool_type N 0 p.
Proof.
  intros [Hsz Hty Hal Hc Hm Hf Hu Hl Hs]. cbn [Nat.add] in *.
  split; rewrite ?Nat.add_0_r; try done. by rewrite Hu, app_nil_r.
Qed.

Lemma Use_grown (object_pool_type : EObjectPoolType) (N k : nat)
    (start_data : TObjectStartData) (p : ObjectPool) :
  object_pool_type = Unbounded ∨ object_pool_type = Elastic →
  grown_shape object_pool_type N k p →
  grown_shape object_pool_type N (S k) (exec (Use start_data) p).
Proof.
  intros Hty [Ht Hal Hc Hm Hf Hu Hl]. unfold exec.
  rewrite (Use_grow start_data p Hal Hf) by by rewrite Ht.
  cbn [snd]. split; pool_cbn; rewrite ?Nat.add_succ_r; try done.
  - by rewrite Hc.
  - by rewrite Hc, Hl, Hm.
  - by rewrite Hu, Hl, seq_S, app_assoc.
  - rewrite length_app, Hl. cbn. lia.
Qed.

Lemma uses_grown (object_pool_type : EObjectPoolType) (N : nat) (ds : list TObjectStartData) :
  object_pool_type = Unbounded ∨ object_pool_type = Elastic →
  ∀ k p, grown_shape object_pool_type N k p →
         grown_shape object_pool_type N (k + length ds) (run (OpUse <$> ds) p).
Proof.
  intros Hty. induction ds as [|d ds IH]; intros k p Hp; cbn [length fmap list_fmap run step].
  - by rewrite Nat.add_0_r.
  - rewrite Nat.add_succ_r. apply (IH (S k)). by apply Use_grown.
Qed.

(** X3. Under Unbounded or Elastic with initial size [N], any number
    [N + k] of overlapping uses of a new pool leaves exactly [N + k]
    registered instances, all of them on the used list (the [N] initial ones
    latest-created first, then the [k] new ones in creation order), and an
    empty free list. *)
Theorem growing_overlapping_uses (object_pool_type : EObjectPoolType) (N : nat)
    (ds : list TObjectStartData) :
  0 < N →
  object_pool_type = Unbounded ∨ object_pool_type = Elastic →
  N ≤ length ds →
  let p := run (OpUse <$> ds) (new_pool (Z.of_nat N) object_pool_type) in
  size (instances_map_ p) = length ds
  ∧ creation_id_ p = length ds
  ∧ used_instances_list_ p = reverse (seq 0 N) ++ seq N (length ds - N)
  ∧ instances_list_ p = [].
Proof.
  intros HN Hty Hlen p.
  assert (Hsplit : ds = take N ds ++ drop N ds) by by rewrite take_drop.
  assert (Hl1 : length (take N ds) = N) by (rewrite length_take; lia).
  assert (Hl2 : length (drop N ds) = length ds - N) by by rewrite length_drop.
  assert (H1 : fresh_shape object_pool_type 0 N
                 (run (OpUse <$> take N ds) (new_pool (Z.of_nat N) object_pool_type))).
  { rewrite <- Hl1 at 1. apply overlapping_uses; [|lia].
    intros Hnil. rewrite Hnil in Hl1. cbn in Hl1. lia. }
  pose proof (uses_grown object_pool_type N (drop N ds) Hty 0 _ (fresh_grown _ _ _ H1))
    as [Ht Hal Hc Hm Hf Hu Hl].
  rewrite <- run_app, <- fmap_app, <- Hsplit in Ht, Hal, Hc, Hm, Hf, Hu, Hl.
  fold p in Ht, Hal, Hc, Hm, Hf, Hu, Hl. cbn [Nat.add] in *. rewrite Hl2 in *.
  replace (N + (length ds - N)) with (length ds) in * by lia.
  split_and!; try done. by rewrite Hm, size_id_map.
Qed.

(** The valid use of a closure: the signal reaches the listener, which frees
    the instance. *)
Lemma dispose_capability_current (p : ObjectPool) (instance : nat) (i : IObjectPoolInstance) :
  store p !! instance = Some i →
  dispose_event_ p = 1 →
  instances_map_ p !! CreationId i = Some instance →
  exec (dispose_capability instance (UseId i)) p = exec (FreeInstance instance) p
  ∧ outcome (dispose_capability instance (UseId i)) p = Ok tt.
Proof.
  intros Hi H1 Hm.
  assert (HF : dispose_listener (CreationId i) (UseId i) p = FreeInstance instance p).
  { by apply (dispose_listener_current p _ _ instance i). }
  unfold exec, outcome, dispose_capability, bind, deref. rewrite Hi.
  rewrite bool_decide_false by (intros ?; done).
  unfold dispose_event_Fire, bind, gets. rewrite H1. cbn [repeat_M]. unfold bind, ret.
  rewrite HF, (FreeInstance_eq p instance i Hi). by cbn.
Qed.

Lemma FreeInstance_store (p : ObjectPool) (instance : nat) (i : IObjectPoolInstance) :
  store p !! instance = Some i →
  store (exec (FreeInstance instance) p) = <[instance := disposed i]> (store p).
Proof.
  intros Hi. unfold exec. rewrite (FreeInstance_eq p instance i Hi). cbn [snd].
  by destruct (shrinks p).
Qed.

(** X4. Double disposal is harmless.  When the closure of a use is applied
    while its generation is current (one listener connected, the instance
    registered), the instance is freed and its generation goes up by one;
    applying the same closure again then only logs a warning: no hook is
    called and nothing else in the pool changes. *)
Theorem dispose_capability_twice (p : ObjectPool) (instance : nat) (i : IObjectPoolInstance) :
  store p !! instance = Some i →
  dispose_event_ p = 1 →
  instances_map_ p !! CreationId i = Some instance →
  let p1 := exec (dispose_capability instance (UseId i)) p in
  outcome (dispose_capability instance (UseId i)) p = Ok tt
  ∧ store p1 !! instance = Some (disposed i)
  ∧ dispose_capability instance (UseId i) p1 =
      (Ok tt,
       set_trace
         (λ t, t ++ [EvWarn "Attemt of disposal when the instance was already disposed"])
         p1).
Proof.
  intros Hi H1 Hm p1.
  destruct (dispose_capability_current p instance i Hi H1 Hm) as [He Ho].
  assert (Hi1 : store p1 !! instance = Some (disposed i)).
  { unfold p1. rewrite He, (FreeInstance_store p instance i Hi).
    rewrite list_lookup_insert_eq; [done | by eapply lookup_lt_Some]. }
  split_and!; [done..|].
  apply (dispose_capability_stale p1 instance (UseId i) (disposed i) Hi1). cbn. lia.
Qed.

(** X5. Allocating and releasing is a round trip on the lists.  On a started
    pool whose free list ends in [r] (an instance that is registered and not
    on the used list), [Use] followed by the closure it passed to [Start]
    puts both lists back as they were, provided the shrink rule does not
    apply; the registry is unchanged, the instance is inactive again and one
    generation older, and the hooks called are [Start], then [Dispose]. *)
Theorem use_then_dispose_round_trip (start_data : TObjectStartData) (p : ObjectPool)
    (l : list nat) (r : nat) (i : IObjectPoolInstance) :
  started_and_alive p →
  dispose_event_ p = 1 →
  instances_list_ p = l ++ [r] →
  store p !! r = Some i →
  instances_map_ p !! CreationId i = Some r →
  r ∉ used_instances_list_ p →
  ¬ (object_pool_type_ p = Elastic ∧ (initial_pool_size_ p <= Z.of_nat (length l))%Q) →
  let p1 := exec (Use start_data) p in
  let p2 := exec (dispose_capability r (UseId i)) p1 in
  handed_out r (UseId i) p1 = true
  ∧ instances_list_ p2 = instances_list_ p
  ∧ used_instances_list_ p2 = used_instances_list_ p
  ∧ instances_map_ p2 = instances_map_ p
  ∧ store p2 = <[r := disposed i]> (store p)
  ∧ trace p2 = trace p ++ [EvStart (Value i) start_data r (UseId i); EvDispose (Value i)].
Proof.
  intros Ha H1 Hl Hi Hm Hr Hsh p1 p2.
  assert (Hp1 : p1 =
     set_trace (λ t, t ++ [EvStart (Value i) start_data r (UseId i)])
       (set_store (alter (set_IsActive true) r)
          (set_used_instances_list (λ u, u ++ [r])
             (set_instances_list (λ _, l) p)))).
  { unfold p1, exec. by rewrite (Use_pop start_data p l r i Ha Hl Hi). }
  assert (Hi1 : store p1 !! r = Some (set_IsActive true i)).
  { rewrite Hp1. pool_cbn. by rewrite list_lookup_alter_eq, Hi. }
  assert (Hsh1 : shrinks p1 = false).
  { rewrite Hp1. unfold shrinks, Array.size. pool_cbn.
    apply andb_false_iff. destruct (decide (object_pool_type_ p = Elastic)) as [He|Hne].
    - right. apply Number_ge_false.
      destruct (Qlt_le_dec (Z.of_nat (length l)) (initial_pool_size_ p));
        [done | by destruct Hsh].
    - left. by apply bool_decide_eq_false. }
  assert (Hp2 : p2 = exec (FreeInstance r) p1).
  { unfold p2. apply (dispose_capability_current p1 r (set_IsActive true i) Hi1).
    - by rewrite Hp1.
    - by rewrite Hp1. }
  unfold exec in Hp2. rewrite (FreeInstance_eq p1 r _ Hi1), Hsh1 in Hp2. cbn [snd] in Hp2.
  unfold released in Hp2. split_and!.
  - rewrite Hp1. unfold handed_out. pool_cbn. rewrite existsb_app. cbn.
    rewrite !bool_decide_true by done. by rewrite orb_true_r.
  - rewrite Hp2, Hp1. pool_cbn. by rewrite Hl.
  - rewrite Hp2, Hp1. pool_cbn.
    assert (Hix : Array.indexOf (used_instances_list_ p ++ [r]) r
                  = Z.of_nat (length (used_instances_list_ p))).
    { apply Array_indexOf_snoc. exact Hr. }
    rewrite Hix. unfold Array.remove.
    rewrite length_app. cbn [length].
    destruct (_ && _) eqn:E.
    + rewrite Nat2Z.id, delete_middle. apply app_nil_r.
    + apply andb_false_iff in E as [E|E]; [apply Z.leb_gt in E | apply Z.ltb_ge in E]; lia.
  - by rewrite Hp2, Hp1.
  - rewrite Hp2, Hp1. pool_cbn.
    rewrite (alter_lookup_insert (set_IsActive true) _ _ _ Hi).
    by rewrite list_insert_insert_eq.
  - rewrite Hp2, Hp1. pool_cbn. by rewrite <- app_assoc.
Qed.

(** ** What [DestroyPool] does *)

Lemma Array_remove_middle (pre rest : list nat) (x : nat) :
  x ∉ pre →
  Array.remove (pre ++ x :: rest) (Array.indexOf (pre ++ x :: rest) x) = pre ++ rest.
Proof.
  intros Hx. unfold Array.indexOf. rewrite (Array_find_app_absent pre (x :: rest) x Hx).
  cbn [Array.find]. rewrite decide_True by done. cbn [fmap option_fmap option_map].
  rewrite Nat.add_0_r. unfold Array.remove. rewrite length_app. cbn [length].
  destruct (_ && _) eqn:E.
  - by rewrite Nat2Z.id, delete_middle.
  - apply andb_false_iff in E as [E|E]; [apply Z.leb_gt in E | apply Z.ltb_ge in E]; lia.
Qed.

Lemma lookup_foldl_alter_length (rs : list nat) (s : list IObjectPoolInstance) :
  length (foldl (λ s r, alter disposed r s) s rs) = length s.
Proof.
  revert s. induction rs as [|r rs IH]; intros s; cbn [foldl]; [done|].
  by rewrite IH, length_alter.
Qed.

Lemma hook_values_alter (p : ObjectPool) (x : nat) (s' : list IObjectPoolInstance)
    (rs : list nat) :
  s' = alter disposed x (store p) →
  omap (λ r, Value <$> s' !! r) rs = hook_values p rs
  ∧ omap (λ r, CreationId <$> s' !! r) rs = creation_ids p rs.
Proof.
  intros ->. unfold hook_values, creation_ids. induction rs as [|r rs [IH1 IH2]]; [done|].
  cbn [omap list_omap]. rewrite IH1, IH2.
  destruct (decide (x = r)) as [->|Hne].
  - rewrite list_lookup_alter_eq. by destruct (store p !! r).
  - by rewrite list_lookup_alter_ne.
Qed.

(** The first loop of [DestroyPool]: the used list does not change under the
    cursor, so every used instance is visited. *)
Lemma used_loop (suf : list nat) :
  ∀ pre q fuel,
    used_instances_list_ q = pre ++ suf →
    (∀ r, r ∈ suf → r < length (store q)) →
    (∀ r, r ∈ suf → r ∉ instances_list_ q) →
    length suf ≤ fuel →
    for_of used_instances_list_
      (λ used_instance,
         bind (DisposeOfInstance used_instance) (λ _, DestroyInstance used_instance))
      fuel (length pre) q
    = (Ok tt, after_used_loop q suf).
Proof.
  induction suf as [|x suf IH]; intros pre q fuel Hu Hv Hf Hfuel.
  - destruct fuel; cbn [for_of]; rewrite Hu, app_nil_r, lookup_ge_None_2 by lia;
      unfold after_used_loop; cbn; rewrite app_nil_r; by destruct q.
  - destruct fuel as [|fuel]; [cbn in Hfuel; lia|]. cbn [for_of].
    rewrite Hu, list_lookup_middle by done.
    destruct (lookup_lt_is_Some_2 (store q) x) as [i Hi]; [apply Hv; by left|].
    unfold bind at 1. unfold bind at 1. rewrite (DisposeOfInstance_eq q x i Hi).
    set (q1 := set_trace _ _).
    assert (Hi1 : store q1 !! x = Some (disposed i)).
    { unfold q1. pool_cbn. rewrite list_lookup_insert_eq; [done | by eapply lookup_lt_Some]. }
    rewrite (DestroyInstance_eq q1 x _ Hi1).
    set (q2 := set_instances_list _ _).
    assert (Hq2 : q2 = after_used_loop q [x]).
    { unfold q2, q1, after_used_loop, hook_values, creation_ids.
      cbn [foldl omap list_omap flat_map app]. rewrite Hi. cbn [fmap option_fmap option_map].
      cbn [foldl flat_map app].
      rewrite (alter_lookup_insert disposed _ _ _ Hi).
      assert (Hx : x ∉ instances_list_ q) by (apply Hf; by left).
      destruct q. pool_norm. rewrite (Array_remove_indexOf_absent _ _ Hx).
      by rewrite <- app_assoc. }
    clearbody q2. subst q2. clear q1 Hi1.
    replace (S (length pre)) with (length (pre ++ [x])) by (rewrite length_app; cbn; lia).
    rewrite (IH (pre ++ [x]) (after_used_loop q [x]) fuel).
    + f_equal. unfold after_used_loop. pool_cbn.
      destruct (hook_values_alter q x (alter disposed x (store q)) suf eq_refl) as [Hv1 Hc1].
      unfold hook_values, creation_ids in *. pool_cbn.
      cbn [foldl omap list_omap flat_map app]. rewrite Hi.
      cbn [fmap option_fmap option_map foldl flat_map app]. rewrite Hv1, Hc1.
      by rewrite <- !app_assoc.
    + unfold after_used_loop. pool_cbn. by rewrite Hu, <- app_assoc.
    + intros r Hr. unfold after_used_loop. pool_cbn.
      cbn [foldl]. rewrite length_alter. apply Hv. by right.
    + intros r Hr. unfold after_used_loop. pool_cbn. apply Hf. by right.
    + cbn in Hfuel. lia.
Qed.

Lemma for_of_done (array : ObjectPool → list nat) (body : nat → M unit) (fuel index : nat)
    (q : ObjectPool) :
  array q !! index = None → for_of array body fuel index q = (Ok tt, q).
Proof. intros Hn. destruct fuel; cbn [for_of]; by rewrite Hn. Qed.

Lemma after_free_loop_nil (q : ObjectPool) (pre : list nat) :
  instances_list_ q = pre ++ [] → after_free_loop q pre [] = q.
Proof.
  rewrite app_nil_r. intros <-. destruct q.
  unfold after_free_loop, hook_values, creation_ids. cbn. by rewrite !app_nil_r.
Qed.

(** The second loop of [DestroyPool]: destroying the instance under the
    cursor removes it from the free list, so the next one slides under the
    cursor and is passed over when the cursor moves on. *)
Lemma free_loop (n : nat) :
  ∀ suf pre q fuel,
    length suf ≤ n →
    instances_list_ q = pre ++ suf →
    NoDup (pre ++ suf) →
    (∀ r, r ∈ suf → r < length (store q)) →
    length suf ≤ fuel →
    for_of instances_list_ DestroyInstance fuel (length pre) q
    = (Ok tt, after_free_loop q pre suf).
Proof.
  induction n as [|n IH]; intros suf pre q fuel Hn Hl Hnd Hv Hfuel.
  - destruct suf; [|cbn in Hn; lia]. rewrite for_of_done.
    + by rewrite after_free_loop_nil.
    + rewrite Hl, app_nil_r. apply lookup_ge_None_2. lia.
  - destruct suf as [|x rest].
    { rewrite for_of_done.
      + by rewrite after_free_loop_nil.
      + rewrite Hl, app_nil_r. apply lookup_ge_None_2. lia. }
    destruct fuel as [|fuel]; [cbn in Hfuel; lia|]. cbn [for_of].
    rewrite Hl, list_lookup_middle by done.
    destruct (lookup_lt_is_Some_2 (store q) x) as [i Hi]; [apply Hv; by left|].
    unfold bind at 1. rewrite (DestroyInstance_eq q x i Hi).
    assert (Hx : x ∉ pre).
    { apply NoDup_app in Hnd as (_ & Hdis & _). intros Hin. apply (Hdis x Hin). by left. }
    set (q1 := set_instances_list _ _).
    assert (Hq1 : q1 =
      mkPool (initial_pool_size_ q) (object_pool_type_ q) (store q) (dispose_event_ q)
        (used_instances_list_ q) (pre ++ rest) (creation_id_ q)
        (delete (CreationId i) (instances_map_ q)) (is_destroyed_ q) (is_started_ q)
        (trace q ++ [EvDestroy (Value i)])).
    { unfold q1. destruct q. pool_norm. subst.
      by rewrite (Array_remove_middle pre rest x Hx). }
    clearbody q1. subst q1.
    destruct rest as [|y rest].
    + rewrite for_of_done.
      * unfold after_free_loop, hook_values, creation_ids.
        cbn [evens odds omap list_omap]. rewrite Hi.
        by cbn [fmap option_fmap option_map list_fmap foldl].
      * pool_cbn. rewrite app_nil_r. apply lookup_ge_None_2. lia.
    + replace (S (length pre)) with (length (pre ++ [y])) by (rewrite length_app; cbn; lia).
      rewrite (IH rest (pre ++ [y]) _ fuel).
      * f_equal. unfold after_free_loop, hook_values, creation_ids. pool_cbn.
        cbn [evens odds omap list_omap]. rewrite Hi.
        cbn [fmap option_fmap option_map list_fmap foldl].
        by rewrite <- !app_assoc.
      * cbn in Hn. lia.
      * pool_cbn. by rewrite <- app_assoc.
      * pool_cbn. rewrite <- app_assoc. cbn [app].
        apply NoDup_app in Hnd as (Hnd1 & Hdis & Hnd2).
        apply NoDup_cons in Hnd2 as [Hxr Hnd2].
        apply NoDup_app. split_and!; [done | | done].
        intros z Hz. specialize (Hdis z Hz). rewrite elem_of_cons in Hdis. tauto.
      * intros r Hr. pool_cbn. apply Hv. right. by right.
      * cbn in Hfuel. lia.
Qed.

Lemma values_foldl_alter (p : ObjectPool) (us rs : list nat) :
  omap (λ r, Value <$> foldl (λ s r, alter disposed r s) (store p) us !! r) rs
  = hook_values p rs
  ∧ omap (λ r, CreationId <$> foldl (λ s r, alter disposed r s) (store p) us !! r) rs
  = creation_ids p rs.
Proof.
  revert p. induction us as [|u us IH]; intros p; cbn [foldl]; [done|].
  destruct (IH (set_store (alter disposed u) p)) as [H1 H2].
  cbn [set_store store] in H1, H2. rewrite H1, H2.
  apply (hook_values_alter p u); done.
Qed.

Lemma omap_app_list {A B : Type} (f : A → option B) (l k : list A) :
  omap f (l ++ k) = omap f l ++ omap f k.
Proof.
  induction l as [|x l IH]; cbn; [done|]. rewrite IH. by destruct (f x).
Qed.

Lemma DestroyPool_last_lines (q : ObjectPool) :
  set_is_destroyed true
    (set_instances_list (λ _, [])
       (set_used_instances_list (λ _, []) (set_dispose_event (λ _, 0) q)))
  = mkPool (initial_pool_size_ q) (object_pool_type_ q) (store q) 0 [] [] (creation_id_ q)
      (instances_map_ q) true (is_started_ q) (trace q).
Proof. by destruct q. Qed.

(** [DestroyPool] on a pool that is not destroyed, whose lists share no
    instance and hold none twice. *)
Lemma DestroyPool_eq (p : ObjectPool) :
  pool_wf p →
  is_destroyed_ p = false →
  NoDup (used_instances_list_ p ++ instances_list_ p) →
  DestroyPool p = (Ok tt, destroyed_pool p).
Proof.
  intros Hwf Hd Hnd. apply NoDup_app in Hnd as (Hnu & Hdis & Hnf).
  unfold DestroyPool. unfold bind at 1, gets at 1. rewrite Hd.
  unfold bind at 1, gets at 1. unfold bind at 1.
  rewrite (used_loop (used_instances_list_ p) [] p); first last.
  - done.
  - intros r Hr. by apply Hdis.
  - intros r Hr. by apply (wf_used p Hwf).
  - done.
  - unfold bind at 1, gets at 1. unfold bind at 1.
    rewrite (free_loop (length (instances_list_ p)) (instances_list_ p) [] _); first last.
    + done.
    + intros r Hr. unfold after_used_loop. pool_cbn.
      rewrite lookup_foldl_alter_length. by apply (wf_free p Hwf).
    + done.
    + done.
    + done.
    + unfold bind, modify. f_equal. rewrite DestroyPool_last_lines.
      destruct (values_foldl_alter p (used_instances_list_ p) (evens (instances_list_ p)))
        as [Hv Hc].
      unfold destroyed_pool, after_free_loop, after_used_loop, hook_values, creation_ids in *.
      pool_cbn. rewrite Hv, Hc, omap_app_list, foldl_app. by rewrite <- app_assoc.
Qed.

(** ** What the loops of [DestroyPool] leave alone *)

Lemma loop_frame_refl (p : ObjectPool) : loop_frame p p.
Proof.
  split; try done; [by eauto|]. exists []. by rewrite app_nil_r.
Qed.

Lemma loop_frame_trans (p1 p2 p3 : ObjectPool) :
  loop_frame p1 p2 → loop_frame p2 p3 → loop_frame p1 p3.
Proof.
  intros [A1 A2 A3 A4 A5 A6 (t1 & A7 & A8)] [B1 B2 B3 B4 B5 B6 (t2 & B7 & B8)].
  split; try congruence.
  - intros r i3 H3. destruct (B6 r i3 H3) as (i2 & H2 & ?).
    destruct (A6 r i2 H2) as (i1 & H1 & ?). exists i1. split; [done | congruence].
  - exists (t1 ++ t2). split; [by rewrite B7, A7, app_assoc | by apply Forall_app].
Qed.

Section Keeps.

Variable R : ObjectPool → ObjectPool → Prop.
Hypothesis R_refl : ∀ p, R p p.
Hypothesis R_trans : ∀ p1 p2 p3, R p1 p2 → R p2 p3 → R p1 p3.

Lemma keeps_bind {A B : Type} (m : M A) (f : A → M B) :
  keeps R m → (∀ a, keeps R (f a)) → keeps R (bind m f).
Proof.
  intros Hm Hf p. specialize (Hm p). unfold exec, bind in *.
  destruct (m p) as [[a|e] p1]; cbn [snd] in *; [|done].
  eapply R_trans; [exact Hm | apply Hf].
Qed.

Lemma keeps_gets {A : Type} (f : ObjectPool → A) : keeps R (gets f).
Proof. intros p. apply R_refl. Qed.

Lemma keeps_deref (r : nat) : keeps R (deref r).
Proof. intros p. unfold exec, deref. destruct (store p !! r); apply R_refl. Qed.

Lemma keeps_modify (f : ObjectPool → ObjectPool) : (∀ p, R p (f p)) → keeps R (modify f).
Proof. intros Hf p. apply Hf. Qed.

Lemma keeps_for_of (array : ObjectPool → list nat) (body : nat → M unit) :
  (∀ x, keeps R (body x)) → ∀ fuel index, keeps R (for_of array body fuel index).
Proof.
  intros Hb fuel. induction fuel as [|fuel IH]; intros index p; unfold exec; cbn [for_of].
  - destruct (array p !! index); apply R_refl.
  - destruct (array p !! index) as [x|]; [|apply R_refl].
    by apply (keeps_bind (body x) (λ _, for_of array body fuel (S index))).
Qed.

End Keeps.

Lemma loop_frame_DisposeOfInstance (r : nat) : keeps loop_frame (DisposeOfInstance r).
Proof.
  assert (Hupd : ∀ f : IObjectPoolInstance → IObjectPoolInstance,
            (∀ i, CreationId (f i) = CreationId i) → keeps loop_frame (update r f)).
  { intros f Hf. apply keeps_modify. intros p. split; try done; pool_cbn.
    - by rewrite length_alter.
    - intros r' i' Hi'. destruct (decide (r = r')) as [<-|Hne].
      + rewrite list_lookup_alter_eq in Hi'. destruct (store p !! r) as [i|]; [|done].
        injection Hi' as <-. exists i. by rewrite Hf.
      + rewrite list_lookup_alter_ne in Hi' by done. by exists i'.
    - exists []. by rewrite app_nil_r. }
  unfold DisposeOfInstance.
  apply (keeps_bind loop_frame loop_frame_trans); [by apply Hupd | intros _].
  apply (keeps_bind loop_frame loop_frame_trans); [by apply Hupd | intros _].
  apply (keeps_bind loop_frame loop_frame_trans);
    [apply keeps_deref, loop_frame_refl | intros i].
  apply keeps_modify. intros p. split; try done; pool_cbn; [by eauto|].
  eexists. split; [done|]. apply Forall_singleton. eauto.
Qed.

Lemma loop_frame_DestroyInstance (r : nat) : keeps loop_frame (DestroyInstance r).
Proof.
  assert (Hsame : ∀ f : ObjectPool → ObjectPool,
            (∀ p, initial_pool_size_ (f p) = initial_pool_size_ p
                  ∧ object_pool_type_ (f p) = object_pool_type_ p
                  ∧ creation_id_ (f p) = creation_id_ p
                  ∧ is_started_ (f p) = is_started_ p
                  ∧ store (f p) = store p ∧ trace (f p) = trace p) →
            keeps loop_frame (modify f)).
  { intros f Hf. apply keeps_modify. intros p.
    destruct (Hf p) as (? & ? & ? & ? & Hs & Ht). split; try done.
    - by rewrite Hs.
    - rewrite Hs. by eauto.
    - exists []. by rewrite app_nil_r. }
  unfold DestroyInstance.
  apply (keeps_bind loop_frame loop_frame_trans);
    [apply keeps_deref, loop_frame_refl | intros i].
  apply (keeps_bind loop_frame loop_frame_trans); [by apply Hsame | intros _].
  apply (keeps_bind loop_frame loop_frame_trans); [|intros _].
  { apply keeps_modify. intros p. split; try done; pool_cbn; [by eauto|].
    eexists. split; [done|]. apply Forall_singleton. eauto. }
  by apply Hsame.
Qed.

Lemma DestroyPool_unfold (p : ObjectPool) :
  is_destroyed_ p = false →
  DestroyPool p =
    match for_of used_instances_list_
            (λ used_instance,
               bind (DisposeOfInstance used_instance) (λ _, DestroyInstance used_instance))
            (length (used_instances_list_ p)) 0 p with
    | (Ok _, q1) =>
        match for_of instances_list_ DestroyInstance (length (instances_list_ q1)) 0 q1 with
        | (Ok _, q2) =>
            (Ok tt,
             mkPool (initial_pool_size_ q2) (object_pool_type_ q2) (store q2) 0 [] []
               (creation_id_ q2) (instances_map_ q2) true (is_started_ q2) (trace q2))
        | (Err e, q2) => (Err e, q2)
        end
    | (Err e, q1) => (Err e, q1)
    end.
Proof.
  intros Hd. unfold DestroyPool.
  unfold bind at 1, gets at 1. rewrite Hd. unfold bind at 1, gets at 1. unfold bind at 1.
  destruct (for_of used_instances_list_ _ _ 0 p) as [[[]|e] q1]; [|done].
  unfold bind at 1, gets at 1. unfold bind at 1.
  destruct (for_of instances_list_ DestroyInstance _ 0 q1) as [[[]|e] q2]; [|done].
  unfold bind, modify. by rewrite DestroyPool_last_lines.
Qed.

(** [DestroyPool] on a pool that is not destroyed: the state its two loops
    leave, and the four assignments that end it. *)
Lemma DestroyPool_frame (p : ObjectPool) :
  is_destroyed_ p = false →
  outcome DestroyPool p = Ok tt →
  ∃ q, loop_frame p q
       ∧ exec DestroyPool p =
           mkPool (initial_pool_size_ q) (object_pool_type_ q) (store q) 0 [] []
             (creation_id_ q) (instances_map_ q) true (is_started_ q) (trace q).
Proof.
  intros Hd. unfold outcome, exec. rewrite (DestroyPool_unfold p Hd).
  pose proof (keeps_for_of loop_frame loop_frame_refl loop_frame_trans used_instances_list_
    (λ used_instance,
       bind (DisposeOfInstance used_instance) (λ _, DestroyInstance used_instance))
    (λ x, keeps_bind loop_frame loop_frame_trans _ _
            (loop_frame_DisposeOfInstance x) (λ _, loop_frame_DestroyInstance x))
    (length (used_instances_list_ p)) 0 p) as H1.
  unfold exec in H1.
  destruct (for_of used_instances_list_ _ _ 0 p) as [[[]|e] q1]; cbn [snd] in H1; [|done].
  pose proof (keeps_for_of loop_frame loop_frame_refl loop_frame_trans instances_list_
    DestroyInstance loop_frame_DestroyInstance (length (instances_list_ q1)) 0 q1) as H2.
  unfold exec in H2.
  destruct (for_of instances_list_ DestroyInstance _ 0 q1) as [[[]|e] q2];
    cbn [snd] in H2; [|done].
  intros _. exists q2. split; [by eapply loop_frame_trans | done].
Qed.

(** ** The calls as transitions *)

Lemma Use_Fixed_nothing (start_data : TObjectStartData) (p : ObjectPool) :
  started_and_alive p → instances_list_ p = [] → object_pool_type_ p = Fixed →
  used_instances_list_ p = [] →
  Use start_data p = (Ok tt, set_trace (λ t, t ++ [EvWarn "Something went wrong"]) p).
Proof. intros [Hs Hd] Hl Ht Hu. pool_destruct p. reflexivity. Qed.

Lemma Use_alive_transition (strict : bool) (start_data : TObjectStartData) (p : ObjectPool) :
  pool_wf p → started_and_alive p →
  outcome (Use start_data) p = Ok tt
  ∧ rtc (transition strict) p (exec (Use start_data) p).
Proof.
  intros Hwf Hal. unfold outcome, exec.
  destruct (decide (instances_list_ p = [])) as [Hl|Hl].
  - destruct (object_pool_type_ p) eqn:Ht.
    + rewrite Use_grow by auto. split; [done|]. apply rtc_once, (tr_grow _ _ start_data); auto.
    + rewrite Use_grow by auto. split; [done|]. apply rtc_once, (tr_grow _ _ start_data); auto.
    + destruct (used_instances_list_ p) as [|r rest] eqn:Hu.
      * rewrite Use_Fixed_nothing by done. split; [done|]. by apply rtc_once, tr_nothing.
      * assert (Hr : r ∈ used_instances_list_ p) by (rewrite Hu; set_solver).
        destruct (lookup_lt_is_Some_2 _ _ (wf_used p Hwf r Hr)) as [i Hi].
        rewrite (Use_Fixed_recycle start_data p r rest i) by done.
        split; [done|]. by apply rtc_once, (tr_recycle _ _ start_data r rest i).
    + rewrite Use_FailSilent_exhausted by done. split; [done | apply rtc_refl].
  - destruct (exists_last Hl) as (l & r & Hlr).
    assert (Hr : r ∈ instances_list_ p) by (rewrite Hlr; set_solver).
    destruct (lookup_lt_is_Some_2 _ _ (wf_free p Hwf r Hr)) as [i Hi].
    rewrite (Use_pop start_data p l r i) by done.
    split; [done|]. by apply rtc_once, (tr_pop _ _ start_data l r i).
Qed.

Lemma Fire_transition (strict : bool) (creation_id use_id : nat) (p : ObjectPool) :
  pool_wf p → dispose_event_ p ≤ 1 → (strict = true → fired p creation_id use_id) →
  outcome (dispose_event_Fire creation_id use_id) p = Ok tt
  ∧ rtc (transition strict) p (exec (dispose_event_Fire creation_id use_id) p).
Proof.
  intros Hwf Hle Hfired. unfold outcome, exec.
  change (dispose_event_Fire creation_id use_id p)
    with (repeat_M (dispose_event_ p) (dispose_listener creation_id use_id) p).
  destruct (dispose_event_ p) as [|[|n]] eqn:He; [| |lia].
  { split; [done | apply rtc_refl]. }
  cbn [repeat_M]. unfold bind, ret.
  destruct (instances_map_ p !! creation_id) as [r|] eqn:Hm.
  2: { unfold dispose_listener, bind, gets, ret. rewrite Hm. split; [done | apply rtc_refl]. }
  destruct (wf_map p Hwf _ _ Hm) as (_ & i & Hi & Hc).
  destruct (decide (UseId i = use_id)) as [Hu|Hu].
  - rewrite (dispose_listener_current p creation_id use_id r i Hm Hi Hu).
    pose proof (FreeInstance_eq p r i Hi) as HF.
    destruct (FreeInstance r p) as [res q] eqn:E. injection HF as -> Hq.
    split; [done|]. apply rtc_once.
    replace q with (exec (FreeInstance r) p) by (unfold exec; by rewrite E).
    apply (tr_free strict p creation_id r i); try done.
    intros Hs. rewrite Hu. by apply Hfired.
  - unfold dispose_listener, bind, gets, deref, ret. rewrite Hm, Hi.
    rewrite bool_decide_true by done. split; [done | apply rtc_refl].
Qed.

Lemma DestroyPool_destroyed (p : ObjectPool) :
  is_destroyed_ p = true → DestroyPool p = (Ok tt, p).
Proof. intros Hd. unfold DestroyPool, bind, gets. by rewrite Hd. Qed.

(** Every call is a sequence of transitions, and raises nothing but one of
    the two assertions, which leave the pool as it was. *)
Lemma step_cases (strict : bool) (o : Op) (p : ObjectPool) :
  pool_wf p → dispose_event_ p ≤ 1 → (strict = true → admissible o p) →
  rtc (transition strict) p (exec (step o) p)
  ∧ (outcome (step o) p = Ok tt
     ∨ asserts o
       ∧ (step o p = (Err (AssertFailed "Object pool is destroyed"), p)
          ∧ is_destroyed_ p = true
          ∨ step o p = (Err (AssertFailed "Initial pool size should be greater than 0"), p)
            ∧ is_started_ p = false ∧ is_destroyed_ p = false
            ∧ (initial_pool_size_ p <= 0)%Q)).
Proof.
  assert (HE : ∀ msg, assert_failure (AssertFailed msg)) by (intros msg; by exists msg).
  intros Hwf Hev Hadm.
  destruct o as [|start_data| |instance use_id|creation_id use_id]; cbn [step].
  - (* Init *)
    destruct (is_started_ p) eqn:Hs.
    { unfold exec, outcome. rewrite Init_started by done. split; [apply rtc_refl | by left]. }
    destruct (is_destroyed_ p) eqn:Hd.
    { unfold exec, outcome. rewrite Init_destroyed by done.
      split; [apply rtc_refl | right; split; [done|]; by left]. }
    destruct (Qlt_le_dec 0 (initial_pool_size_ p)) as [Hsz|Hsz].
    + destruct (Init_ok p Hs Hd Hsz) as (p' & HI & _).
      unfold exec, outcome. rewrite HI. split; [|by left].
      by apply rtc_once, tr_init.
    + unfold exec, outcome. rewrite Init_bad_size by done.
      split; [apply rtc_refl|]. right. split; [done|]. by right.
  - (* Use *)
    destruct (is_destroyed_ p) eqn:Hd.
    { unfold exec, outcome. rewrite Use_destroyed by done.
      split; [apply rtc_refl | right; split; [done|]; by left]. }
    destruct (is_started_ p) eqn:Hs.
    { destruct (Use_alive_transition strict start_data p Hwf) as [Ho Ht]; [done|].
      split; [done | by left]. }
    destruct (Qlt_le_dec 0 (initial_pool_size_ p)) as [Hsz|Hsz].
    + destruct (Init_ok p Hs Hd Hsz) as (p' & HI & Hs' & Hd').
      assert (Hwf' : pool_wf p').
      { destruct (hoare_Init assert_failure HE p Hwf I) as (Hwf' & _).
        unfold exec in Hwf'. by rewrite HI in Hwf'. }
      destruct (Use_alive_transition strict start_data p' Hwf') as [Ho Ht]; [done|].
      unfold exec, outcome in *.
      rewrite (Use_unstarted start_data p p' Hs HI), <- (Use_started start_data p' Hs').
      split; [|by left]. eapply rtc_l; [|exact Ht]. by apply tr_init.
    + unfold exec, outcome.
      rewrite (Use_Init_fails start_data p
                 (AssertFailed "Initial pool size should be greater than 0"))
        by (try apply Init_bad_size; done).
      split; [apply rtc_refl|]. right. split; [done|]. by right.
  - (* DestroyPool *)
    destruct (DestroyPool_returns p Hwf) as [Ho _]. split; [|by left].
    destruct (is_destroyed_ p) eqn:Hd.
    + unfold exec. rewrite DestroyPool_destroyed by done. apply rtc_refl.
    + by apply rtc_once, tr_destroy.
  - (* a closure *)
    unfold exec, outcome.
    destruct (handed_out instance use_id p) eqn:Hh; [|split; [apply rtc_refl | by left]].
    apply handed_out_elem_of in Hh as (v & d & Hin).
    destruct (lookup_lt_is_Some_2 _ _ (wf_closures p Hwf v d instance use_id Hin)) as [i Hi].
    destruct (decide (UseId i = use_id)) as [Hu|Hu].
    + destruct (Fire_transition strict (CreationId i) (UseId i) p Hwf Hev) as [Ho Ht].
      { intros _. exists v, d, instance, i. by rewrite Hu. }
      unfold exec, outcome in Ho, Ht.
      assert (Heq : dispose_capability instance use_id p
                    = dispose_event_Fire (CreationId i) (UseId i) p).
      { unfold dispose_capability, bind at 1, deref. rewrite Hi.
        by rewrite bool_decide_false by (intros ?; done). }
      rewrite Heq. split; [done | by left].
    + rewrite (dispose_capability_stale p instance use_id i Hi Hu).
      split; [by apply rtc_once, (tr_warn _ _ v d instance use_id i) | by left].
  - (* a signal *)
    destruct (Fire_transition strict creation_id use_id p Hwf Hev Hadm) as [Ho Ht].
    split; [done | by left].
Qed.

Lemma transition_wf (strict : bool) (p p' : ObjectPool) :
  transition strict p p' → pool_wf p → pool_wf p'.
Proof.
  assert (HE : ∀ msg, assert_failure (AssertFailed msg)) by (intros msg; by exists msg).
  intros Htr Hwf.
  assert (HUse : ∀ d, pool_wf (exec (Use d) p)).
  { intros d. by destruct (hoare_Use assert_failure HE d p Hwf I). }
  destruct Htr as [p' Hs Hd Hsz HI|d l r i Hal Hl Hi|d r rest i Hal Hl Ht Hu Hi
                   |Hal Hl Ht Hu|d Hal Hl Ht|v0 d0 r0 u0 i0 _ _ _|cid r i He Hm Hi _|Hd].
  - destruct (hoare_Init assert_failure HE p Hwf I) as (Hwf' & _).
    unfold exec in Hwf'. by rewrite HI in Hwf'.
  - specialize (HUse d). unfold exec in HUse. by rewrite (Use_pop d p l r i) in HUse.
  - specialize (HUse d). unfold exec in HUse.
    by rewrite (Use_Fixed_recycle d p r rest i) in HUse.
  - destruct Hwf as [W1 W2 W3 W4]. split; try done. pool_cbn. intros v d r u Hin.
    apply elem_of_app in Hin as [Hin|Hin]; [by eapply W4|].
    by apply list_elem_of_singleton in Hin.
  - specialize (HUse d). unfold exec in HUse. by rewrite (Use_grow d p) in HUse.
  - destruct Hwf as [W1 W2 W3 W4]. split; try done. pool_cbn. intros v d r u Hin.
    apply elem_of_app in Hin as [Hin|Hin]; [by eapply W4|].
    by apply list_elem_of_singleton in Hin.
  - apply (hoare_FreeInstance assert_failure r p Hwf). by eapply lookup_lt_Some.
  - by destruct (hoare_DestroyPool assert_failure p Hwf I).
Qed.

(** *** The loose invariant *)

Lemma Create_calls_app (t t' : list Event) :
  Create_calls (t ++ t') = Create_calls t + Create_calls t'.
Proof.
  induction t as [|e t IH]; [done|]. destruct e; cbn [app Create_calls]; by rewrite ?IH.
Qed.

Lemma Create_calls_fmap (s : list IObjectPoolInstance) :
  Create_calls ((λ i, EvCreate (Value i)) <$> s) = length s.
Proof. induction s as [|i s IH]; [done|]. cbn. by rewrite IH. Qed.

Lemma Create_calls_others (t : list Event) :
  Forall (λ e, ∃ v, e = EvDispose v ∨ e = EvDestroy v) t → Create_calls t = 0.
Proof.
  induction 1 as [|e t (v & [->| ->]) _ IH]; [done|by cbn..].
Qed.

Lemma unstarted_new_pool (p : ObjectPool) :
  pool_inv p → is_started_ p = false → is_destroyed_ p = false →
  p = new_pool (initial_pool_size_ p) (object_pool_type_ p).
Proof.
  intros Hinv Hs Hd. pose proof (inv_unstarted p Hinv Hs) as Hp.
  by rewrite Hd in Hp.
Qed.

Lemma Init_unstarted_shape (p p' : ObjectPool) :
  pool_inv p → is_started_ p = false → is_destroyed_ p = false →
  (0 < initial_pool_size_ p)%Q →
  Init p = (Ok tt, p') →
  let N := Z.to_nat (Qfloor (initial_pool_size_ p)) in
  initial_pool_size_ p' = initial_pool_size_ p
  ∧ object_pool_type_ p' = object_pool_type_ p
  ∧ started_and_alive p'
  ∧ dispose_event_ p' = 1
  ∧ Init_loop_shape N p'.
Proof.
  intros Hinv Hs Hd Hsz HI N.
  pose proof (unstarted_new_pool p Hinv Hs Hd) as Hp.
  rewrite (Init_unfold p Hs Hd Hsz) in HI. fold N in HI.
  destruct (Init_loop_eq N 0 (set_is_started true p)) as (p1 & Hrun & Hshape & Hsame).
  { rewrite Hp. split; try done. intros r Hr. lia. }
  rewrite Hrun in HI. injection HI as <-.
  destruct Hsame as (Hsz' & Hty & Hev & Hd' & Hst'). cbn [Nat.add] in Hshape.
  split_and!; pool_cbn; try done.
  - split; pool_cbn; [by rewrite Hst' | by rewrite Hd'].
  - rewrite Hev. pool_cbn. by rewrite (inv_event p Hinv), Hs.
  - by destruct Hshape.
Qed.

Lemma FreeInstance_fields (p : ObjectPool) (r : nat) (i : IObjectPoolInstance) :
  store p !! r = Some i →
  let p' := exec (FreeInstance r) p in
  initial_pool_size_ p' = initial_pool_size_ p
  ∧ object_pool_type_ p' = object_pool_type_ p
  ∧ dispose_event_ p' = dispose_event_ p
  ∧ creation_id_ p' = creation_id_ p
  ∧ is_destroyed_ p' = is_destroyed_ p
  ∧ is_started_ p' = is_started_ p
  ∧ store p' = <[r := disposed i]> (store p)
  ∧ used_instances_list_ p' =
      Array.remove (used_instances_list_ p) (Array.indexOf (used_instances_list_ p) r)
  ∧ (shrinks p = true
     ∧ instances_list_ p' =
         Array.remove (instances_list_ p) (Array.indexOf (instances_list_ p) r)
     ∧ instances_map_ p' = delete (CreationId i) (instances_map_ p)
     ∧ trace p' = trace p ++ [EvDispose (Value i); EvDestroy (Value i)]
     ∨ shrinks p = false
     ∧ instances_list_ p' = instances_list_ p ++ [r]
     ∧ instances_map_ p' = instances_map_ p
     ∧ trace p' = trace p ++ [EvDispose (Value i)]).
Proof.
  intros Hi p'. subst p'. unfold exec. rewrite (FreeInstance_eq p r i Hi). cbn [snd].
  destruct (shrinks p); unfold released; pool_cbn; split_and!; try done.
  - left. split_and!; try done. by rewrite <- app_assoc.
  - by right.
Qed.

Lemma shrinks_false_length (p : ObjectPool) :
  shrinks p = false → object_pool_type_ p = Elastic →
  length (instances_list_ p) < Z.to_nat (Qceiling (initial_pool_size_ p)).
Proof.
  unfold shrinks, Array.size. intros Hsh Ht.
  rewrite bool_decide_true in Hsh by done. cbn [andb] in Hsh.
  apply Number_ge_false in Hsh.
  assert (Hlt : (Z.of_nat (length (instances_list_ p)) < Qceiling (initial_pool_size_ p))%Z).
  { rewrite Zlt_Qlt. eapply Qlt_le_trans; [exact Hsh | apply Qle_ceiling]. }
  lia.
Qed.

Lemma floor_le_ceiling (q : Q) : Z.to_nat (Qfloor q) ≤ Z.to_nat (Qceiling q).
Proof. pose proof (Qle_floor_ceiling q) as H. rewrite <- Zle_Qle in H. lia. Qed.

Lemma floor_ge_1 (q : Q) : (1 <= q)%Q → 1 ≤ Z.to_nat (Qfloor q).
Proof. intros H. apply Qfloor_resp_le in H. change (Qfloor 1) with 1%Z in H. lia. Qed.

Lemma shrinks_true_Elastic (p : ObjectPool) :
  shrinks p = true → object_pool_type_ p = Elastic.
Proof.
  unfold shrinks. intros Hsh. apply andb_prop in Hsh as [Ht _].
  by apply bool_decide_eq_true in Ht.
Qed.

Lemma new_pool_inv (initial_pool_size : Q) (object_pool_type : EObjectPoolType) (b : bool) :
  pool_inv (set_is_destroyed b (new_pool initial_pool_size object_pool_type)).
Proof.
  split; cbn; try done.
  - lia.
  - by intros _ [[=] _].
  - intros _. apply not_elem_of_nil.
Qed.

Lemma transition_inv (strict : bool) (p p' : ObjectPool) :
  transition strict p p' → pool_wf p → pool_inv p → pool_inv p'.
Proof.
  intros Htr Hwf Hinv. pose proof Hinv as [I1 I2 I3 I4 I5 I6 I7 I8 I9 I10 I11].
  destruct Htr as [p' Hs Hd Hsz HI|d l r i [Hs Hd] Hl Hi|d r rest i [Hs Hd] Hl Ht Hu Hi
                   |[Hs Hd] Hl Ht Hu|d [Hs Hd] Hl Ht|v d r u i Hin Hi Hne
                   |cid r i He Hm Hi _|Hd].
  - (* Init *)
    destruct (Init_unstarted_shape p p' Hinv Hs Hd Hsz HI)
      as (F1 & F2 & [F3 F3'] & Hev & [F4 F5 F6 F7 F8 F9 Htr]).
    set (N := Z.to_nat (Qfloor (initial_pool_size_ p))) in *.
    split.
    + by rewrite F3.
    + intros _. by rewrite F1.
    + by rewrite F3, F3', Hev.
    + intros r i Hi. destruct (F9 r) as (i' & Hi' & Hc & _).
      { rewrite <- F8. by eapply lookup_lt_Some. }
      congruence.
    + by rewrite F8, F4.
    + by rewrite Htr, Create_calls_fmap, F8, F4.
    + intros _. by rewrite F4, F1, F3.
    + intros _. rewrite F6, length_seq, F1. apply floor_le_ceiling.
    + intros _ _ Hone H. rewrite F1 in Hone. apply floor_ge_1 in Hone. fold N in Hone.
      apply (f_equal length) in H. rewrite F6, F7, length_app, length_seq in H.
      cbn in H. lia.
    + intros _. rewrite Htr. intros H. apply list_elem_of_fmap in H as (i & [=] & _).
    + intros ?. congruence.
  - (* a free instance is handed out *)
    unfold popped. split; pool_cbn; try done.
    + by rewrite Hs.
    + intros r0 i0. destruct (decide (r = r0)) as [<-|Hne].
      * rewrite list_lookup_alter_eq, Hi. intros [= <-]. pool_cbn. by apply I4.
      * rewrite list_lookup_alter_ne by done. apply I4.
    + by rewrite length_alter.
    + rewrite Create_calls_app. cbn. lia.
    + intros Ht. specialize (I8 Ht). rewrite Hl, length_app in I8. lia.
    + intros _ _ _ H. apply (f_equal length) in H. rewrite !length_app in H. cbn in H. lia.
    + intros Hor H. apply elem_of_app in H as [H|H]; [by destruct (I10 Hor)|].
      by apply list_elem_of_singleton in H.
    + intros ?. congruence.
  - (* the oldest used instance is recycled *)
    unfold recycled_pool. split; pool_cbn; try done.
    + by rewrite Hs.
    + intros r0 i0 H0. apply list_lookup_insert_Some in H0 as [(<- & <- & _)|[_ H0]].
      * unfold recycled. pool_cbn. by apply I4.
      * by apply I4.
    + by rewrite length_insert.
    + rewrite Create_calls_app. cbn. lia.
    + intros _ _ _ H. apply (f_equal length) in H. rewrite !length_app in H. cbn in H. lia.
    + intros Hor H. apply elem_of_app in H as [H|H]; [by destruct (I10 Hor)|].
      apply elem_of_cons in H as [H|H]; [done|]. by apply list_elem_of_singleton in H.
    + intros ?. congruence.
  - (* nothing to hand out: the pool has no instance at all *)
    assert (Hsmall : ¬ (1 <= initial_pool_size_ p)%Q).
    { intros Hone. destruct (I9 Ht); [done..|]. by rewrite Hu, Hl. }
    split; pool_cbn; try done.
    + by rewrite Hs.
    + rewrite Create_calls_app. cbn. lia.
    + intros [Hone|Hne]; [by destruct Hsmall | by destruct Hne].
  - (* a new instance is constructed *)
    unfold grown_pool. split; pool_cbn; try done.
    + by rewrite Hs.
    + intros r0 i0 H0. apply lookup_app_Some in H0 as [H0|[Hle H0]]; [by apply I4|].
      apply list_lookup_singleton_Some in H0 as [H0 <-]. cbn. lia.
    + rewrite length_app. cbn. lia.
    + rewrite Create_calls_app. cbn. lia.
    + intros [H|H]; destruct Ht; congruence.
    + intros _. cbn. lia.
    + intros H. destruct Ht; congruence.
    + intros Hor H. apply elem_of_app in H as [H|H]; [by destruct (I10 Hor)|].
      apply elem_of_cons in H as [H|H]; [done|]. by apply list_elem_of_singleton in H.
    + intros ?. congruence.
  - (* a closure warns *)
    assert (Hs : is_started_ p = true).
    { destruct (is_started_ p) eqn:Hs; [done|]. rewrite (I1 eq_refl) in Hin.
      by apply elem_of_nil in Hin. }
    split; pool_cbn; try done.
    + by rewrite Hs.
    + rewrite Create_calls_app. cbn. lia.
    + intros Hor H. apply elem_of_app in H as [H|H]; [by destruct (I10 Hor)|].
      by apply list_elem_of_singleton in H.
  - (* an instance is freed *)
    assert (Hs : is_started_ p = true).
    { destruct (is_started_ p); [done|]. cbn in I3. congruence. }
    destruct (FreeInstance_fields p r i Hi)
      as (F1 & F2 & F3 & F4 & F5 & F6 & F7 & F8 & Hcase).
    split.
    + by rewrite F6, Hs.
    + by rewrite F1, F6.
    + by rewrite F3, F5, F6.
    + rewrite F7. intros r0 i0 H0.
      apply list_lookup_insert_Some in H0 as [(<- & <- & _)|[_ H0]];
        unfold disposed; pool_cbn; by apply I4.
    + by rewrite F7, length_insert, F4.
    + rewrite F4. destruct Hcase as [(_ & _ & _ & ->)|(_ & _ & _ & ->)];
        rewrite Create_calls_app; cbn; lia.
    + by rewrite F1, F2, F4, F6.
    + rewrite F1, F2. intros Ht. specialize (I8 Ht).
      destruct Hcase as [(_ & -> & _)|(Hsh & -> & _)].
      * etrans; [apply Array_remove_length | done].
      * pose proof (shrinks_false_length p Hsh Ht). rewrite length_app. cbn. lia.
    + rewrite F2. intros Ht _ _. destruct Hcase as [(Hsh & _)|(_ & -> & _)].
      * apply shrinks_true_Elastic in Hsh. congruence.
      * intros H. apply (f_equal length) in H. rewrite !length_app in H. cbn in H. lia.
    + rewrite F1, F2. intros Hor.
      destruct Hcase as [(_ & _ & _ & ->)|(_ & _ & _ & ->)]; intros H;
        apply elem_of_app in H as [H|H]; try (by destruct (I10 Hor)).
      * apply elem_of_cons in H as [H|H]; [done|]. by apply list_elem_of_singleton in H.
      * by apply list_elem_of_singleton in H.
    + rewrite F5. intros Hd. rewrite Hs, Hd in I3. cbn in I3. congruence.
  - (* the pool is destroyed *)
    destruct (is_started_ p) eqn:Hs.
    2: { rewrite (unstarted_new_pool p Hinv Hs Hd). apply (new_pool_inv _ _ true). }
    destruct (DestroyPool_returns p Hwf) as [Ho _].
    destruct (DestroyPool_frame p Hd Ho) as (q & [F1 F2 F3 F4 F5 F6 (t & F7 & F8)] & ->).
    split; pool_cbn.
    + intros Hs'. congruence.
    + intros _. rewrite F1. by apply I2.
    + by rewrite andb_false_r.
    + intros r i Hi. destruct (F6 r i Hi) as (i0 & Hi0 & ->). by apply I4.
    + by rewrite F5, F3.
    + by rewrite F7, Create_calls_app, (Create_calls_others t F8), F3, Nat.add_0_r.
    + rewrite F1, F2, F3, F4, Hs. exact I7.
    + intros _. cbn. lia.
    + intros _ [_ [=]].
    + rewrite F1, F2, F7. intros Hor H. apply elem_of_app in H as [H|H];
        [by destruct (I10 Hor)|].
      rewrite Forall_forall in F8. destruct (F8 _ H) as (v & [?|?]); done.
    + done.
Qed.

Lemma transitions_inv (strict : bool) (p p' : ObjectPool) :
  rtc (transition strict) p p' → pool_wf p → pool_inv p → pool_wf p' ∧ pool_inv p'.
Proof.
  induction 1 as [|p1 p2 p3 H12 _ IH]; [done|]. intros Hwf Hinv.
  apply IH; [by eapply transition_wf | by eapply transition_inv].
Qed.

Lemma inv_event_le (p : ObjectPool) : pool_inv p → dispose_event_ p ≤ 1.
Proof. intros H. rewrite (inv_event p H). destruct (_ && _); lia. Qed.

Lemma run_inv (ops : list Op) (p : ObjectPool) :
  pool_wf p → pool_inv p → pool_inv (run ops p).
Proof.
  revert p. induction ops as [|o ops IH]; intros p Hwf Hinv; cbn [run]; [done|].
  destruct (step_cases false o p Hwf (inv_event_le p Hinv)) as [Ht _]; [done|].
  destruct (transitions_inv _ _ _ Ht Hwf Hinv). by apply IH.
Qed.

Lemma reachable_inv (p : ObjectPool) : reachable p → pool_inv p.
Proof.
  intros (sz & ty & ops & ->).
  apply run_inv; [apply new_pool_wf | apply (new_pool_inv sz ty false)].
Qed.

(** *** The strict invariant *)

Lemma NoDup_move_back (pre rest free : list nat) (r : nat) :
  NoDup ((pre ++ r :: rest) ++ free) → NoDup ((pre ++ rest) ++ free ++ [r]).
Proof.
  assert (Hperm : (pre ++ r :: rest) ++ free ≡ₚ (pre ++ rest) ++ free ++ [r]).
  { rewrite <- !app_assoc. cbn [app]. rewrite <- Permutation_middle.
    rewrite !app_assoc. by rewrite <- Permutation_cons_append. }
  by rewrite Hperm.
Qed.

Lemma NoDup_drop_middle (pre rest free : list nat) (r : nat) :
  NoDup ((pre ++ r :: rest) ++ free) → NoDup ((pre ++ rest) ++ free) ∧ r ∉ (pre ++ rest) ++ free.
Proof.
  assert (Hperm : (pre ++ r :: rest) ++ free ≡ₚ r :: (pre ++ rest) ++ free).
  { rewrite <- !app_assoc. cbn [app]. by rewrite <- Permutation_middle. }
  rewrite Hperm. intros H. apply NoDup_cons in H. tauto.
Qed.

Lemma foldl_alter_disposed_lookup (rs : list nat) (s : list IObjectPoolInstance) (r : nat)
    (i : IObjectPoolInstance) :
  s !! r = Some i →
  ∃ i', foldl (λ s r, alter disposed r s) s rs !! r = Some i'
        ∧ UseId i ≤ UseId i' ∧ (r ∈ rs → UseId i < UseId i').
Proof.
  revert s i. induction rs as [|x rs IH]; intros s i Hi; cbn [foldl].
  - exists i. split_and!; [done..|]. intros H. by apply elem_of_nil in H.
  - destruct (decide (x = r)) as [->|Hne].
    + destruct (IH (alter disposed r s) (disposed i)) as (i' & Hi' & Hle & _).
      { by rewrite list_lookup_alter_eq, Hi. }
      exists i'. cbn in Hle. split_and!; [done | lia | intros _; lia].
    + destruct (IH (alter disposed x s) i) as (i' & Hi' & Hle & Hlt).
      { by rewrite list_lookup_alter_ne. }
      exists i'. split_and!; [done..|]. intros H.
      apply elem_of_cons in H as [->|H]; [done | by apply Hlt].
Qed.

Lemma new_pool_partition (initial_pool_size : Q) (object_pool_type : EObjectPoolType) :
  pool_partition (new_pool initial_pool_size object_pool_type).
Proof.
  split; cbn.
  - apply NoDup_nil_2.
  - intros r H. by apply elem_of_nil in H.
  - intros _ cid r. by rewrite lookup_empty.
  - intros v d r u H. by apply elem_of_nil in H.
  - intros v d r u i H. by apply elem_of_nil in H.
  - intros r i H. by apply elem_of_nil in H.
Qed.

Lemma transition_partition (p p' : ObjectPool) :
  transition true p p' → pool_wf p → pool_inv p → pool_partition p → pool_partition p'.
Proof.
  intros Htr Hwf Hinv [P1 P2 P3 P4 P5 P6].
  pose proof Hinv as [I1 I2 I3 I4 I5 I6 I7 I8 I9 I10 I11].
  destruct Htr as [p' Hs Hd Hsz HI|d l r i [Hs Hd] Hl Hi|d r rest i [Hs Hd] Hl Ht Hu Hi
                   |[Hs Hd] Hl Ht Hu|d [Hs Hd] Hl Ht|v d r u i Hin Hi Hne
                   |cid r i He Hm Hi Hf|Hd].
  - (* Init *)
    destruct (Init_unstarted_shape p p' Hinv Hs Hd Hsz HI)
      as (F1 & F2 & [F3 F3'] & Hev & [F4 F5 F6 F7 F8 F9 Htr]).
    set (N := Z.to_nat (Qfloor (initial_pool_size_ p))) in *.
    assert (Hno : ∀ v d r u, EvStart v d r u ∉ trace p').
    { intros v d r u H. rewrite Htr in H. by apply list_elem_of_fmap in H as (i & [=] & _). }
    split.
    + rewrite F7, F6. cbn. apply NoDup_seq.
    + rewrite F7, F6, F5. cbn. intros r Hr. apply elem_of_seq in Hr.
      rewrite lookup_id_map. by rewrite decide_True by lia.
    + intros _ cid r. rewrite F5, F7, F6, lookup_id_map. cbn.
      destruct (decide (cid < N)); [|done]. intros [= <-]. apply elem_of_seq. lia.
    + intros v d r u H. by destruct (Hno v d r u).
    + intros v d r u i H. by destruct (Hno v d r u).
    + intros r i Hr Hi. rewrite F6 in Hr. apply elem_of_seq in Hr.
      destruct (F9 r) as (i' & Hi' & _ & _ & Ha); [lia|].
      rewrite Hi in Hi'. by injection Hi' as <-.
  - (* a free instance is handed out *)
    rewrite Hl in P1, P2, P3, P6.
    assert (Hnd : NoDup ((used_instances_list_ p ++ [r]) ++ l)).
    { assert (Hperm : used_instances_list_ p ++ l ++ [r] ≡ₚ (used_instances_list_ p ++ [r]) ++ l).
      { rewrite <- app_assoc. f_equiv. apply Permutation_app_comm. }
      by rewrite <- Hperm. }
    assert (Hrl : r ∉ l).
    { intros H. apply NoDup_app in Hnd as (_ & Hdis & _). apply (Hdis r); set_solver. }
    unfold popped. split; pool_cbn.
    + done.
    + intros r0 Hr0. apply P2. set_solver.
    + intros _ cid r0 H0. specialize (P3 Hd cid r0 H0). set_solver.
    + intros v0 d0 r0 u0 H0. apply elem_of_app in H0 as [H0|H0].
      * destruct (P4 _ _ _ _ H0) as (i0 & Hi0 & Hle).
        destruct (decide (r = r0)) as [<-|Hne].
        -- exists (set_IsActive true i0). by rewrite list_lookup_alter_eq, Hi0.
        -- exists i0. by rewrite list_lookup_alter_ne.
      * apply list_elem_of_singleton in H0. injection H0 as -> -> -> ->.
        exists (set_IsActive true i). by rewrite list_lookup_alter_eq, Hi.
    + intros v0 d0 r0 u0 i0 H0 Hi0 Hu0.
      destruct (decide (r = r0)) as [<-|Hne]; [set_solver|].
      rewrite list_lookup_alter_ne in Hi0 by done.
      apply elem_of_app in H0 as [H0|H0].
      * apply elem_of_app. left. by eapply P5.
      * apply list_elem_of_singleton in H0. injection H0 as. congruence.
    + intros r0 i0 Hr0 Hi0. rewrite list_lookup_alter_ne in Hi0 by (intros ->; done).
      apply (P6 r0 i0); [set_solver | done].
  - (* the oldest used instance is recycled *)
    rewrite Hu, Hl in P1, P2, P3. rewrite Hu in P5.
    unfold recycled_pool. split; pool_cbn; rewrite ?Hl.
    + rewrite app_nil_r in *.
      assert (Hperm : r :: rest ≡ₚ rest ++ [r]) by apply Permutation_cons_append.
      by rewrite <- Hperm.
    + intros r0 Hr0. apply P2. set_solver.
    + intros _ cid r0 H0. specialize (P3 Hd cid r0 H0). set_solver.
    + intros v0 d0 r0 u0 H0.
      assert (Hcases : EvStart v0 d0 r0 u0 ∈ trace p ∨ (r0 = r ∧ u0 = UseId i + 1)).
      { apply elem_of_app in H0 as [H0|H0]; [by left|].
        apply elem_of_cons in H0 as [H0|H0]; [done|].
        apply list_elem_of_singleton in H0. injection H0 as -> -> -> ->. by right. }
      destruct (decide (r = r0)) as [<-|Hne].
      * exists (recycled i). rewrite list_lookup_insert_eq by (by eapply lookup_lt_Some).
        split; [done|]. cbn. destruct Hcases as [H1|[_ ->]]; [|lia].
        destruct (P4 _ _ _ _ H1) as (i1 & Hi1 & ?). rewrite Hi in Hi1. injection Hi1 as <-. lia.
      * destruct Hcases as [H1|[-> _]]; [|done].
        destruct (P4 _ _ _ _ H1) as (i1 & Hi1 & ?). exists i1.
        by rewrite list_lookup_insert_ne.
    + intros v0 d0 r0 u0 i0 H0 Hi0 Hu0.
      destruct (decide (r = r0)) as [<-|Hne]; [set_solver|].
      rewrite list_lookup_insert_ne in Hi0 by done.
      apply elem_of_app in H0 as [H0|H0].
      * specialize (P5 _ _ _ _ _ H0 Hi0 Hu0). set_solver.
      * apply elem_of_cons in H0 as [H0|H0]; [done|].
        apply list_elem_of_singleton in H0. injection H0 as. congruence.
    + intros r0 i0 Hr0. by apply elem_of_nil in Hr0.
  - (* nothing to hand out *)
    split; pool_cbn; try done.
    + intros v0 d0 r0 u0 H0. apply elem_of_app in H0 as [H0|H0]; [by eapply P4|].
      by apply list_elem_of_singleton in H0.
    + intros v0 d0 r0 u0 i0 H0. apply elem_of_app in H0 as [H0|H0]; [by eapply P5|].
      by apply list_elem_of_singleton in H0.
  - (* a new instance is constructed *)
    rewrite Hl in P1, P2, P3. rewrite app_nil_r in P1.
    assert (Hfresh : length (store p) ∉ used_instances_list_ p).
    { intros H. apply (wf_used p Hwf) in H. lia. }
    unfold grown_pool. split; pool_cbn.
    + rewrite app_nil_r. apply NoDup_app. split_and!; [done | | apply NoDup_singleton].
      intros x Hx Hx'. by apply list_elem_of_singleton in Hx' as ->.
    + intros r0 Hr0. rewrite app_nil_r in Hr0. apply elem_of_app in Hr0 as [Hr0|Hr0].
      * rewrite lookup_insert_ne; [apply P2; set_solver|].
        rewrite <- I5. by intros <-.
      * apply list_elem_of_singleton in Hr0 as ->. by rewrite <- I5, lookup_insert_eq.
    + intros _ cid r0 H0. rewrite app_nil_r.
      apply lookup_insert_Some in H0 as [[_ <-]|[_ H0]]; [set_solver|].
      specialize (P3 Hd cid r0 H0). set_solver.
    + intros v0 d0 r0 u0 H0. apply elem_of_app in H0 as [H0|H0].
      * destruct (P4 _ _ _ _ H0) as (i0 & Hi0 & ?). exists i0. split; [|done].
        by apply lookup_app_l_Some.
      * apply elem_of_cons in H0 as [H0|H0]; [done|].
        apply list_elem_of_singleton in H0. injection H0 as -> -> -> ->.
        eexists. split; [by apply list_lookup_middle | cbn; lia].
    + intros v0 d0 r0 u0 i0 H0 Hi0 Hu0. apply elem_of_app in H0 as [H0|H0].
      * destruct (P4 _ _ _ _ H0) as (i1 & Hi1 & _).
        rewrite (lookup_app_l_Some _ _ _ _ Hi1) in Hi0. injection Hi0 as <-.
        specialize (P5 _ _ _ _ _ H0 Hi1 Hu0). set_solver.
      * apply elem_of_cons in H0 as [H0|H0]; [done|].
        apply list_elem_of_singleton in H0. injection H0 as -> -> -> ->. set_solver.
    + intros r0 i0 Hr0. by apply elem_of_nil in Hr0.
  - (* a closure warns *)
    split; pool_cbn; try done.
    + intros v0 d0 r0 u0 H0. apply elem_of_app in H0 as [H0|H0]; [by eapply P4|].
      by apply list_elem_of_singleton in H0.
    + intros v0 d0 r0 u0 i0 H0. apply elem_of_app in H0 as [H0|H0]; [by eapply P5|].
      by apply list_elem_of_singleton in H0.
  - (* an instance is freed *)
    assert (Hd : is_destroyed_ p = false).
    { destruct (is_destroyed_ p); [|done]. rewrite andb_false_r in I3. congruence. }
    destruct (Hf eq_refl) as (v & d & r' & i' & Hin & Hi' & Hc').
    destruct (wf_map p Hwf _ _ Hm) as (_ & i0 & Hi0 & Hc0).
    rewrite Hi in Hi0. injection Hi0 as <-.
    pose proof (I4 _ _ Hi) as Hri. pose proof (I4 _ _ Hi') as Hri'.
    assert (r' = r) as -> by congruence. rewrite Hi in Hi'. injection Hi' as <-.
    clear Hc' Hri' Hf.
    pose proof (P5 _ _ _ _ _ Hin Hi eq_refl) as Hused.
    apply list_elem_of_split_l in Hused as (pre & rest & Hu & Hpre).
    rewrite Hu in P1.
    destruct (NoDup_drop_middle _ _ _ _ P1) as [Hnd Hnotin].
    pose proof (NoDup_move_back _ _ _ _ P1) as Hnd'.
    destruct (FreeInstance_fields p r i Hi)
      as (F1 & F2 & F3 & F4 & F5 & F6 & F7 & F8 & Hcase).
    rewrite Hu, (Array_remove_middle pre rest r Hpre) in F8.
    assert (Hold : ∀ v0 d0 r0 u0, EvStart v0 d0 r0 u0 ∈ trace (exec (FreeInstance r) p) →
                     EvStart v0 d0 r0 u0 ∈ trace p).
    { intros v0 d0 r0 u0. destruct Hcase as [(_ & _ & _ & ->)|(_ & _ & _ & ->)]; intros H0;
        apply elem_of_app in H0 as [H0|H0]; try done.
      - apply elem_of_cons in H0 as [H0|H0]; [done|]. by apply list_elem_of_singleton in H0.
      - by apply list_elem_of_singleton in H0. }
    assert (Hfree_r : r ∉ instances_list_ p) by set_solver.
    assert (Hlt : r < length (store p)) by by eapply lookup_lt_Some.
    split.
    + rewrite F8. destruct Hcase as [(_ & -> & _)|(_ & -> & _)]; [|done].
      by rewrite Array_remove_indexOf_absent.
    + rewrite F8. intros r0 Hr0.
      destruct Hcase as [(_ & Hfr & -> & _)|(_ & Hfr & -> & _)]; rewrite Hfr in Hr0.
      * rewrite Array_remove_indexOf_absent in Hr0 by done.
        rewrite lookup_delete_ne; [apply P2; rewrite Hu; set_solver|].
        rewrite Hri. by intros <-.
      * apply P2. rewrite Hu. set_solver.
    + rewrite F5, F8. intros _ cid0 r0 H0.
      destruct Hcase as [(_ & -> & Hmap & _)|(_ & -> & Hmap & _)]; rewrite Hmap in H0.
      * rewrite Array_remove_indexOf_absent by done.
        apply lookup_delete_Some in H0 as [Hne H0].
        destruct (wf_map p Hwf _ _ H0) as (_ & i1 & Hi1 & Hc1).
        pose proof (I4 _ _ Hi1) as Hr1.
        specialize (P3 Hd cid0 r0 H0). rewrite Hu in P3.
        assert (r0 ≠ r) by congruence. set_solver.
      * specialize (P3 Hd cid0 r0 H0). rewrite Hu in P3. set_solver.
    + intros v0 d0 r0 u0 H0. apply Hold in H0.
      destruct (P4 _ _ _ _ H0) as (i1 & Hi1 & Hle). rewrite F7.
      destruct (decide (r = r0)) as [<-|Hne].
      * exists (disposed i). rewrite list_lookup_insert_eq by done. split; [done|].
        rewrite Hi in Hi1. injection Hi1 as <-. cbn. lia.
      * exists i1. by rewrite list_lookup_insert_ne.
    + intros v0 d0 r0 u0 i1 H0 Hi1 Hu1. apply Hold in H0. rewrite F7 in Hi1. rewrite F8.
      destruct (decide (r = r0)) as [<-|Hne].
      * rewrite list_lookup_insert_eq in Hi1 by done. injection Hi1 as <-.
        destruct (P4 _ _ _ _ H0) as (i2 & Hi2 & Hle). rewrite Hi in Hi2. injection Hi2 as <-.
        cbn in Hu1. lia.
      * rewrite list_lookup_insert_ne in Hi1 by done.
        specialize (P5 _ _ _ _ _ H0 Hi1 Hu1). rewrite Hu in P5. set_solver.
    + intros r0 i1 Hr0 Hi1. rewrite F7 in Hi1.
      destruct (decide (r = r0)) as [<-|Hne].
      * rewrite list_lookup_insert_eq in Hi1 by done. by injection Hi1 as <-.
      * rewrite list_lookup_insert_ne in Hi1 by done. apply (P6 r0 i1); [|done].
        destruct Hcase as [(_ & Hfr & _)|(_ & Hfr & _)]; rewrite Hfr in Hr0.
        -- by rewrite Array_remove_indexOf_absent in Hr0.
        -- set_solver.
  - (* the pool is destroyed *)
    destruct (DestroyPool_returns p Hwf) as [Ho Hdes].
    destruct (DestroyPool_frame p Hd Ho) as (q & [_ _ _ _ _ _ (t & F7 & F8)] & Hq).
    pose proof (DestroyPool_eq p Hwf Hd P1) as Heq.
    assert (Hstore : store (exec DestroyPool p)
                     = foldl (λ s r, alter disposed r s) (store p) (used_instances_list_ p)).
    { unfold exec. by rewrite Heq. }
    assert (Hu' : used_instances_list_ (exec DestroyPool p) = []).
    { unfold exec. by rewrite Heq. }
    assert (Hl' : instances_list_ (exec DestroyPool p) = []).
    { unfold exec. by rewrite Heq. }
    assert (Htrace : trace (exec DestroyPool p) = trace p ++ t) by by rewrite Hq.
    assert (Hold : ∀ v d r u, EvStart v d r u ∈ trace (exec DestroyPool p) →
                     EvStart v d r u ∈ trace p).
    { intros v d r u. rewrite Htrace. intros H. apply elem_of_app in H as [H|H]; [done|].
      rewrite Forall_forall in F8. by destruct (F8 _ H) as (v' & [?|?]). }
    split; rewrite ?Hu', ?Hl'.
    + apply NoDup_nil_2.
    + intros r H. by apply elem_of_nil in H.
    + by rewrite Hdes.
    + intros v d r u H. apply Hold in H. destruct (P4 _ _ _ _ H) as (i & Hi & Hle).
      destruct (foldl_alter_disposed_lookup (used_instances_list_ p) _ _ _ Hi)
        as (i' & Hi' & Hle' & _).
      exists i'. rewrite Hstore. split; [done | lia].
    + intros v d r u i' H Hi' Hu. exfalso. apply Hold in H.
      destruct (P4 _ _ _ _ H) as (i & Hi & Hle).
      destruct (foldl_alter_disposed_lookup (used_instances_list_ p) _ _ _ Hi)
        as (i'' & Hi'' & Hle' & Hlt).
      rewrite Hstore, Hi'' in Hi'. injection Hi' as ->.
      assert (Hcur : UseId i = u) by lia.
      specialize (P5 _ _ _ _ _ H Hi Hcur). specialize (Hlt P5). lia.
    + intros r i H. by apply elem_of_nil in H.
Qed.

Lemma transitions_partition (p p' : ObjectPool) :
  rtc (transition true) p p' → pool_wf p → pool_inv p → pool_partition p →
  pool_partition p'.
Proof.
  induction 1 as [|p1 p2 p3 H12 _ IH]; [done|]. intros Hwf Hinv Hpart.
  apply IH; [by eapply transition_wf | by eapply transition_inv
            | by eapply transition_partition].
Qed.

Lemma run_partition (ops : list Op) (p : ObjectPool) :
  proper ops p → pool_wf p → pool_inv p → pool_partition p → pool_partition (run ops p).
Proof.
  revert p. induction ops as [|o ops IH]; intros p Hpr Hwf Hinv Hpart; cbn [run]; [done|].
  destruct Hpr as [Hadm Hpr].
  destruct (step_cases true o p Hwf (inv_event_le p Hinv)) as [Ht _]; [done|].
  destruct (transitions_inv _ _ _ Ht Hwf Hinv).
  apply IH; [done..|]. by eapply transitions_partition.
Qed.

Lemma properly_reachable_reachable (p : ObjectPool) : properly_reachable p → reachable p.
Proof. intros (sz & ty & ops & _ & ->). by exists sz, ty, ops. Qed.

Lemma properly_reachable_partition (p : ObjectPool) :
  properly_reachable p → pool_partition p.
Proof.
  intros (sz & ty & ops & Hpr & ->).
  apply run_partition; [done | apply new_pool_wf | apply (new_pool_inv sz ty false)
                       | apply new_pool_partition].
Qed.

(** ** What holds of every pool *)

Lemma map_size_le (m : gmap nat nat) (c : nat) :
  (∀ k v, m !! k = Some v → k < c) → size m ≤ c.
Proof.
  intros H. rewrite <- (size_dom m), <- (size_set_seq (C := gset nat) 0 c).
  apply subseteq_size. intros k Hk. apply elem_of_dom in Hk as [v Hv].
  apply elem_of_set_seq. specialize (H k v Hv). lia.
Qed.

Lemma map_size_list (m : gmap nat nat) (l : list nat) :
  NoDup l → (∀ r, r ∈ l → m !! r = Some r) → (∀ k v, m !! k = Some v → k ∈ l) →
  size m = length l.
Proof.
  intros Hnd H1 H2. rewrite <- (size_dom m).
  assert (dom m = list_to_set l) as ->.
  { apply set_eq. intros k. rewrite elem_of_dom, elem_of_list_to_set.
    split; [intros [v Hv]; eauto | intros Hk; exists k; auto]. }
  by apply size_list_to_set.
Qed.

Lemma Fire_no_listener (p : ObjectPool) (creation_id use_id : nat) :
  dispose_event_ p = 0 → dispose_event_Fire creation_id use_id p = (Ok tt, p).
Proof. intros He. unfold dispose_event_Fire, bind, gets. by rewrite He. Qed.

(** X6. [DestroyPool] on a pool that is not destroyed and was reached through
    the methods and closures alone returns, and leaves [destroyed_pool]:
    every used instance is disposed of and then destroyed, in the order of
    the used list; of the free list only the instances at the even
    positions 0, 2, 4, ... are destroyed and taken off the registry, in that
    order; both lists are emptied, the listener is disconnected and the pool
    is marked destroyed. *)
Theorem DestroyPool_effect (p : ObjectPool) :
  properly_reachable p →
  is_destroyed_ p = false →
  DestroyPool p = (Ok tt, destroyed_pool p).
Proof.
  intros Hp Hd. apply DestroyPool_eq; [|done|].
  - by apply reachable_wf, properly_reachable_reachable.
  - by apply part_nodup, properly_reachable_partition.
Qed.

(** X7. The listener of [Init] is connected exactly once, and exactly while
    the pool is initialized and not destroyed: in every state that the calls
    can reach, [dispose_event_] has one listener then and none otherwise. *)
Theorem listener_connected_while_alive (p : ObjectPool) :
  reachable p →
  dispose_event_ p = if is_started_ p && negb (is_destroyed_ p) then 1 else 0.
Proof. intros Hp. by apply inv_event, reachable_inv. Qed.

(** X8. A Fixed or FailSilent pool never constructs an instance after
    [Init]: over the whole life of the pool [Create] is called as often as
    the loop of [Init] runs, that is [floor initial_pool_size_] times
    ([initial_pool_size_] times when the size is an integer) once the pool
    is initialized and not at all before; the store holds as many instances,
    and the registry never holds more. *)
Theorem bounded_pool_never_grows (p : ObjectPool) :
  reachable p →
  object_pool_type_ p = Fixed ∨ object_pool_type_ p = FailSilent →
  let N := if is_started_ p then Z.to_nat (Qfloor (initial_pool_size_ p)) else 0 in
  Create_calls (trace p) = N
  ∧ length (store p) = N
  ∧ creation_id_ p = N
  ∧ size (instances_map_ p) ≤ N
  ∧ ∀ n : nat, initial_pool_size_ p = Z.of_nat n → is_started_ p = true → N = n.
Proof.
  intros Hp Ht N. pose proof (reachable_inv p Hp) as Hinv.
  pose proof (inv_bounded p Hinv Ht) as Hc. fold N in Hc.
  split_and!.
  - by rewrite (inv_creates p Hinv).
  - by rewrite (inv_counter p Hinv).
  - done.
  - rewrite <- Hc. apply map_size_le. intros k v Hk.
    by destruct (wf_map p (reachable_wf p Hp) k v Hk).
  - intros n Hn Hs. unfold N. rewrite Hs, Hn. apply floor_of_nat.
Qed.

(** X9. The free list of an Elastic pool never holds more than
    [initial_pool_size_] instances, rounded up when the size is not an
    integer: [FreeInstance] pushes only while the list is shorter than the
    size. *)
Theorem elastic_free_list_bounded (p : ObjectPool) :
  reachable p →
  object_pool_type_ p = Elastic →
  length (instances_list_ p) ≤ Z.to_nat (Qceiling (initial_pool_size_ p))
  ∧ ∀ n : nat, initial_pool_size_ p = Z.of_nat n → length (instances_list_ p) ≤ n.
Proof.
  intros Hp Ht. pose proof (inv_elastic p (reachable_inv p Hp) Ht) as Hle.
  split; [done|]. intros n Hn. rewrite Hn, Qceiling_Z in Hle. lia.
Qed.

(** X10. The branch of [AllocateInstance] that warns "Something went wrong"
    is taken only by a Fixed pool whose initial size is below 1.  With a size
    of at least 1, or another strategy, the warning is in no log, and an
    initialized Fixed pool that is not destroyed always has an instance on
    one of its two lists.  With a size below 1 (which [Init] accepts when it
    is greater than 0) an initialized Fixed pool has no instance at all, and
    every [Use] only warns. *)
Theorem Fixed_warning_only_below_size_1 (p : ObjectPool) :
  reachable p →
  ((1 <= initial_pool_size_ p)%Q ∨ object_pool_type_ p ≠ Fixed →
   EvWarn "Something went wrong" ∉ trace p)
  ∧ (object_pool_type_ p = Fixed → started_and_alive p →
     (1 <= initial_pool_size_ p)%Q →
     used_instances_list_ p ++ instances_list_ p ≠ [])
  ∧ (object_pool_type_ p = Fixed → started_and_alive p →
     (initial_pool_size_ p < 1)%Q →
     store p = []
     ∧ ∀ start_data,
         Use start_data p =
           (Ok tt, set_trace (λ t, t ++ [EvWarn "Something went wrong"]) p)).
Proof.
  intros Hp. pose proof (reachable_inv p Hp) as Hinv.
  pose proof (reachable_wf p Hp) as Hwf.
  split_and!; [apply (inv_no_warn p Hinv) | apply (inv_nonempty p Hinv) |].
  intros Ht [Hs Hd] Hsmall.
  assert (Hstore : store p = []).
  { apply length_zero_iff_nil. rewrite (inv_counter p Hinv).
    rewrite (inv_bounded p Hinv (or_introl Ht)), Hs.
    assert (Hfl : (Qfloor (initial_pool_size_ p) < 1)%Z).
    { rewrite Zlt_Qlt. eapply Qle_lt_trans; [apply Qfloor_le | exact Hsmall]. }
    lia. }
  split; [done|]. intros start_data. apply Use_Fixed_nothing; try done.
  - destruct (instances_list_ p) as [|r l] eqn:Hl; [done|].
    assert (Hr : r < length (store p)) by (apply (wf_free p Hwf); rewrite Hl; set_solver).
    rewrite Hstore in Hr. cbn in Hr. lia.
  - destruct (used_instances_list_ p) as [|r l] eqn:Hu; [done|].
    assert (Hr : r < length (store p)) by (apply (wf_used p Hwf); rewrite Hu; set_solver).
    rewrite Hstore in Hr. cbn in Hr. lia.
Qed.


(** ** What holds when every signal comes from a closure *)

(** X12. The two lists partition the live instances: no instance is on the
    used list or the free list twice, or on both; every listed instance is
    filed in the registry under its creation id; and until the pool is
    destroyed every instance in the registry is on one of the lists. *)
Theorem instances_partitioned (p : ObjectPool) :
  properly_reachable p →
  NoDup (used_instances_list_ p ++ instances_list_ p)
  ∧ (∀ r, r ∈ used_instances_list_ p ++ instances_list_ p →
       ∃ i, store p !! r = Some i ∧ instances_map_ p !! CreationId i = Some r)
  ∧ (is_destroyed_ p = false →
     ∀ creation_id r, instances_map_ p !! creation_id = Some r →
       r ∈ used_instances_list_ p ++ instances_list_ p).
Proof.
  intros Hp. pose proof (properly_reachable_partition p Hp) as [P1 P2 P3 _ _ _].
  pose proof (reachable_wf p (properly_reachable_reachable p Hp)) as Hwf.
  split_and!; [done | | done].
  intros r Hr. specialize (P2 r Hr).
  destruct (wf_map p Hwf r r P2) as (_ & i & Hi & Hc). exists i. by rewrite Hc.
Qed.

(** X13. A closure that [Use] handed out names an instance of the store
    that is at the closure's generation or a later one; while the instance
    is still at the closure's generation it is on the used list and not on
    the free list.  So a closure, when applied, warns or frees an instance
    that is in use. *)
Theorem closure_frees_only_used_instance (p : ObjectPool) (value : TObjectData)
    (start_data : TObjectStartData) (instance use_id : nat) :
  properly_reachable p →
  EvStart value start_data instance use_id ∈ trace p →
  ∃ i, store p !! instance = Some i
       ∧ use_id ≤ UseId i
       ∧ (UseId i = use_id →
          instance ∈ used_instances_list_ p ∧ instance ∉ instances_list_ p).
Proof.
  intros Hp Hin. pose proof (properly_reachable_partition p Hp) as [P1 _ _ P4 P5 _].
  destruct (P4 _ _ _ _ Hin) as (i & Hi & Hle). exists i. split_and!; [done..|].
  intros Hu. pose proof (P5 _ _ _ _ _ Hin Hi Hu) as Hused. split; [done|].
  apply NoDup_app in P1 as (_ & Hdis & _). by apply Hdis.
Qed.

(** X14. An instance on the free list is inactive, and every closure that
    was handed out for it is stale. *)
Theorem free_instances_inactive (p : ObjectPool) (r : nat) (i : IObjectPoolInstance) :
  properly_reachable p →
  r ∈ instances_list_ p →
  store p !! r = Some i →
  IsActive i = false
  ∧ ∀ value start_data use_id,
      EvStart value start_data r use_id ∈ trace p → use_id < UseId i.
Proof.
  intros Hp Hr Hi. pose proof (properly_reachable_partition p Hp) as [P1 _ _ P4 P5 P6].
  split; [by apply (P6 r i)|].
  intros v d u Hin. destruct (P4 _ _ _ _ Hin) as (i' & Hi' & Hle).
  rewrite Hi in Hi'. injection Hi' as <-.
  destruct (decide (UseId i = u)) as [Hu|Hu]; [|lia].
  pose proof (P5 _ _ _ _ _ Hin Hi Hu) as Hused.
  apply NoDup_app in P1 as (_ & Hdis & _). by destruct (Hdis r).
Qed.

(** X15. Until the pool is destroyed, the registry holds exactly the
    instances of the two lists: the live count is the number of used
    instances plus the number of free ones. *)
Theorem live_instances_counted (p : ObjectPool) :
  properly_reachable p →
  is_destroyed_ p = false →
  size (instances_map_ p) = length (used_instances_list_ p) + length (instances_list_ p).
Proof.
  intros Hp Hd. pose proof (properly_reachable_partition p Hp) as [P1 P2 P3 _ _ _].
  pose proof (properly_reachable_reachable p Hp) as Hr.
  pose proof (reachable_wf p Hr) as Hwf. pose proof (reachable_inv p Hr) as Hinv.
  rewrite <- length_app. apply map_size_list; [done..|].
  intros k v Hk. destruct (wf_map p Hwf k v Hk) as (_ & i & Hi & Hc).
  rewrite <- Hc, (inv_store_ids p Hinv v i Hi). by apply (P3 Hd k v).
Qed.

(** X16. A destroyed pool is inert: its lists stay empty, a signal reaches
    no listener and changes nothing, and every closure that was handed out
    before only warns. *)
Theorem destroyed_pool_inert (p : ObjectPool) :
  properly_reachable p →
  is_destroyed_ p = true →
  used_instances_list_ p = [] ∧ instances_list_ p = []
  ∧ (∀ creation_id use_id, dispose_event_Fire creation_id use_id p = (Ok tt, p))
  ∧ (∀ value start_data instance use_id,
       EvStart value start_data instance use_id ∈ trace p →
       dispose_capability instance use_id p =
         (Ok tt,
          set_trace
            (λ t, t ++ [EvWarn "Attemt of disposal when the instance was already disposed"])
            p)).
Proof.
  intros Hp Hd. pose proof (properly_reachable_partition p Hp) as [_ _ _ P4 P5 _].
  pose proof (reachable_inv p (properly_reachable_reachable p Hp)) as Hinv.
  destruct (inv_destroyed p Hinv Hd) as [Hu Hl]. split_and!; [done..| |].
  - intros c u. apply Fire_no_listener. rewrite (inv_event p Hinv), Hd.
    by rewrite andb_false_r.
  - intros v d r u Hin. destruct (P4 _ _ _ _ Hin) as (i & Hi & Hle).
    apply (dispose_capability_stale p r u i Hi). intros Hcur.
    pose proof (P5 _ _ _ _ _ Hin Hi Hcur) as Hused. rewrite Hu in Hused.
    by apply elem_of_nil in Hused.
Qed.

End ObjectPool.

Arguments IObjectPoolInstance : clear implicits.
Arguments Event : clear implicits.
Arguments ObjectPool : clear implicits.
Arguments Op : clear implicits.

(** ** A concrete pool

    Values and start data are numbers; [Create] returns the number of hook
    calls logged so far. *)
#[local] Abbreviation demo_Create := (λ t : list (Event nat nat), length t).

#[local] Abbreviation demo_pool initial_pool_size object_pool_type ops :=
  (run demo_Create ops (new_pool initial_pool_size object_pool_type)).

Lemma demo_pool_reachable (initial_pool_size : Q) (object_pool_type : EObjectPoolType)
    (ops : list (Op nat)) :
  reachable demo_Create (demo_pool initial_pool_size object_pool_type ops).
Proof. by exists initial_pool_size, object_pool_type, ops. Defined.

(** C1 on a pool of size 1: the instance is disposed of by its signal and
    handed out again; the same signal, delivered a second time, is ignored. *)
Lemma stale_disposal_signal_ignored_witness :
  let p := demo_pool 1 Fixed [OpUse 7] in
  let p2 := run demo_Create [OpUse 8] (run demo_Create [OpSignal 0 0] p) in
  reachable demo_Create p
  ∧ store p2 !! 0 = Some (mkInstance 0 true 0 1)
  ∧ exec (dispose_event_Fire 0 0) p2 = p2.
Proof.
  intros p p2.
  pose proof (demo_pool_reachable 1 Fixed [OpUse 7]) as Hp.
  split_and!; [exact Hp | reflexivity |].
  destruct (stale_disposal_signal_ignored demo_Create p 0 0 Hp) as (_ & _ & H3 & _).
  apply (H3 0 (mkInstance 0 true 0 0) (mkInstance 0 false 0 1) [OpSignal 0 0] [OpUse 8]);
    [reflexivity | reflexivity | reflexivity | reflexivity | cbn; lia].
Defined.

(** C2, as stated, fails: the first [Use] of a new pool of size 2 hands out
    the instance with creation id 1, not 0. *)
Lemma fixed_scenario_first_use_counterexample :
  let p1 := exec (Use demo_Create 7) (new_pool 2 Fixed) in
  ¬ ∃ r i, used_instances_list_ p1 = [r] ∧ store p1 !! r = Some i
           ∧ CreationId i = 0 ∧ UseId i = 0.
Proof.
  intros p1 (r & i & Hu & Hi & Hc & _).
  vm_compute in Hu. injection Hu as <-. vm_compute in Hi. injection Hi as <-.
  discriminate Hc.
Qed.

(** C3, as stated, fails: under Elastic with initial size 1, freeing the only
    instance makes the free list reach the initial size, yet the instance is
    pushed onto the free list and stays in the registry. *)
Lemma elastic_shrink_rule_counterexample :
  let p := exec (Use demo_Create 7) (new_pool 1 Elastic) in
  let p' := exec (dispose_event_Fire 0 0) p in
  ¬ (current_signal p 0 0 → spec_shrink_test p →
     instances_map_ p' !! 0 = None ∧ instances_list_ p' = []).
Proof.
  intros p p' H.
  assert (Hc : current_signal p 0 0).
  { exists 0, (mkInstance 0 true 0 0). by split_and!. }
  assert (Hs : spec_shrink_test p) by (split; [reflexivity | by vm_compute]).
  destruct (H Hc Hs) as [Hm _]. vm_compute in Hm. discriminate Hm.
Qed.

(** C3 (amended) on an Elastic pool of size 1 that has grown to two used
    instances: the first one freed is pushed onto the empty free list, the
    second one finds the free list full and is destroyed. *)
Lemma elastic_shrink_rule_witness :
  let p := demo_pool 1 Elastic [OpUse 7; OpUse 8] in
  code_shrink_test (exec (dispose_event_Fire 0 0) p)
  ∧ instances_list_ (exec (dispose_event_Fire 1 0)
                       (exec (dispose_event_Fire 0 0) p)) = [0]
  ∧ ¬ code_shrink_test p
  ∧ instances_list_ (exec (dispose_event_Fire 0 0) p) = [0].
Proof.
  intros p.
  assert (Hn : ¬ code_shrink_test p) by (intros [_ H]; by vm_compute in H).
  assert (Hy : code_shrink_test (exec (dispose_event_Fire 0 0) p)).
  { split; [reflexivity | by vm_compute]. }
  split_and!; [exact Hy | | exact Hn |].
  - destruct (elastic_shrink_rule
                (exec (dispose_event_Fire 0 0) p) 1 0 1
                (mkInstance 2 false 1 0) eq_refl eq_refl eq_refl eq_refl eq_refl)
      as (_ & _ & Hd & _).
    destruct (Hd Hy) as (_ & _ & _ & Hl). apply Hl.
    vm_compute. intros Hin. apply list_elem_of_singleton in Hin. discriminate Hin.
  - destruct (elastic_shrink_rule p 0 0 0
                (mkInstance 0 true 0 0) eq_refl eq_refl eq_refl eq_refl eq_refl)
      as (_ & _ & _ & Hk).
    by destruct (Hk Hn) as (_ & _ & ->).
Defined.

(** C5 with [N = 2]. *)
Lemma fixed_overlapping_uses_witness :
  let pN := demo_pool 2 Fixed [OpUse 7; OpUse 8] in
  0 < 2 ∧ length [7; 8] = 2
  ∧ instances_list_ pN = []
  ∧ size (instances_map_ (demo_pool 2 Fixed [OpUse 7; OpUse 8; OpUse 9])) ≤ 2.
Proof.
  intros pN.
  destruct (fixed_overlapping_uses demo_Create 2 [7; 8] 9 ltac:(lia) eq_refl)
    as (Hsize & Hfree & _).
  split_and!; [lia | reflexivity | exact Hfree |].
  exact (Hsize [7; 8; 9] [] eq_refl).
Defined.

(** C6 with [N = 2]. *)
Lemma failsilent_exhausted_use_witness :
  let pN := demo_pool 2 FailSilent [OpUse 7; OpUse 8] in
  0 < 2 ∧ length [7; 8] = 2 ∧ Use demo_Create 9 pN = (Ok tt, pN).
Proof.
  intros pN.
  destruct (failsilent_exhausted_use demo_Create 2 [7; 8] 9 ltac:(lia) eq_refl)
    as (_ & _ & _ & HU).
  split_and!; [lia | reflexivity | exact HU].
Defined.



(** C8 with [N = 3]. *)
Lemma live_instances_after_Init_witness :
  0 < 3 ∧ size (instances_map_ (exec (Init demo_Create) (new_pool 3 Elastic))) = 3.
Proof.
  split; [lia|].
  by destruct (live_instances_after_Init demo_Create 3 Elastic 7 ltac:(lia))
    as (_ & _ & H3 & _).
Defined.

(** C9 on a pool of size 3 with two instances in use. *)
Lemma DestroyPool_idempotent_witness :
  let p := demo_pool 3 Elastic [OpUse 7; OpUse 8] in
  reachable demo_Create p
  ∧ DestroyPool (exec DestroyPool p) = (Ok tt, exec DestroyPool p).
Proof.
  intros p. pose proof (demo_pool_reachable 3 Elastic [OpUse 7; OpUse 8]) as Hp.
  split; [exact Hp|].
  by destruct (DestroyPool_idempotent demo_Create p Hp) as (_ & _ & H3).
Defined.

(** C10 on a pool of size 3 after one use: the free list is [[0; 1]] and the
    next [Use] takes instance 1. *)
Lemma free_list_is_LIFO_witness :
  let p := demo_pool 3 Unbounded [OpUse 7] in
  started_and_alive p
  ∧ instances_list_ p = [0] ++ [1]
  ∧ store p !! 1 = Some (mkInstance 1 false 1 0)
  ∧ 0 < 3
  ∧ used_instances_list_ (exec (Use demo_Create 8) p) = [2; 1].
Proof.
  intros p.
  assert (Ha : started_and_alive p) by (by split).
  destruct (free_list_is_LIFO demo_Create p 8 [0] 1 (mkInstance 1 false 1 0) 3 Unbounded
              Ha eq_refl eq_refl ltac:(lia)) as ((_ & _ & Hu & _) & _).
  split_and!; [exact Ha | reflexivity | reflexivity | lia | exact Hu].
Defined.

Lemma demo_pool_properly_reachable (initial_pool_size : Q) (object_pool_type : EObjectPoolType)
    (ops : list (Op nat)) :
  proper demo_Create ops (new_pool initial_pool_size object_pool_type) →
  properly_reachable demo_Create (demo_pool initial_pool_size object_pool_type ops).
Proof. intros Hpr. by exists initial_pool_size, object_pool_type, ops. Defined.

(** X1 on a Fixed pool of size 2: the instance handed out first keeps its
    value and creation id while two more uses recycle it. *)
Lemma instance_fields_over_runs_witness :
  let p := demo_pool 2 Fixed [OpUse 7] in
  let p' := run demo_Create [OpUse 8; OpUse 9] p in
  reachable demo_Create p
  ∧ store p !! 1 = Some (mkInstance 1 true 1 0)
  ∧ creation_id_ p ≤ creation_id_ p'
  ∧ ∃ i', store p' !! 1 = Some i' ∧ Value i' = 1 ∧ CreationId i' = 1 ∧ 0 ≤ UseId i'.
Proof.
  intros p p'. pose proof (demo_pool_reachable 2 Fixed [OpUse 7]) as Hp.
  split_and!; [exact Hp | reflexivity | ..];
    by destruct (instance_fields_over_runs demo_Create p [OpUse 8; OpUse 9] 1
                   (mkInstance 1 true 1 0) Hp eq_refl).
Defined.

(** X2 on an Unbounded pool of size 1 whose instance is in use. *)
Lemma use_grows_when_exhausted_witness :
  let p := demo_pool 1 Unbounded [OpUse 7] in
  started_and_alive p
  ∧ instances_list_ p = []
  ∧ object_pool_type_ p = Unbounded
  ∧ used_instances_list_ (exec (Use demo_Create 8) p) = [0; 1].
Proof.
  intros p. assert (Ha : started_and_alive p) by (by split).
  destruct (use_grows_when_exhausted demo_Create 8 p Ha eq_refl (or_introl eq_refl))
    as (_ & _ & _ & _ & Hu & _).
  split_and!; [exact Ha | reflexivity | reflexivity | exact Hu].
Defined.

(** X3 on an Elastic pool of size 2 with three overlapping uses. *)
Lemma growing_overlapping_uses_witness :
  let p := run demo_Create (OpUse <$> [7; 8; 9]) (new_pool (Z.of_nat 2) Elastic) in
  0 < 2 ∧ 2 ≤ length [7; 8; 9]
  ∧ used_instances_list_ p = [1; 0; 2] ∧ instances_list_ p = [].
Proof.
  intros p.
  destruct (growing_overlapping_uses demo_Create Elastic 2 [7; 8; 9]
              ltac:(lia) (or_intror eq_refl) ltac:(simpl; lia)) as (_ & _ & Hu & Hl).
  split_and!; [lia | simpl; lia | exact Hu | exact Hl].
Defined.

(** X4 on a pool of size 1: the closure of the first use, applied twice. *)
Lemma dispose_capability_twice_witness :
  let p := demo_pool 1 Fixed [OpUse 7] in
  let i := mkInstance 0 true 0 0 in
  let p1 := exec (dispose_capability 0 0) p in
  store p !! 0 = Some i
  ∧ dispose_event_ p = 1
  ∧ instances_map_ p !! 0 = Some 0
  ∧ store p1 !! 0 = Some (mkInstance 0 false 0 1)
  ∧ dispose_capability 0 0 p1 =
      (Ok tt,
       set_trace
         (λ t, t ++ [EvWarn "Attemt of disposal when the instance was already disposed"])
         p1).
Proof.
  intros p i p1.
  destruct (dispose_capability_twice p 0 i eq_refl eq_refl eq_refl) as (_ & Hs & Hw).
  split_and!; [reflexivity | reflexivity | reflexivity | exact Hs | exact Hw].
Defined.

(** X5 on an initialized Fixed pool of size 2. *)
Lemma use_then_dispose_round_trip_witness :
  let p := demo_pool 2 Fixed [OpInit] in
  let p2 := exec (dispose_capability 1 0) (exec (Use demo_Create 7) p) in
  started_and_alive p
  ∧ dispose_event_ p = 1
  ∧ instances_list_ p = [0] ++ [1]
  ∧ store p !! 1 = Some (mkInstance 1 false 1 0)
  ∧ instances_map_ p !! 1 = Some 1
  ∧ (1 ∉ used_instances_list_ p)
  ∧ object_pool_type_ p ≠ Elastic
  ∧ instances_list_ p2 = [0; 1]
  ∧ used_instances_list_ p2 = [].
Proof.
  intros p p2. assert (Ha : started_and_alive p) by (by split).
  assert (Hn : 1 ∉ used_instances_list_ p) by apply not_elem_of_nil.
  assert (Ht : object_pool_type_ p ≠ Elastic) by discriminate.
  destruct (use_then_dispose_round_trip demo_Create 7 p [0] 1 (mkInstance 1 false 1 0)
              Ha eq_refl eq_refl eq_refl eq_refl Hn (λ H, Ht (proj1 H)))
    as (_ & Hl & Hu & _).
  split_and!; [exact Ha | reflexivity | reflexivity | reflexivity | reflexivity
              | exact Hn | exact Ht | exact Hl | exact Hu].
Defined.

(** X6 on a Fixed pool of size 3 with one instance in use: the used instance
    2 is disposed of and destroyed, and of the free instances 0 and 1 only
    instance 0 is destroyed. *)
Lemma DestroyPool_effect_witness :
  let p := demo_pool 3 Fixed [OpUse 7] in
  properly_reachable demo_Create p
  ∧ is_destroyed_ p = false
  ∧ DestroyPool p = (Ok tt, destroyed_pool p)
  ∧ trace (destroyed_pool p) = trace p ++ [EvDispose 2; EvDestroy 2; EvDestroy 0].
Proof.
  intros p.
  assert (Hp : properly_reachable demo_Create p).
  { apply demo_pool_properly_reachable. simpl. tauto. }
  split_and!; [exact Hp | reflexivity | exact (DestroyPool_effect demo_Create p Hp eq_refl)
              | reflexivity].
Defined.

(** X7 on a pool that was used and then destroyed: no listener is left. *)
Lemma listener_connected_while_alive_witness :
  let p := demo_pool 2 Fixed [OpUse 7; OpDestroyPool] in
  reachable demo_Create p ∧ dispose_event_ p = 0.
Proof.
  intros p. pose proof (demo_pool_reachable 2 Fixed [OpUse 7; OpDestroyPool]) as Hp.
  split; [exact Hp | exact (listener_connected_while_alive demo_Create p Hp)].
Defined.

(** X8 on a Fixed pool of size 5/2 after three uses: [Create] was called
    twice. *)
Lemma bounded_pool_never_grows_witness :
  let p := demo_pool (5 # 2) Fixed [OpUse 7; OpUse 8; OpUse 9] in
  reachable demo_Create p
  ∧ object_pool_type_ p = Fixed
  ∧ Create_calls (trace p) = 2
  ∧ size (instances_map_ p) ≤ 2.
Proof.
  intros p.
  pose proof (demo_pool_reachable (5 # 2) Fixed [OpUse 7; OpUse 8; OpUse 9]) as Hp.
  destruct (bounded_pool_never_grows demo_Create p Hp (or_introl eq_refl))
    as (Hc & _ & _ & Hm & _).
  split_and!; [exact Hp | reflexivity | exact Hc | exact Hm].
Defined.

(** X9 on an Elastic pool of size 3/2 that grew to two instances and had
    both disposed of: both are on the free list. *)
Lemma elastic_free_list_bounded_witness :
  let p := demo_pool (3 # 2) Elastic [OpUse 7; OpUse 8; OpSignal 0 0; OpSignal 1 0] in
  reachable demo_Create p
  ∧ object_pool_type_ p = Elastic
  ∧ instances_list_ p = [0; 1]
  ∧ length (instances_list_ p) ≤ 2.
Proof.
  intros p.
  pose proof (demo_pool_reachable (3 # 2) Elastic
                [OpUse 7; OpUse 8; OpSignal 0 0; OpSignal 1 0]) as Hp.
  split_and!; [exact Hp | reflexivity | reflexivity
              | exact (proj1 (elastic_free_list_bounded demo_Create p Hp eq_refl))].
Defined.

(** X10 on two Fixed pools: of size 1 after two uses, and of size 1/2 after
    [Init], where [Use] only warns. *)
Lemma Fixed_warning_only_below_size_1_witness :
  let p := demo_pool 1 Fixed [OpUse 7; OpUse 8] in
  let q := demo_pool (1 # 2) Fixed [OpInit] in
  reachable demo_Create p
  ∧ (1 <= initial_pool_size_ p)%Q
  ∧ (EvWarn "Something went wrong" ∉ trace p)
  ∧ reachable demo_Create q
  ∧ object_pool_type_ q = Fixed ∧ started_and_alive q
  ∧ (initial_pool_size_ q < 1)%Q
  ∧ Use demo_Create 7 q =
      (Ok tt, set_trace (λ t, t ++ [EvWarn "Something went wrong"]) q).
Proof.
  intros p q. pose proof (demo_pool_reachable 1 Fixed [OpUse 7; OpUse 8]) as Hp.
  pose proof (demo_pool_reachable (1 # 2) Fixed [OpInit]) as Hq.
  assert (Hone : (1 <= initial_pool_size_ p)%Q) by (by vm_compute).
  assert (Hsmall : (initial_pool_size_ q < 1)%Q) by reflexivity.
  assert (Ha : started_and_alive q) by (by split).
  split_and!; [exact Hp | exact Hone | | exact Hq | reflexivity | exact Ha | exact Hsmall |].
  - exact (proj1 (Fixed_warning_only_below_size_1 demo_Create p Hp) (or_introl Hone)).
  - destruct (Fixed_warning_only_below_size_1 demo_Create q Hq) as (_ & _ & H3).
    exact (proj2 (H3 eq_refl Ha Hsmall) 7).
Defined.


(** X12 on a Fixed pool of size 2 with one instance in use. *)
Lemma instances_partitioned_witness :
  let p := demo_pool 2 Fixed [OpUse 7] in
  properly_reachable demo_Create p
  ∧ NoDup (used_instances_list_ p ++ instances_list_ p).
Proof.
  intros p.
  assert (Hp : properly_reachable demo_Create p).
  { apply demo_pool_properly_reachable. simpl. tauto. }
  split; [exact Hp | exact (proj1 (instances_partitioned demo_Create p Hp))].
Defined.

(** X13 on a Fixed pool of size 2: the closure of the first use. *)
Lemma closure_frees_only_used_instance_witness :
  let p := demo_pool 2 Fixed [OpUse 7] in
  properly_reachable demo_Create p
  ∧ (EvStart 1 7 1 0 ∈ trace p)
  ∧ ∃ i, store p !! 1 = Some i ∧ 0 ≤ UseId i
         ∧ (UseId i = 0 → 1 ∈ used_instances_list_ p ∧ 1 ∉ instances_list_ p).
Proof.
  intros p.
  assert (Hp : properly_reachable demo_Create p).
  { apply demo_pool_properly_reachable. simpl. tauto. }
  assert (Hin : EvStart 1 7 1 0 ∈ trace p).
  { apply (list_elem_of_lookup_2 _ 2). reflexivity. }
  split_and!; [exact Hp | exact Hin
              | exact (closure_frees_only_used_instance demo_Create p 1 7 1 0 Hp Hin)].
Defined.

(** X14 on a Fixed pool of size 2 whose used instance was disposed of. *)
Lemma free_instances_inactive_witness :
  let p := demo_pool 2 Fixed [OpUse 7; OpDispose 1 0] in
  let i := mkInstance 1 false 1 1 in
  properly_reachable demo_Create p
  ∧ (1 ∈ instances_list_ p)
  ∧ store p !! 1 = Some i
  ∧ IsActive i = false
  ∧ ∀ value start_data use_id,
      EvStart value start_data 1 use_id ∈ trace p → use_id < UseId i.
Proof.
  intros p i.
  assert (Hp : properly_reachable demo_Create p).
  { apply demo_pool_properly_reachable. simpl. tauto. }
  assert (Hin : 1 ∈ instances_list_ p).
  { apply (list_elem_of_lookup_2 _ 1). reflexivity. }
  split_and!; [exact Hp | exact Hin | reflexivity
              | apply (free_instances_inactive demo_Create p 1 i Hp Hin eq_refl)..].
Defined.

(** X15 on an Unbounded pool of size 2 with three instances in use. *)
Lemma live_instances_counted_witness :
  let p := demo_pool 2 Unbounded [OpUse 7; OpUse 8; OpUse 9] in
  properly_reachable demo_Create p
  ∧ is_destroyed_ p = false
  ∧ size (instances_map_ p) = 3 + 0.
Proof.
  intros p.
  assert (Hp : properly_reachable demo_Create p).
  { apply demo_pool_properly_reachable. simpl. tauto. }
  split_and!; [exact Hp | reflexivity
              | exact (live_instances_counted demo_Create p Hp eq_refl)].
Defined.

(** X16 on a Fixed pool of size 2 that was used and then destroyed. *)
Lemma destroyed_pool_inert_witness :
  let p := demo_pool 2 Fixed [OpUse 7; OpDestroyPool] in
  properly_reachable demo_Create p
  ∧ is_destroyed_ p = true
  ∧ used_instances_list_ p = [] ∧ instances_list_ p = []
  ∧ dispose_event_Fire 1 0 p = (Ok tt, p).
Proof.
  intros p.
  assert (Hp : properly_reachable demo_Create p).
  { apply demo_pool_properly_reachable. simpl. tauto. }
  destruct (destroyed_pool_inert demo_Create p Hp eq_refl) as (Hu & Hl & Hf & _).
  split_and!; [exact Hp | reflexivity | exact Hu | exact Hl | exact (Hf 1 0)].
Defined.
